(** * Eve runtime: a shallow embedding of the incremental dataflow core

    The definitions below follow the TypeScript runtime (the interner,
    the join node with Generic Join, the output nodes, the choose flow and
    the transaction loop).  JavaScript numbers that hold interned IDs,
    rounds and multiplicities are modelled as [Z]; the saturated counts
    (plus or minus Infinity) that a commit frame feeds back are outside
    this model.  JavaScript arrays and objects used as sparse maps are
    [gmap]s, [undefined] is [None]. *)

From stdpp Require Import gmap strings list pretty sorting.
From Stdlib Require Import ZArith Lia Ascii.

Local Open Scope Z_scope.

(** An interned value's ID ([export type ID = number]). *)
Abbreviation ID := Z (only parsing).

(** ** Interning *)

Module Interner.

(** [export type RawValue = string|number]. *)
Inductive RawValue :=
| RStr (s : string)
| RNum (z : Z).

#[global] Instance RawValue_eq_dec : EqDecision RawValue.
Proof. solve_decision. Defined.

(** A slot of a JavaScript [number[]] that is incremented and decremented
    without a bounds check: [undefined++] and [undefined--] store [NaN]. *)
Inductive jsnum :=
| JNum (z : Z)
| JNaN.

Definition incr (o : option jsnum) : jsnum :=
  match o with
  | Some (JNum z) => JNum (z + 1)
  | _ => JNaN
  end.

Definition decr (o : option jsnum) : jsnum :=
  match o with
  | Some (JNum z) => JNum (z - 1)
  | _ => JNaN
  end.

(** [!x] on a number: true for [0] and [NaN]. *)
Definition falsy (x : jsnum) : bool :=
  match x with
  | JNum z => bool_decide (z = 0)
  | JNaN => true
  end.

(** The fields of [class Interner].  Both dictionaries are JavaScript
    objects, so both are keyed by strings: a string value by itself, a
    number by its decimal spelling.  [IDFreeList] is a stack whose top
    (the end of the JavaScript array) is the head of the list. *)
Record t := mk {
  currentID : Z;
  strings : gmap string ID;
  numbers : gmap string ID;
  IDs : gmap Z RawValue;
  IDRefCount : gmap Z jsnum;
  IDFreeList : list ID;
}.

(** [new Interner()]. *)
Definition new : t :=
  {| currentID := 0; strings := ∅; numbers := ∅; IDs := ∅;
     IDRefCount := ∅; IDFreeList := [] |}.

(** The property key under which a raw value is stored. *)
Definition key (v : RawValue) : string :=
  match v with
  | RStr s => s
  | RNum z => pretty z
  end.

(** [coll[value]] after the [isNumber] dispatch. *)
Definition coll_lookup (s : t) (v : RawValue) : option ID :=
  match v with
  | RStr k => strings s !! k
  | RNum z => numbers s !! pretty z
  end.

(** [_getFreeID]: [this.IDFreeList.pop() || this.currentID++].  A popped
    [0] is falsy, so the counter is used (and the [0] is gone from the
    free list). *)
Definition _getFreeID (s : t) : ID * t :=
  match IDFreeList s with
  | id :: rest =>
      if bool_decide (id = 0)
      then (currentID s,
            {| currentID := currentID s + 1; strings := strings s;
               numbers := numbers s; IDs := IDs s;
               IDRefCount := IDRefCount s; IDFreeList := rest |})
      else (id,
            {| currentID := currentID s; strings := strings s;
               numbers := numbers s; IDs := IDs s;
               IDRefCount := IDRefCount s; IDFreeList := rest |})
  | [] =>
      (currentID s,
       {| currentID := currentID s + 1; strings := strings s;
          numbers := numbers s; IDs := IDs s;
          IDRefCount := IDRefCount s; IDFreeList := [] |})
  end.

(** [reference(id)]. *)
Definition reference (id : ID) (s : t) : t :=
  {| currentID := currentID s; strings := strings s; numbers := numbers s;
     IDs := IDs s;
     IDRefCount := <[id := incr (IDRefCount s !! id)]> (IDRefCount s);
     IDFreeList := IDFreeList s |}.

(** [coll[value] = found] after the [isNumber] dispatch. *)
Definition coll_store (v : RawValue) (id : ID) (s : t) : t :=
  match v with
  | RStr k =>
      {| currentID := currentID s; strings := <[k := id]> (strings s);
         numbers := numbers s; IDs := IDs s; IDRefCount := IDRefCount s;
         IDFreeList := IDFreeList s |}
  | RNum z =>
      {| currentID := currentID s; strings := strings s;
         numbers := <[pretty z := id]> (numbers s); IDs := IDs s;
         IDRefCount := IDRefCount s; IDFreeList := IDFreeList s |}
  end.

(** [intern(value)]. *)
Definition intern (v : RawValue) (s : t) : ID * t :=
  match coll_lookup s v with
  | None =>
      let '(found, s1) := _getFreeID s in
      let s2 := coll_store v found s1 in
      (found,
       {| currentID := currentID s2; strings := strings s2;
          numbers := numbers s2; IDs := <[found := v]> (IDs s2);
          IDRefCount := <[found := JNum 1]> (IDRefCount s2);
          IDFreeList := IDFreeList s2 |})
  | Some found => (found, reference found s)
  end.

(** [get(value)]: lookup only. *)
Definition get (v : RawValue) (s : t) : option ID := coll_lookup s v.

(** [reverse(id)]. *)
Definition reverse (s : t) (id : ID) : option RawValue := IDs s !! id.

(** [release(id)].  When the slot of [IDs] is [undefined] the dispatch
    takes the string dictionary and the key is the spelling of
    [undefined]. *)
Definition release (oid : option ID) (s : t) : t :=
  match oid with
  | None => s
  | Some id =>
      let rc := decr (IDRefCount s !! id) in
      let refs := <[id := rc]> (IDRefCount s) in
      if falsy rc then
        match IDs s !! id with
        | Some (RNum z) =>
            {| currentID := currentID s; strings := strings s;
               numbers := delete (pretty z) (numbers s);
               IDs := delete id (IDs s); IDRefCount := refs;
               IDFreeList := id :: IDFreeList s |}
        | Some (RStr k) =>
            {| currentID := currentID s;
               strings := delete k (strings s);
               numbers := numbers s;
               IDs := delete id (IDs s); IDRefCount := refs;
               IDFreeList := id :: IDFreeList s |}
        | None =>
            {| currentID := currentID s;
               strings := delete "undefined"%string (strings s);
               numbers := numbers s;
               IDs := delete id (IDs s); IDRefCount := refs;
               IDFreeList := id :: IDFreeList s |}
        end
      else
        {| currentID := currentID s; strings := strings s;
           numbers := numbers s; IDs := IDs s; IDRefCount := refs;
           IDFreeList := IDFreeList s |}
  end.

(** An ID is live while it has a raw value. *)
Definition live (s : t) (id : ID) : Prop := is_Some (IDs s !! id).

(** The states an interner goes through when it is created by [new] and
    then only asked to intern values and to reference or release IDs
    that are live. *)
Inductive reachable : t → Prop :=
| reach_new : reachable new
| reach_intern v s : reachable s → reachable (intern v s).2
| reach_reference id s :
    reachable s → live s id → reachable (reference id s)
| reach_release id s :
    reachable s → live s id → reachable (release (Some id) s).

(** The representation invariant of the two dictionaries, the reverse
    array, the reference counts and the free list. *)
Record wf (s : t) : Prop := {
  wf_strings : ∀ k id, strings s !! k = Some id → IDs s !! id = Some (RStr k);
  wf_numbers : ∀ k id, numbers s !! k = Some id →
               ∃ z, k = pretty z ∧ IDs s !! id = Some (RNum z);
  wf_ids : ∀ id v, IDs s !! id = Some v → coll_lookup s v = Some id;
  wf_bound : ∀ id v, IDs s !! id = Some v → 0 ≤ id < currentID s;
  wf_free : ∀ id, id ∈ IDFreeList s → 0 ≤ id < currentID s ∧ IDs s !! id = None;
  wf_free_nodup : NoDup (IDFreeList s);
  wf_counter : 0 ≤ currentID s;
  wf_refs : ∀ id v, IDs s !! id = Some v →
            ∃ n, IDRefCount s !! id = Some (JNum n) ∧ 0 < n;
}.

End Interner.

(** ** Prefixes, registers and changes *)

(** [export type Prefix = ID[]]: a JavaScript array whose slots are numbers
    or [undefined].  The last two slots are reserved for the round and the
    count ([Block] allocates [totalRegisters + 2] slots); the accessors
    below are meant for prefixes that have them. *)
Abbreviation Prefix := (list (option Z)) (only parsing).

(** [prefix[i]] for a non-negative index: [undefined] out of range. *)
Definition pget (prefix : Prefix) (i : nat) : option Z :=
  mjoin (prefix !! i).

(** [prefix[i] = x]: JavaScript extends the array when [i] is out of
    range, leaving holes that read as [undefined]. *)
Definition pset (prefix : Prefix) (i : nat) (x : option Z) : Prefix :=
  if decide (i < length prefix)%nat then <[i := x]> prefix
  else prefix ++ replicate (i - length prefix) None ++ [x].

(** [prefix[prefix.length - 2]] and [prefix[prefix.length - 1]]. *)
Definition prefixRound (prefix : Prefix) : option Z :=
  pget prefix (length prefix - 2).
Definition prefixCount (prefix : Prefix) : option Z :=
  pget prefix (length prefix - 1).
Definition setRound (prefix : Prefix) (x : option Z) : Prefix :=
  <[(length prefix - 2)%nat := x]> prefix.
Definition setCount (prefix : Prefix) (x : option Z) : Prefix :=
  <[(length prefix - 1)%nat := x]> prefix.

(** [class Register]. *)
Record Register := mkRegister { offset : nat }.

#[global] Instance Register_eq_dec : EqDecision Register.
Proof. solve_decision. Defined.

(** [type ScanField = Register|ID|IgnoreRegister]. *)
Inductive ScanField :=
| Reg (r : Register)
| Static (id : ID)
| IGNORE_REG.

(** [type ResolvedValue = ID|undefined|IgnoreRegister]. *)
Inductive ResolvedValue :=
| Bound (id : ID)
| Undefined
| Ignored.

#[global] Instance ResolvedValue_eq_dec : EqDecision ResolvedValue.
Proof. solve_decision. Defined.

(** One field of [resolve(prefix)]: a register reads its slot, anything
    else is the field itself. *)
Definition resolveField (f : ScanField) (prefix : Prefix) : ResolvedValue :=
  match f with
  | Reg r => match pget prefix (offset r) with
             | Some id => Bound id
             | None => Undefined
             end
  | Static id => Bound id
  | IGNORE_REG => Ignored
  end.

(** The ways an execution leaves the integer model: an [Error] that the
    code throws, a [TypeError] of the JavaScript engine (a property read
    on [undefined]), arithmetic on [undefined], which yields [NaN], or an
    array written at a negative index, which JavaScript keeps as a
    property of the array and not as one of its elements. *)
Inductive failure :=
| Thrown (msg : string)
| TypeError
| NotANumber
| NegativeIndex.

Inductive result (A : Type) :=
| Ok (a : A)
| Fail (f : failure).
Arguments Ok {A} a.
Arguments Fail {A} f.

Definition rbind {A B} (m : result A) (k : A → result B) : result B :=
  match m with
  | Ok a => k a
  | Fail f => Fail f
  end.

Module Change.

(** Whether the object was made by [new Change] or by
    [new RemoveChange]. *)
Inductive Class :=
| CChange
| CRemoveChange.

#[global] Instance Class_eq_dec : EqDecision Class.
Proof. solve_decision. Defined.

(** [class Change] and its subclass [RemoveChange], for changes whose
    triple is interned. *)
Record t := mk {
  cls : Class;
  e : ID; a : ID; v : ID; n : ID;
  transaction : Z; round : Z; count : Z;
}.

#[global] Instance eq_dec : EqDecision t.
Proof. solve_decision. Defined.

End Change.

(** An input as a block receives it.  The two block signals are the
    module-level objects [BLOCK_ADD] and [BLOCK_REMOVE], which the code
    recognises by identity ([input === BLOCK_ADD]), not by their fields. *)
Inductive Input :=
| BLOCK_REMOVE
| BLOCK_ADD
| Ordinary (c : Change.t).

Definition inputChange (i : Input) : Change.t :=
  match i with
  | BLOCK_REMOVE => Change.mk Change.CChange 0 0 0 0 0 0 (-1)
  | BLOCK_ADD => Change.mk Change.CChange 0 0 0 0 0 0 1
  | Ordinary c => c
  end.

(** ** Output nodes *)

Module Output.

(** The class of the change object an output node constructs. *)
Inductive ChangeClass :=
| CChange
| CRemoveChange
| CRemoveVsChange
| CRemoveAVsChange.

(** The change as the node constructs it: the triple slots hold what
    [resolve] returned, which for a remove may be the [IGNORE_REG]
    sentinel. *)
Record Emitted := mkEmitted {
  cls : ChangeClass;
  e : ResolvedValue; a : ResolvedValue; v : ResolvedValue; n : ResolvedValue;
  transaction : Z; round : Z; count : Z;
}.

(** [InsertNode], [CommitInsertNode], [RemoveNode], [CommitRemoveNode]. *)
Inductive NodeClass :=
| InsertNode
| CommitInsertNode
| RemoveNode
| CommitRemoveNode.

Record Node := mkNode {
  cl : NodeClass;
  fe : ScanField; fa : ScanField; fv : ScanField; fn : ScanField;
}.

(** The [multiplier] property of each class. *)
Definition multiplier (c : NodeClass) : Z :=
  match c with
  | InsertNode => 1
  | CommitInsertNode => 1
  | RemoveNode => -1
  | CommitRemoveNode => -1
  end.

(** The two buffers of the wrapper that an [output] call may push to. *)
Record Buffers := mkBuffers {
  binds : list Emitted;
  commits : list Emitted;
}.

(** [output(change, binds, commits)]: [InsertNode] and [RemoveNode] push
    to [binds], the commit classes to [commits]. *)
Definition output (c : NodeClass) (change : Emitted) (b : Buffers) : Buffers :=
  match c with
  | InsertNode | RemoveNode =>
      {| binds := binds b ++ [change]; commits := commits b |}
  | CommitInsertNode | CommitRemoveNode =>
      {| binds := binds b; commits := commits b ++ [change] |}
  end.

Definition undefinedMsg : string :=
  "Unable to produce an output with an undefined EAVN field".

Definition isUndefined (r : ResolvedValue) : bool :=
  match r with Undefined => true | _ => false end.

Definition isIgnore (f : ScanField) : bool :=
  match f with IGNORE_REG => true | _ => false end.

(** Some slot of the resolved [e], [a], [v], [n] is [undefined].  A field
    that is [IGNORE_REG] resolves to the sentinel, never to [undefined],
    so the test [v === undefined && this.v !== IGNORE_REG] of
    [RemoveNode.exec] is the test [v === undefined]. *)
Definition slotUndefined (node : Node) (prefix : Prefix) : bool :=
  isUndefined (resolveField (fe node) prefix)
  || isUndefined (resolveField (fa node) prefix)
  || isUndefined (resolveField (fv node) prefix)
  || isUndefined (resolveField (fn node) prefix).

Definition noBuffers : Buffers := {| binds := []; commits := [] |}.

(** [InsertNode.exec], inherited by [CommitInsertNode]. *)
Definition insertExec (node : Node) (prefix : Prefix) (transactionId : Z)
    (b : Buffers) : result (bool * Buffers) :=
  let e := resolveField (fe node) prefix in
  let a := resolveField (fa node) prefix in
  let v := resolveField (fv node) prefix in
  let n := resolveField (fn node) prefix in
  if isUndefined e || isUndefined a || isUndefined v || isUndefined n
  then Fail (Thrown undefinedMsg)
  else
    match prefixRound prefix, prefixCount prefix with
    | Some prefixRound, Some prefixCount =>
        let change :=
          mkEmitted CChange e a v n transactionId (prefixRound + 1)
                    (prefixCount * multiplier (cl node)) in
        Ok (true, output (cl node) change b)
    | _, _ => Fail NotANumber
    end.

(** [RemoveNode.exec], which [CommitRemoveNode] calls through [_exec]. *)
Definition removeExec (node : Node) (prefix : Prefix) (transactionId : Z)
    (b : Buffers) : result (bool * Buffers) :=
  let e := resolveField (fe node) prefix in
  let a := resolveField (fa node) prefix in
  let v := resolveField (fv node) prefix in
  let n := resolveField (fn node) prefix in
  if isUndefined e || isUndefined a
     || (isUndefined v && negb (isIgnore (fv node))) || isUndefined n
  then Ok (false, b)
  else
    match prefixRound prefix, prefixCount prefix with
    | Some prefixRound, Some prefixCount =>
        let class :=
          if negb (isIgnore (fv node)) then CRemoveChange
          else if negb (isIgnore (fa node)) then CRemoveVsChange
          else CRemoveAVsChange in
        let change :=
          mkEmitted class e a v n transactionId (prefixRound + 1)
                    (prefixCount * multiplier (cl node)) in
        Ok (true, output (cl node) change b)
    | _, _ => Fail NotANumber
    end.

(** The [exec] method each class ends up with. *)
Definition exec (node : Node) (prefix : Prefix) (transactionId : Z)
    (b : Buffers) : result (bool * Buffers) :=
  match cl node with
  | InsertNode | CommitInsertNode => insertExec node prefix transactionId b
  | RemoveNode | CommitRemoveNode => removeExec node prefix transactionId b
  end.

(** The loop of [OutputWrapperNode.exec] over its nodes; an exception of
    one node leaves the loop (and the wrapper, the block and the
    transaction, none of which catches it). *)
Fixpoint execAll (nodes : list Node) (prefix : Prefix) (transactionId : Z)
    (b : Buffers) : result Buffers :=
  match nodes with
  | [] => Ok b
  | node :: rest =>
      rbind (exec node prefix transactionId b)
            (λ r, execAll rest prefix transactionId r.2)
  end.

(** [OutputWrapperNode.exec]: both buffers are cleared, every node runs,
    and only then are the binds handed to [transaction.output] and the
    commits to [transaction.commit]; the result lists what is handed
    over. *)
Definition wrapperExec (nodes : list Node) (prefix : Prefix)
    (transactionId : Z) : result Buffers :=
  execAll nodes prefix transactionId noBuffers.

End Output.

(** ** Multiplicity composition of the join node *)

(** [export type RoundArray = number[]]: the signed rounds of a scan's
    diffs; an entry [r] stands for round [|r| - 1], added when [r > 0] and
    retracted otherwise. *)
Abbreviation RoundArray := (list Z) (only parsing).

Module Multiplicity.

(** [round > 0 ? 1 : -1]. *)
Definition sign (round : Z) : Z := if decide (0 < round) then 1 else -1.

(** Arithmetic on what a numeric slot holds; on [undefined] JavaScript
    yields [NaN], which is [None] here as well. *)
Definition omax (x y : option Z) : option Z :=
  match x, y with
  | Some a, Some b => Some (Z.max a b)
  | _, _ => None
  end.
Definition omul (x y : option Z) : option Z :=
  match x, y with
  | Some a, Some b => Some (a * b)
  | _, _ => None
  end.

(** The first loop of the general case: it walks [rounds] until an entry
    lies after [currentRound], summing the signs; it returns the index
    [ix] it stopped at and [currentRoundCount]. *)
Fixpoint countUpTo (currentRound : Z) (rounds : RoundArray) (ix : nat)
    (currentRoundCount : Z) : nat * Z :=
  match rounds with
  | [] => (ix, currentRoundCount)
  | round :: rest =>
      if decide (Z.abs round - 1 > currentRound)
      then (ix, currentRoundCount)
      else countUpTo currentRound rest (S ix) (currentRoundCount + sign round)
  end.

(** [computeMultiplicities] for [diffIndex >= 0]; [diffs] is what is left
    of the array from [diffIndex] on.  The state is the prefix, whose two
    reserved slots the function overwrites and restores, and the result
    iterator, to which copies of the prefix are pushed. *)
Fixpoint computeMultiplicitiesFrom (currentRound : Z)
    (diffs : list RoundArray) (prefix : Prefix) (results : list Prefix)
    : Prefix * list Prefix :=
  match diffs with
  | [] => (prefix, results ++ [prefix])
  | rounds :: rest =>
      let startingRound := prefixRound prefix in
      let startingMultiplicity := prefixCount prefix in
      let '(ix, currentRoundCount) := countUpTo currentRound rounds 0 0 in
      let st1 :=
        if decide (currentRoundCount = 0) then (prefix, results)
        else
          computeMultiplicitiesFrom currentRound rest
            (setCount
               (setRound prefix (omax (Some currentRound) startingRound))
               (omul startingMultiplicity (Some currentRoundCount)))
            results in
      let st2 :=
        fold_left
          (λ (st : Prefix * list Prefix) round,
             computeMultiplicitiesFrom currentRound rest
               (setCount
                  (setRound st.1
                     (omax (Some (Z.abs round - 1)) startingRound))
                  (omul startingMultiplicity (Some (sign round))))
               st.2)
          (drop ix rounds) st1 in
      (setCount (setRound st2.1 startingRound) startingMultiplicity, st2.2)
  end.

(** [computeMultiplicities(context, results, prefix, currentRound, diffs)]
    as it is called, with [diffIndex = -1]; [inputCount] is the field
    [this.inputCount] of the join node. *)
Definition computeMultiplicities (inputCount : Z) (results : list Prefix)
    (prefix : Prefix) (currentRound : Z) (diffs : list RoundArray)
    : Prefix * list Prefix :=
  let st :=
    computeMultiplicitiesFrom currentRound diffs
      (setCount (setRound prefix (Some currentRound)) (Some inputCount))
      results in
  (setCount (setRound st.1 None) None, st.2).

(** *** What the claim calls the contributing diff entries *)

(** The entries of a diff array up to the current round, and the ones
    after it. *)
Fixpoint upTo (currentRound : Z) (rounds : RoundArray) : RoundArray :=
  match rounds with
  | [] => []
  | round :: rest =>
      if decide (Z.abs round - 1 > currentRound) then []
      else round :: upTo currentRound rest
  end.
Fixpoint later (currentRound : Z) (rounds : RoundArray) : RoundArray :=
  match rounds with
  | [] => []
  | round :: rest =>
      if decide (Z.abs round - 1 > currentRound) then round :: rest
      else later currentRound rest
  end.

Definition signSum (entries : RoundArray) : Z :=
  foldr (λ round acc, sign round + acc) 0 entries.


Definition product (l : list Z) : Z := foldr Z.mul 1 l.

(** The (round, count) pairs in the order the recursion derives them. *)
Fixpoint derived (currentRound : Z) (diffs : list RoundArray)
    (round count : Z) : list (Z * Z) :=
  match diffs with
  | [] => [(round, count)]
  | rounds :: rest =>
      (if decide (signSum (upTo currentRound rounds) = 0) then []
       else derived currentRound rest (Z.max currentRound round)
                    (count * signSum (upTo currentRound rounds)))
      ++ flat_map
           (λ d, derived currentRound rest (Z.max (Z.abs d - 1) round)
                         (count * sign d))
           (later currentRound rounds)
  end.

(** *** Prefixes with their reserved slots set *)

(** The prefix [p] with its two reserved slots set. *)
Definition withSlots (p : Prefix) (x y : option Z) : Prefix :=
  setCount (setRound p x) y.

(** One copy of the prefix per pair of a round and a count. *)
Definition pairs (p : Prefix) (l : list (Z * Z)) : list Prefix :=
  map (λ rc, withSlots p (Some rc.1) (Some rc.2)) l.

End Multiplicity.

(** ** Constraints and the join node *)

Module Join.

(** [enum ApplyInputState]. *)
Inductive ApplyInputState :=
| pass
| fail
| none.

#[global] Instance ApplyInputState_eq_dec : EqDecision ApplyInputState.
Proof. solve_decision. Defined.

(** The [cardinality] of a proposal: a count, or the [Infinity] of the
    join node's [emptyProposal]. *)
Inductive Cardinality :=
| Card (k : Z)
| Infinity.

(** [a < b] on cardinalities. *)
Definition card_lt (a b : Cardinality) : bool :=
  match a, b with
  | Card x, Card y => bool_decide (x < y)
  | Card _, Infinity => true
  | Infinity, _ => false
  end.

(** [a === 0]. *)
Definition card_zero (a : Cardinality) : bool :=
  match a with
  | Card k => bool_decide (k = 0)
  | Infinity => false
  end.

(** [interface Proposal], as far as the join node reads it:
    [forRegisters] is the backing array [forRegisters.array]. *)
Record Proposal := mkProposal {
  cardinality : Cardinality;
  forRegisters : list Register;
  skip : bool;
}.

(** What [resolveProposal] returns: a flat array of values, or an array
    of rows with one value per proposed register.  A slot that is
    [undefined] is [None]. *)
Inductive Resolved :=
| Flat (values : list (option Z))
| Rows (rows : list (list (option Z))).

(** The four field names of a scan. *)
Inductive EAVNField := Fe | Fa | Fv | Fn.

(** The operations of the triple index ([interface Index] of
    [./indexes]) that a scan calls.  [resolveProposal] receives the
    proposal that [propose] filled in for the same bindings, so the model
    gives it those bindings. *)
Record Index := mkIndex {
  check : ResolvedValue → ResolvedValue → ResolvedValue → ResolvedValue →
          Z → Z → bool;
  propose : ResolvedValue → ResolvedValue → ResolvedValue → ResolvedValue →
            Z → Z → Cardinality * list EAVNField * bool;
  resolveProposal :
    ResolvedValue → ResolvedValue → ResolvedValue → ResolvedValue →
    Z → Z → Resolved;
  getDiffs : ResolvedValue → ResolvedValue → ResolvedValue → ResolvedValue →
             RoundArray;
}.

(** The source of a move: [from:Register|ID]. *)
Inductive MoveSource :=
| FromReg (r : Register)
| FromStatic (id : ID).

(** [class MoveConstraint]; [shouldApplyInput] is the field that the
    constructor of the join node may set. *)
Record MoveConstraint := mkMove {
  from : MoveSource;
  to : Register;
  shouldApplyInput : bool;
}.

(** [class Scan]. *)
Record Scan := mkScan {
  e : ScanField; a : ScanField; v : ScanField; n : ScanField;
}.

(** [class FunctionConstraint]: the registered function decides what it
    proposes, computes and accepts, so the model takes these as given.
    A function constraint is never affected by an input. *)
Record FunctionConstraint := mkFunction {
  f_registers : list Register;
  f_propose : Prefix → Z → Z → Proposal;
  f_resolveProposal : Prefix → Z → Z → Resolved;
  f_accept : Prefix → Z → Z → list (option Register) → result bool;
}.

(** The classes that implement [interface Constraint]. *)
Inductive Constraint :=
| CMove (m : MoveConstraint)
| CScan (s : Scan)
| CFunction (f : FunctionConstraint).

Definition isMove (c : Constraint) : bool :=
  match c with CMove _ => true | _ => false end.
Definition isScan (c : Constraint) : bool :=
  match c with CScan _ => true | _ => false end.

(** *** MoveConstraint *)

(** [setup] sets [isStatic = false] when the source is a register. *)
Definition move_isStatic (m : MoveConstraint) : bool :=
  match from m with FromReg _ => false | FromStatic _ => true end.

(** [resolve(prefix)]: the pair [[from, to]]. *)
Definition move_resolve (m : MoveConstraint) (prefix : Prefix)
    : option Z * option Z :=
  (match from m with
   | FromReg r => pget prefix (offset r)
   | FromStatic id => Some id
   end,
   pget prefix (offset (to m))).

Definition move_isAffected (m : MoveConstraint) : ApplyInputState :=
  if shouldApplyInput m then pass else none.

Definition move_applyInput (m : MoveConstraint) (prefix : Prefix)
    : ApplyInputState * Prefix :=
  if shouldApplyInput m then
    let '(value, current) := move_resolve m prefix in
    match value with
    | Some x =>
        if bool_decide (current = None ∨ current = Some x)
        then (pass, pset prefix (offset (to m)) (Some x))
        else (fail, prefix)
    | None => (fail, prefix)
    end
  else (none, prefix).

Definition move_propose (m : MoveConstraint) (prefix : Prefix) : Proposal :=
  let '(from, to_) := move_resolve m prefix in
  {| cardinality := Card 1;
     forRegisters := [to m];
     skip := negb (bool_decide (is_Some from ∧ to_ = None)) |}.

Definition move_resolveProposal (m : MoveConstraint) (prefix : Prefix)
    : Resolved :=
  Flat [(move_resolve m prefix).1].

Definition move_accept (m : MoveConstraint) (prefix : Prefix) : bool :=
  match move_resolve m prefix with
  | (Some x, Some y) => bool_decide (x = y)
  | _ => true
  end.

(** *** Scan *)

Definition scan_field (s : Scan) (f : EAVNField) : ScanField :=
  match f with Fe => e s | Fa => a s | Fv => v s | Fn => n s end.

(** [setupRegister] on e, a, v, n: the register fields, in this order. *)
Definition scan_registers (s : Scan) : list Register :=
  flat_map (λ f, match f with Reg r => [r] | _ => [] end)
           [e s; a s; v s; n s].

(** [this.registerLookup[register.offset]]. *)
Definition scan_lookup (s : Scan) (o : nat) : bool :=
  bool_decide (o ∈ map offset (scan_registers s)).

Definition change_field (c : Change.t) (f : EAVNField) : ID :=
  match f with
  | Fe => Change.e c | Fa => Change.a c | Fv => Change.v c | Fn => Change.n c
  end.

(** One line of the function that [setupIsAffected] generates: a static
    field that differs from the change's. *)
Definition notStaticMatch (s : Scan) (input : Change.t) (f : EAVNField)
    : bool :=
  match scan_field s f with
  | Static id => negb (bool_decide (id = change_field input f))
  | _ => false
  end.

(** [isAffected].  The generated function returns nothing when no line
    fires, and the join node only tests the result against [none]. *)
Definition scan_isAffected (s : Scan) (input : Change.t) : ApplyInputState :=
  if notStaticMatch s input Fe || notStaticMatch s input Fa
     || notStaticMatch s input Fv || notStaticMatch s input Fn
  then none else pass.

(** One field of [applyInput]: [None] is the early [return fail]. *)
Definition scan_applyField (s : Scan) (input : Change.t) (f : EAVNField)
    (prefix : Prefix) : option Prefix :=
  match scan_field s f with
  | Reg r =>
      match pget prefix (offset r) with
      | Some x =>
          if bool_decide (x = change_field input f)
          then Some (pset prefix (offset r) (Some (change_field input f)))
          else None
      | None => Some (pset prefix (offset r) (Some (change_field input f)))
      end
  | _ => Some prefix
  end.

(** [applyInput]: the fields are written one after the other, and what
    was written before a failing field stays written. *)
Fixpoint scan_applyFields (s : Scan) (input : Change.t)
    (fields : list EAVNField) (prefix : Prefix) : ApplyInputState * Prefix :=
  match fields with
  | [] => (pass, prefix)
  | f :: rest =>
      match scan_applyField s input f prefix with
      | Some prefix' => scan_applyFields s input rest prefix'
      | None => (fail, prefix)
      end
  end.

Definition scan_applyInput (s : Scan) (input : Change.t) (prefix : Prefix)
    : ApplyInputState * Prefix :=
  scan_applyFields s input [Fe; Fa; Fv; Fn] prefix.

Section WithIndex.
Variable index : Index.

Definition scan_propose (s : Scan) (prefix : Prefix)
    (transaction round : Z) : Proposal :=
  let '(card, forFields, skip_) :=
    propose index (resolveField (e s) prefix) (resolveField (a s) prefix)
            (resolveField (v s) prefix) (resolveField (n s) prefix)
            transaction round in
  {| cardinality := card;
     forRegisters :=
       flat_map (λ f, match scan_field s f with Reg r => [r] | _ => [] end)
                forFields;
     skip := skip_ || bool_decide (forFields = []) |}.

Definition scan_resolveProposal (s : Scan) (prefix : Prefix)
    (transaction round : Z) : Resolved :=
  resolveProposal index
    (resolveField (e s) prefix) (resolveField (a s) prefix)
    (resolveField (v s) prefix) (resolveField (n s) prefix)
    transaction round.

(** The loop [for(let register of solvingFor)] of [accept]: reading
    [offset] of a hole of the array is a [TypeError]. *)
Fixpoint scan_solving (s : Scan) (solvingFor : list (option Register))
    : result bool :=
  match solvingFor with
  | [] => Ok false
  | None :: _ => Fail TypeError
  | Some r :: rest =>
      if scan_lookup s (offset r) then Ok true else scan_solving s rest
  end.

Definition scan_check (s : Scan) (prefix : Prefix) (transaction round : Z)
    : bool :=
  check index (resolveField (e s) prefix) (resolveField (a s) prefix)
        (resolveField (v s) prefix) (resolveField (n s) prefix)
        transaction round.

Definition scan_accept (s : Scan) (prefix : Prefix) (transaction round : Z)
    (solvingFor : list (option Register)) : result bool :=
  rbind (scan_solving s solvingFor)
        (λ solving,
           if solving then Ok (scan_check s prefix transaction round)
           else Ok true).

Definition matchesInput (r : ResolvedValue) (x : ID) : bool :=
  match r with
  | Ignored => true
  | Bound id => bool_decide (id = x)
  | Undefined => false
  end.

Definition scan_acceptInput (s : Scan) (input : Change.t) (prefix : Prefix)
    (transaction round : Z) : result bool :=
  if matchesInput (resolveField (e s) prefix) (Change.e input)
     && matchesInput (resolveField (a s) prefix) (Change.a input)
     && matchesInput (resolveField (v s) prefix) (Change.v input)
     && matchesInput (resolveField (n s) prefix) (Change.n input)
  then Ok true
  else scan_accept s prefix transaction round (map Some (scan_registers s)).

Definition scan_getDiffs (s : Scan) (prefix : Prefix) : RoundArray :=
  getDiffs index (resolveField (e s) prefix) (resolveField (a s) prefix)
           (resolveField (v s) prefix) (resolveField (n s) prefix).

(** *** The methods of [interface Constraint] *)

Definition getRegisters (c : Constraint) : list Register :=
  match c with
  | CMove m => [to m]
  | CScan s => scan_registers s
  | CFunction f => f_registers f
  end.

Definition isAffected (c : Constraint) (input : Change.t)
    : ApplyInputState :=
  match c with
  | CMove m => move_isAffected m
  | CScan s => scan_isAffected s input
  | CFunction _ => none
  end.

Definition applyInput (c : Constraint) (input : Change.t) (prefix : Prefix)
    : ApplyInputState * Prefix :=
  match c with
  | CMove m => move_applyInput m prefix
  | CScan s => scan_applyInput s input prefix
  | CFunction _ => (none, prefix)
  end.

Definition cpropose (c : Constraint) (prefix : Prefix)
    (transaction round : Z) : Proposal :=
  match c with
  | CMove m => move_propose m prefix
  | CScan s => scan_propose s prefix transaction round
  | CFunction f => f_propose f prefix transaction round
  end.

Definition cresolveProposal (c : Constraint) (prefix : Prefix)
    (transaction round : Z) : Resolved :=
  match c with
  | CMove m => move_resolveProposal m prefix
  | CScan s => scan_resolveProposal s prefix transaction round
  | CFunction f => f_resolveProposal f prefix transaction round
  end.

Definition accept (c : Constraint) (prefix : Prefix)
    (transaction round : Z) (solvingFor : list (option Register))
    : result bool :=
  match c with
  | CMove m => Ok (move_accept m prefix)
  | CScan s => scan_accept s prefix transaction round solvingFor
  | CFunction f => f_accept f prefix transaction round solvingFor
  end.

Definition acceptInput (c : Constraint) (input : Change.t)
    (prefix : Prefix) (transaction round : Z) : result bool :=
  match c with
  | CMove m => Ok (move_accept m prefix)
  | CScan s => scan_acceptInput s input prefix transaction round
  | CFunction f =>
      f_accept f prefix transaction round (map Some (f_registers f))
  end.

End WithIndex.

End Join.

Module JoinNode.
Import Join Multiplicity.

(** The fields of [class JoinNode] that the constructor fixes.
    [registerLookup] is a sparse array of booleans (a hole is [false]);
    [noScans] records that the constructor replaced [exec] by
    [downStreamExec]. *)
Record t := mk {
  constraints : list Constraint;
  isStatic : bool;
  registerLength : nat;
  registerLookup : list bool;
  noScans : bool;
}.

(** What changes while the node runs: the prefix it is handed (a shared
    array that it writes to), the result iterator, the per-round register
    arrays, and the [dormant] flag.  [this.inputCount] is assigned at the
    start of [exec] and of [downStreamExec] before anything reads it, so
    it is passed along instead, and so are the [isInput] flags of the
    constraints, which are [false] outside of [exec]. *)
Record St := mkSt {
  cur_prefix : Prefix;
  cur_results : list Prefix;
  registerArrays : list (list (option Register));
  dormant : bool;
}.

Definition withPrefix (st : St) (p : Prefix) : St :=
  mkSt p (cur_results st) (registerArrays st) (dormant st).
Definition withDormant (st : St) (d : bool) : St :=
  mkSt (cur_prefix st) (cur_results st) (registerArrays st) d.

(** How a block hands the node its next prefix: [node.results.clear()],
    then [node.exec] on the prefix. *)
Definition enter (st : St) (prefix : Prefix) : St :=
  mkSt prefix [] (registerArrays st) (dormant st).

(** [registerLookup[offset] = true]. *)
Definition markRegister (lookup : list bool) (o : nat) : list bool :=
  if decide (o < length lookup)%nat then <[o := true]> lookup
  else lookup ++ replicate (o - length lookup) false ++ [true].

(** The inner loop of the constructor over [constraint.getRegisters()]. *)
Fixpoint countRegisters (registers : list Register)
    (acc : list bool * nat) : list bool * nat :=
  match registers with
  | [] => acc
  | r :: rest =>
      if default false (acc.1 !! offset r) then countRegisters rest acc
      else countRegisters rest (markRegister acc.1 (offset r), S acc.2)
  end.

Definition setShouldApplyInput (c : Constraint) : Constraint :=
  match c with
  | CMove m => CMove (mkMove (from m) (to m) true)
  | _ => c
  end.

(** [new JoinNode(constraints)]. *)
Definition construct (cs : list Constraint) : t * St :=
  let hasOnlyMoves := forallb isMove cs in
  let onlyStatic :=
    forallb (λ c, match c with
                  | CMove m => move_isStatic m
                  | _ => true
                  end) cs in
  let hasNoScans := forallb (λ c, negb (isScan c)) cs in
  let '(lookup, len) :=
    fold_left (λ acc c, countRegisters (getRegisters c) acc)
              cs ([], 0%nat) in
  ({| constraints := if hasOnlyMoves then map setShouldApplyInput cs else cs;
      isStatic := hasOnlyMoves && onlyStatic;
      registerLength := len;
      registerLookup := lookup;
      noScans := hasNoScans |},
   {| cur_prefix := []; cur_results := [];
      registerArrays := replicate len []; dormant := false |}).

(** [moveArray(arr, arr2)]: the loop copies [arr[0]] to [arr2[0]] once per
    element of [arr] (its index is never advanced), then the length of
    [arr2] is set to the length of [arr], which cuts it or pads it with
    holes. *)
Definition moveArray (arr : list Register) (arr2 : list (option Register))
    : list (option Register) :=
  let arr2' :=
    match arr with
    | [] => arr2
    | x :: _ => match arr2 with
                | [] => [Some x]
                | _ :: rest => Some x :: rest
                end
    end in
  take (length arr) arr2' ++ replicate (length arr - length arr2') None.

(** The [emptyProposal] of the node. *)
Definition emptyProposal : Proposal :=
  {| cardinality := Infinity; forRegisters := []; skip := true |}.

Fixpoint foldM {A S : Type} (f : S → A → result S) (l : list A) (s : S)
    : result S :=
  match l with
  | [] => Ok s
  | x :: rest => rbind (f s x) (foldM f rest)
  end.

(** [for(let register of forRegisters) prefix[register.offset] = +result[ix]]
    of the branch for rows. *)
Fixpoint bindRow (forRegisters : list (option Register)) (ix : nat)
    (row : list (option Z)) (prefix : Prefix) : result Prefix :=
  match forRegisters with
  | [] => Ok prefix
  | None :: _ => Fail TypeError
  | Some r :: rest =>
      match mjoin (row !! ix) with
      | Some x => bindRow rest (S ix) row (pset prefix (offset r) (Some x))
      | None => Fail NotANumber
      end
  end.

(** [prefix[register.offset] = +result] of the branch for flat values,
    with [register = forRegisters[0]]. *)
Definition bindFlat (forRegisters : list (option Register))
    (value : option Z) (prefix : Prefix) : result Prefix :=
  match forRegisters with
  | Some r :: _ =>
      match value with
      | Some x => Ok (pset prefix (offset r) (Some x))
      | None => Fail NotANumber
      end
  | _ => Fail TypeError
  end.

(** The closing loop that empties the registers that were solved for. *)
Fixpoint unbind (forRegisters : list (option Register)) (prefix : Prefix)
    : result Prefix :=
  match forRegisters with
  | [] => Ok prefix
  | None :: _ => Fail TypeError
  | Some r :: rest => unbind rest (pset prefix (offset r) None)
  end.

(** The loop of [applyCombination] that counts the registers of the node
    that the prefix already binds. *)
Fixpoint countSolved (lookup : list bool) (ix : nat) (prefix : Prefix) : nat :=
  match lookup with
  | [] => 0
  | b :: rest =>
      ((if b && bool_decide (is_Some (pget prefix ix)) then 1 else 0)
       + countSolved rest (S ix) prefix)%nat
  end.

(** [x | 0]: the 32-bit signed integer that the bit operators see. *)
Definition toInt32 (x : Z) : Z := (x + 2 ^ 31) `mod` 2 ^ 32 - 2 ^ 31.

(** [(comboIx & (1 << constraintIx)) !== 0]. *)
Definition isIncluded (comboIx : Z) (constraintIx : nat) : bool :=
  negb (bool_decide
          (Z.land (toInt32 comboIx)
                  (toInt32 (Z.shiftl 1 (Z.of_nat constraintIx `mod` 32))) = 0)).

Section Run.
Variable index : Index.
Variable node : t.
Variable transaction : Z.

(** [constraint.isInput] of the constraint at position [i]. *)
Definition isInputAt (flags : list bool) (i : nat) : bool :=
  default false (flags !! i).

(** [prefixToResults]: the diffs of every scan that did not apply the
    input, then [computeMultiplicities]. *)
Definition scanDiffs (flags : list bool) (prefix : Prefix)
    : list RoundArray :=
  mjoin (imap (λ i c,
                 match c with
                 | CScan s =>
                     if isInputAt flags i then []
                     else [scan_getDiffs index s prefix]
                 | _ => []
                 end) (constraints node)).

Definition prefixToResults (flags : list bool) (inputCount round : Z)
    (st : St) : St :=
  let r :=
    computeMultiplicities inputCount (cur_results st) (cur_prefix st)
                          round (scanDiffs flags (cur_prefix st)) in
  mkSt r.1 r.2 (registerArrays st) (dormant st).

(** The loop of [genericJoin] over the constraints that picks
    [bestProposal]; [None] is the early [return results] on a proposal
    that is not skipped and has cardinality 0.  The proposer is
    remembered by its position. *)
Fixpoint selectProposal (cs : list Constraint) (ix : nat)
    (best : option nat * Proposal) (prefix : Prefix) (round : Z)
    : option (option nat * Proposal) :=
  match cs with
  | [] => Some best
  | c :: rest =>
      let current := cpropose index c prefix transaction round in
      if negb (skip current) && card_zero (cardinality current) then None
      else if card_lt (cardinality current) (cardinality best.2)
              && negb (skip current)
      then selectProposal rest (S ix) (Some ix, current) prefix round
      else selectProposal rest (S ix) best prefix round
  end.

(** The loop that asks every constraint but the proposer to accept the
    prefix; it stops at the first one that rejects. *)
Fixpoint acceptAll (cs : list Constraint) (ix proposer : nat)
    (prefix : Prefix) (round : Z) (forRegisters : list (option Register))
    : result bool :=
  match cs with
  | [] => Ok true
  | c :: rest =>
      if decide (ix = proposer)
      then acceptAll rest (S ix) proposer prefix round forRegisters
      else
        rbind (accept index c prefix transaction round forRegisters)
              (λ ok, if ok
                     then acceptAll rest (S ix) proposer prefix round
                                    forRegisters
                     else Ok false)
  end.

(** The body of [resultLoop] for one candidate, once its values are
    written to the prefix ([bound]): every constraint but the proposer
    is asked to accept; on a rejection the loop continues with the next
    candidate, otherwise [next] runs, which is [prefixToResults] when
    [roundIx === 1] and the recursive [genericJoin] otherwise. *)
Definition candidate (next : St → result St) (proposer : nat) (round : Z)
    (forRegisters : list (option Register)) (bound : result Prefix)
    (s : St) : result St :=
  rbind bound
    (λ p,
       rbind (acceptAll (constraints node) 0 proposer p round forRegisters)
             (λ ok, if ok then next (withPrefix s p)
                    else Ok (withPrefix s p))).

(** The two [resultLoop]s, over rows and over flat values. *)
Definition candidates (next : St → result St) (proposer : nat) (round : Z)
    (forRegisters : list (option Register)) (resolved : Resolved)
    (st : St) : result St :=
  match resolved with
  | Rows rows =>
      foldM (λ s row,
               candidate next proposer round forRegisters
                         (bindRow forRegisters 0 row (cur_prefix s)) s)
            rows st
  | Flat values =>
      foldM (λ s value,
               candidate next proposer round forRegisters
                         (bindFlat forRegisters value (cur_prefix s)) s)
            values st
  end.

(** The proposal that [genericJoin] goes on to resolve, with the
    position of its proposer: the best proposal, unless the loop
    returned early or the best proposal is marked [skip]. *)
Definition chosenProposal (prefix : Prefix) (round : Z)
    : option (nat * Proposal) :=
  match selectProposal (constraints node) 0 (None, emptyProposal)
                       prefix round with
  | Some (Some proposer, bestProposal) =>
      if skip bestProposal then None else Some (proposer, bestProposal)
  | _ => None
  end.

(** One call of [genericJoin] with [roundIx = roundIx' + 1], given what
    it does after an accepted candidate. *)
Definition joinRound (next : St → result St) (round : Z) (roundIx' : nat)
    (st : St) : result St :=
  match registerArrays st !! roundIx' with
  | None => Fail TypeError
  | Some oldRegisters =>
      match chosenProposal (cur_prefix st) round with
      | None => Ok st
      | Some (proposer, bestProposal) =>
          match constraints node !! proposer with
          | None => Ok st
          | Some c =>
              let forRegisters :=
                moveArray (Join.forRegisters bestProposal) oldRegisters in
              let st0 :=
                mkSt (cur_prefix st) (cur_results st)
                     (<[roundIx' := forRegisters]> (registerArrays st))
                     (dormant st) in
              rbind
                (candidates next proposer round forRegisters
                   (cresolveProposal index c (cur_prefix st)
                                     transaction round)
                   st0)
                (λ s, rbind (unbind forRegisters (cur_prefix s))
                            (λ p, Ok (withPrefix s p)))
          end
      end
  end.

(** [genericJoin]; [roundIx] counts the registers left to solve. *)
Fixpoint genericJoin (flags : list bool) (inputCount round : Z)
    (roundIx : nat) (st : St) : result St :=
  match roundIx with
  | O => Fail TypeError
  | S roundIx' =>
      joinRound
        (match roundIx' with
         | O => λ s, Ok (prefixToResults flags inputCount round s)
         | S _ => genericJoin flags inputCount round roundIx'
         end)
        round roundIx' st
  end.

(** [presolveCheck]. *)
Fixpoint presolveCheck (cs : list Constraint) (input : Change.t)
    (prefix : Prefix) (round : Z) : result bool :=
  match cs with
  | [] => Ok true
  | c :: rest =>
      rbind (acceptInput index c input prefix transaction round)
            (λ valid, if valid then presolveCheck rest input prefix round
                      else Ok false)
  end.

(** [applyCombination]. *)
Definition applyCombination (flags : list bool) (inputCount : Z)
    (input : Input) (round : Z) (st : St) : result (bool * St) :=
  let countOfSolved := countSolved (registerLookup node) 0 (cur_prefix st) in
  let remainingToSolve := (registerLength node - countOfSolved)%nat in
  rbind (presolveCheck (constraints node) (inputChange input)
                       (cur_prefix st) round)
    (λ valid,
       if negb valid then Ok (false, st)
       else if decide (remainingToSolve = 0%nat)
       then Ok (true, prefixToResults flags inputCount round st)
       else rbind (genericJoin flags inputCount round remainingToSolve st)
                  (λ st', Ok (true, st'))).

(** [findAffectedConstraints]: the constraints whose [isAffected] is
    not [none], with their positions. *)
Definition findAffectedConstraints (input : Change.t)
    : list (nat * Constraint) :=
  filter (λ ic, isAffected ic.2 input ≠ none)
         (imap (λ i c, (i, c)) (constraints node)).

(** [unapplyConstraint]. *)
Definition unapplyConstraint (c : Constraint) (prefix : Prefix) : Prefix :=
  fold_left (λ p r, pset p (offset r) None) (getRegisters c) prefix.

(** The inner loop of a combination: every affected constraint that the
    combination includes applies the input; the loop breaks with
    [shouldApply = false] at the first one that fails. *)
Fixpoint applyIncluded (affected : list (nat * Constraint))
    (constraintIx : nat) (comboIx : Z) (input : Change.t)
    (prefix : Prefix) : bool * Prefix :=
  match affected with
  | [] => (true, prefix)
  | (_, c) :: rest =>
      if isIncluded comboIx constraintIx then
        let '(valid, prefix') := applyInput c input prefix in
        if decide (valid = fail) then (false, prefix')
        else applyIncluded rest (S constraintIx) comboIx input prefix'
      else applyIncluded rest (S constraintIx) comboIx input prefix
  end.

(** The [isInput] flags that a combination that went through its inner
    loop has set. *)
Definition comboFlags (affected : list (nat * Constraint)) (comboIx : Z)
    : list bool :=
  imap (λ i _,
          match list_find (λ ic : nat * Constraint, ic.1 = i) affected with
          | Some (k, _) => isIncluded comboIx k
          | None => false
          end) (constraints node).

(** One turn of the loop over [comboIx]. *)
Definition combination (affected : list (nat * Constraint))
    (input : Change.t) (round : Z) (acc : bool * St) (comboIx : Z)
    : result (bool * St) :=
  let '(didSomething, st) := acc in
  let '(shouldApply, prefix') :=
    applyIncluded affected 0 comboIx input (cur_prefix st) in
  let st1 := withPrefix st prefix' in
  rbind
    (if shouldApply
     then rbind (applyCombination (comboFlags affected comboIx)
                                  (Change.count input) (Ordinary input)
                                  round st1)
                (λ r, Ok (r.1 || didSomething, r.2))
     else Ok (didSomething, st1))
    (λ r, Ok (r.1,
              withPrefix r.2
                (fold_left (λ p ic, unapplyConstraint ic.2 p) affected
                           (cur_prefix r.2)))).

Definition noFlags : list bool := [].

Definition becomeDormant (r : bool * St) : bool * St :=
  if isStatic node && r.1 then (r.1, withDormant r.2 true) else r.

(** [JoinNode.prototype.exec]. *)
Definition exec (input : Input) (round : Z) (st : St) : result (bool * St) :=
  match input with
  | BLOCK_REMOVE =>
      rbind (applyCombination noFlags (-1) input round st)
            (λ r, Ok (becomeDormant r))
  | BLOCK_ADD =>
      if isStatic node && dormant st then Ok (false, st)
      else rbind (applyCombination noFlags 1 input round st)
                 (λ r, Ok (becomeDormant r))
  | Ordinary c =>
      if isStatic node && dormant st then Ok (false, st)
      else
        let affected := findAffectedConstraints c in
        let combinationCount := 2 ^ Z.of_nat (length affected) in
        rbind
          (foldM (combination affected c round)
                 (map (λ k, combinationCount - 1 - Z.of_nat k)
                      (seq 0 (Z.to_nat (combinationCount - 1))))
                 (false, st))
          (λ r, Ok (becomeDormant r))
  end.

(** [downStreamExec]. *)
Definition downStreamExec (input : Input) (st : St) : result (bool * St) :=
  if isStatic node && dormant st then Ok (false, st)
  else
    let inputCount :=
      match prefixCount (cur_prefix st) with
      | Some c => c
      | None => Change.count (inputChange input)
      end in
    let inputRound :=
      match prefixRound (cur_prefix st) with
      | Some r => r
      | None => Change.round (inputChange input)
      end in
    rbind (applyCombination noFlags inputCount input inputRound st)
          (λ r, Ok (becomeDormant r)).

(** The [exec] property of a node made by [new JoinNode]: the
    constructor replaces it by [downStreamExec] when the node has no
    scan. *)
Definition run (input : Input) (round : Z) (st : St) : result (bool * St) :=
  if noScans node then downStreamExec input st else exec input round st.

(** *** Invariants of a run *)

(** The part of the state that a run of the node only ever extends: the
    result iterator grows at its end and the [dormant] flag is kept. *)
Definition extends (st st' : St) : Prop :=
  dormant st' = dormant st ∧
  length (registerArrays st') = length (registerArrays st) ∧
  ∃ extra, cur_results st' = cur_results st ++ extra.






End Run.

(** A move-constraint with a static (non-register) source. *)
Definition isStaticMove (c : Constraint) : bool :=
  match c with
  | CMove m => move_isStatic m
  | _ => false
  end.

End JoinNode.

(** ** Binary flows: join, antijoin and choose *)

Module Flow.

(** *** Keys and arrays of counts *)

(** [IntermediateIndex.CreateKeyFunction(registers)]: the function that
    the code compiles from the text
    [return "" + prefix[o1] + "|" + prefix[o2] ...]; a slot that is
    [undefined] prints as that word. *)
Definition showSlot (x : option Z) : string :=
  match x with
  | Some id => pretty id
  | None => "undefined"
  end.

Fixpoint joinWith (sep : string) (items : list string) : string :=
  match items with
  | [] => ""
  | [x] => x
  | x :: rest => x +:+ sep +:+ joinWith sep rest
  end.

Definition CreateKeyFunction (registers : list Register) (prefix : Prefix)
    : string :=
  joinWith "|" (map (λ reg, showSlot (pget prefix (offset reg))) registers).

(** The round and the count of a prefix, as the indexes read them.  The
    round becomes an index of an array. *)
Definition roundAndCount (prefix : Prefix) : result (nat * Z) :=
  if decide (length prefix < 2)%nat then Fail NotANumber
  else
    match prefixRound prefix, prefixCount prefix with
    | Some round, Some count =>
        if decide (round < 0) then Fail NegativeIndex
        else Ok (Z.to_nat round, count)
    | _, _ => Fail NotANumber
    end.

(** An array of counts by round.  The code only asks for the length of
    the array and whether a slot is truthy, so a hole and a slot out of
    range read as 0. *)
Definition cell (counts : list Z) (round : nat) : Z :=
  default 0 (counts !! round).

(** [counts[round] = count + (counts[round] || 0)]. *)
Definition bump (counts : list Z) (round : nat) (count : Z) : list Z :=
  if decide (round < length counts)%nat
  then <[round := count + cell counts round]> counts
  else counts ++ replicate (round - length counts) 0 ++ [count].

(** The loop that sets [shouldRemove]. *)
Definition allZero (counts : list Z) : bool :=
  forallb (λ c, bool_decide (c = 0)) counts.

(** The sum of the first [n] slots of an array of counts, given as the
    function that reads it: the running count before round [n]. *)
Fixpoint sumBelow (counts : nat → Z) (n : nat) : Z :=
  match n with
  | O => 0
  | S n' => sumBelow counts n' + counts n'
  end.

(** *** ZeroingIterator *)

Module ZeroingIterator.

Record t := mk {
  counts : list Z;
  roundIx : Z;
  countSum : Z;
  minRound : nat;
  count : Z;
}.

Definition reset (counts : list Z) (minRound : nat) : t :=
  mk counts (-1) 0 minRound 1.

(** The loop of [next] for [roundIx <= minRound]; [steps] is the number
    of rounds left below [countsLength].  It returns [final], and
    [roundIx] and [countSum] as the loop leaves them. *)
Fixpoint firstZero (steps : nat) (counts : list Z) (minRound : nat)
    (roundIx : nat) (countSum : Z) : option nat * nat * Z :=
  match steps with
  | O => (None, roundIx, countSum)
  | S steps' =>
      let countSum' := countSum + cell counts roundIx in
      if decide ((minRound ≤ roundIx)%nat ∧ countSum' = 0)
      then (Some roundIx, roundIx, countSum')
      else firstZero steps' counts minRound (S roundIx) countSum'
  end.

(** The loop of [next] for the later rounds; [before] is
    [this.countSum], which the loop does not update. *)
Fixpoint nextChange (steps : nat) (counts : list Z) (before : Z)
    (roundIx : nat) (countSum : Z) : option nat * nat * Z :=
  match steps with
  | O => (None, roundIx, countSum)
  | S steps' =>
      let cur := cell counts roundIx in
      if decide (cur = 0)
      then nextChange steps' counts before (S roundIx) countSum
      else
        let countSum' := countSum + cur in
        if decide ((before = 0 ∧ countSum' > 0)
                   ∨ (before > 0 ∧ countSum' = 0))
        then (Some roundIx, roundIx, countSum')
        else nextChange steps' counts before (S roundIx) countSum'
  end.

(** [next()]: the round that it returns, if any, and the iterator
    afterwards. *)
Definition next (it : t) : option nat * t :=
  let countsLength := length (counts it) in
  let roundIx := Z.to_nat (roundIx it + 1) in
  if decide (countsLength ≤ roundIx)%nat then (None, it)
  else
    let '(final, roundIx', countSum') :=
      if decide (roundIx ≤ minRound it)%nat
      then
        let countsLength' :=
          if decide (countsLength ≤ minRound it)%nat
          then S (minRound it) else countsLength in
        firstZero (countsLength' - roundIx) (counts it) (minRound it)
                  roundIx (countSum it)
      else
        nextChange (S countsLength - roundIx) (counts it) (countSum it)
                   roundIx (countSum it) in
    (final,
     mk (counts it) (Z.of_nat roundIx') countSum' (minRound it)
        (if decide (countSum' = 0) then 1 else -1)).

(** [while((currentRound = diffs.next()) !== undefined)]: the rounds
    that the iterator returns, each with [diffs.count].  A call that
    returns a round moves [roundIx] forward, and the call at the end of
    the array returns [undefined]: one turn more than the array has
    slots, or than [minRound] asks for, ends the loop. *)
Fixpoint drain (fuel : nat) (it : t) : list (nat * Z) :=
  match fuel with
  | O => []
  | S fuel' =>
      match next it with
      | (None, _) => []
      | (Some currentRound, it') =>
          (currentRound, count it') :: drain fuel' it'
      end
  end.

Definition rounds (it : t) : list (nat * Z) :=
  drain (length (counts it) + minRound it + 2) it.

End ZeroingIterator.

(** *** KeyOnlyIntermediateIndex *)

Module KeyOnlyIntermediateIndex.

(** [index:{[key:string]: Multiplicity[]}]. *)
Abbreviation t := (gmap string (list Z)) (only parsing).

Definition insert (key : string) (prefix : Prefix) (index : t)
    : result t :=
  rbind (roundAndCount prefix)
    (λ '(round, count),
       let counts := bump (default [] (index !! key)) round count in
       if decide (cell counts round = 0) then
         if allZero counts then Ok (delete key index)
         else Ok (<[key := counts]> index)
       else Ok (<[key := counts]> index)).


Definition iter (key : string) (round : nat) (index : t)
    : option ZeroingIterator.t :=
  match index !! key with
  | Some values => Some (ZeroingIterator.reset values round)
  | None => None
  end.

End KeyOnlyIntermediateIndex.

(** *** IntermediateIndex *)

Module IntermediateIndex.

(** The array that the index keeps for a prefix: slot 0 holds the
    prefix, slot [round + 1] the count of the round. *)
Record Counts := mkCounts {
  prefix : Prefix;
  rounds : list Z;
}.

(** The hash from [valueKey] to the counts; [Object.keys] lists the keys
    in the order in which they were added (no [valueKey] is the text of
    an array index). *)
Abbreviation Values := (list (string * Counts)) (only parsing).

Abbreviation t := (gmap string Values) (only parsing).

(** [hashPrefix(prefix)]: [join] prints [undefined] as the empty
    string. *)
Definition hashPrefix (prefix : Prefix) : string :=
  joinWith "|"
    (map (λ x, match x with Some id => pretty id | None => "" end)
         (setCount (setRound prefix None) None)).

Fixpoint lookupValue (valueKey : string) (values : Values)
    : option Counts :=
  match values with
  | [] => None
  | (k, counts) :: rest =>
      if decide (k = valueKey) then Some counts
      else lookupValue valueKey rest
  end.

Fixpoint storeValue (valueKey : string) (counts : Counts)
    (values : Values) : Values :=
  match values with
  | [] => [(valueKey, counts)]
  | (k, old) :: rest =>
      if decide (k = valueKey) then (k, counts) :: rest
      else (k, old) :: storeValue valueKey counts rest
  end.

Definition deleteValue (valueKey : string) (values : Values) : Values :=
  filter (λ kv, kv.1 ≠ valueKey) values.

Definition insert (key : string) (prefix : Prefix) (index : t)
    : result t :=
  rbind (roundAndCount prefix)
    (λ '(round, count),
       let values := default [] (index !! key) in
       let valueKey := hashPrefix prefix in
       let counts :=
         default (mkCounts prefix []) (lookupValue valueKey values) in
       let rounds' := bump (rounds counts) round count in
       let stored :=
         storeValue valueKey (mkCounts (IntermediateIndex.prefix counts)
                                       rounds') values in
       let values' :=
         if decide (cell rounds' round = 0) then
           if allZero rounds' then deleteValue valueKey values
           else stored
         else stored in
       Ok (<[key := values']> index)).

(** [class IntermediateIndexIterator]. *)
Record Iterator := mkIterator {
  values : Values;
  valueIx : nat;
  countIx : nat;
  currentCounts : option Counts;
  round : Z;
  count : Z;
  minRound : Z;
}.

Definition reset (values : Values) (minRound : Z) : Iterator :=
  mkIterator values 0 0 (snd <$> values !! 0%nat) 0 0 (minRound + 1).

(** [currentCounts[countIx]] for [countIx >= 1], falsy read as 0. *)
Definition countAt (counts : Counts) (countIx : nat) : Z :=
  cell (rounds counts) (countIx - 1).

(** [for(; countIx <= minRound; countIx++)], which adds the counts
    up. *)
Fixpoint sumCells (steps : nat) (counts : Counts) (countIx : nat) : Z :=
  match steps with
  | O => 0
  | S steps' => countAt counts countIx + sumCells steps' counts (S countIx)
  end.

(** [for(; countIx < currentCounts.length; countIx++)], which stops at
    the first count that is not 0. *)
Fixpoint firstNonZero (steps : nat) (counts : Counts) (countIx : nat)
    : Z * nat :=
  match steps with
  | O => (0, countIx)
  | S steps' =>
      let cur := countAt counts countIx in
      if decide (cur = 0) then firstNonZero steps' counts (S countIx)
      else (cur, countIx)
  end.

(** The three ways in which the body of [next()] ends: it returns
    [undefined], it calls itself because [count == 0], or it returns a
    prefix. *)
Inductive Step :=
| Finished (it : Iterator)
| Empty (it : Iterator)
| Found (p : Prefix) (it : Iterator).

(** The second half of the body of [next()], from [let count = 0] on,
    for the value and the [countIx] that the first half has settled
    on. *)
Definition advance (it : Iterator) (valueIx' : nat) (current : Counts)
    (countIx' : nat) : Step :=
  let '(count', countIx'') :=
    if decide (Z.of_nat countIx' < minRound it)
    then (sumCells (Z.to_nat (minRound it) + 1 - countIx') current
                   countIx',
          Z.to_nat (minRound it))
    else firstNonZero (S (length (rounds current)) - countIx') current
                      countIx' in
  let it' :=
    mkIterator (values it) valueIx' countIx'' (Some current)
               (Z.of_nat countIx'' - 1) count' (minRound it) in
  if decide (count' = 0) then Empty it'
  else Found (prefix current) it'.

Definition step (it : Iterator) : Step :=
  match currentCounts it with
  | None => Finished it
  | Some current =>
      if decide (S (length (rounds current)) ≤ S (countIx it))%nat then
        match values it !! S (valueIx it) with
        | None =>
            Finished (mkIterator (values it) (S (valueIx it))
                                 (countIx it) None (round it) (count it)
                                 (minRound it))
        | Some (_, following) => advance it (S (valueIx it)) following 1
        end
      else advance it (valueIx it) current (S (countIx it))
  end.

(** [while(leftPrefix = diffs.next())]: the prefixes that the iterator
    returns, each with [diffs.round] and [diffs.count].  A turn of
    [step] moves on in the array of a value or to the next value, which
    bounds the turns. *)
Fixpoint collect (fuel : nat) (it : Iterator) : list (Prefix * Z * Z) :=
  match fuel with
  | O => []
  | S fuel' =>
      match step it with
      | Finished _ => []
      | Empty it' => collect fuel' it'
      | Found p it' => (p, round it', count it') :: collect fuel' it'
      end
  end.

Definition turns (values : Values) : nat :=
  S (foldr (λ kv acc, 3 + length (rounds kv.2) + acc)%nat 0%nat values).

(** [iter(key, round)], drained. *)
Definition iter (key : string) (round : Z) (index : t)
    : option (list (Prefix * Z * Z)) :=
  match index !! key with
  | Some values => Some (collect (turns values) (reset values round))
  | None => None
  end.

(** What the iterator returns for one value, as lists: the counts that
    are not 0 from [countIx] on, each with its round; and before them,
    when [minRound] lies beyond the first round, the sum of the counts
    up to [minRound], if it is not 0. *)
Fixpoint laterYields (steps : nat) (counts : Counts) (countIx : nat)
    : list (Prefix * Z * Z) :=
  match steps with
  | O => []
  | S steps' =>
      (if decide (countAt counts countIx = 0) then []
       else [(prefix counts, Z.of_nat countIx - 1,
              countAt counts countIx)])
      ++ laterYields steps' counts (S countIx)
  end.

Definition yieldsOf (minRound : nat) (counts : Counts)
    : list (Prefix * Z * Z) :=
  if decide (1 < minRound)%nat then
    (if decide (sumCells minRound counts 1 = 0) then []
     else [(prefix counts, Z.of_nat minRound - 1,
            sumCells minRound counts 1)])
    ++ laterYields (length (rounds counts) - minRound) counts
                   (S minRound)
  else laterYields (length (rounds counts)) counts 1.

(** What the counts that an iterator has returned add up to, up to a
    round, for the prefixes of a value key. *)
Definition netYields (yields : list (Prefix * Z * Z)) (valueKey : string)
    (round : nat) : Z :=
  foldr (λ '(p, r, count) acc,
           if decide (hashPrefix p = valueKey ∧ r ≤ Z.of_nat round)
           then count + acc else acc)
        0 yields.

(** What [insert] keeps true of the values of a key: a value key is
    listed once, it is the hash of the prefix in slot 0 of its array,
    and the array has a slot for a round. *)
Definition wellKept (values : Values) : Prop :=
  NoDup (map fst values) ∧
  Forall (λ kv, hashPrefix (prefix kv.2) = kv.1 ∧ rounds kv.2 ≠ [])
         values.

(** The rounds that the index holds for a value key, if any. *)
Definition roundsOf (valueKey : string) (values : Values) : list Z :=
  match lookupValue valueKey values with
  | Some counts => rounds counts
  | None => []
  end.

End IntermediateIndex.

(** *** Counting results *)

(** What the prefixes of [seen] that have the key add up to in a round:
    the slot of the round in the array that a [KeyOnlyIntermediateIndex]
    keeps for the key. *)
Definition tally (keyRegisters : list Register) (seen : list Prefix)
    (key : string) (round : nat) : Z :=
  foldr (λ prefix acc,
           match roundAndCount prefix with
           | Ok (r, count) =>
               if decide (CreateKeyFunction keyRegisters prefix = key
                          ∧ r = round)
               then count + acc else acc
           | Fail _ => acc
           end)
        0 seen.

(** The running count of the key up to a round, the round included. *)
Definition present (keyRegisters : list Register) (seen : list Prefix)
    (key : string) (round : nat) : Z :=
  sumBelow (tally keyRegisters seen key) (S round).

(** The count that a list of results holds in all up to a round. *)
Definition net (results : list Prefix) (round : nat) : Z :=
  foldr (λ prefix acc,
           match roundAndCount prefix with
           | Ok (r, count) =>
               if decide (r ≤ round)%nat then count + acc else acc
           | Fail _ => acc
           end)
        0 results.

(** The same for the rounds that a [ZeroingIterator] returns. *)
Definition netRounds (rounds : list (nat * Z)) (round : nat) : Z :=
  foldr (λ '(r, count) acc,
           if decide (r ≤ round)%nat then count + acc else acc)
        0 rounds.

(** The key registers are registers of the prefix, not its slots of the
    round and the count. *)
Definition keysAreRegisters (keyRegisters : list Register)
    (prefix : Prefix) : Prop :=
  Forall (λ reg, (offset reg + 2 < length prefix)%nat) keyRegisters.

(** The count that a list of results holds in all, up to a round, for
    the prefixes that have the key and that [hashPrefix] maps to the
    value key: the copies of one prefix in other rounds and with other
    counts. *)
Definition netFor (keyRegisters : list Register) (results : list Prefix)
    (key valueKey : string) (round : nat) : Z :=
  foldr (λ prefix acc,
           match roundAndCount prefix with
           | Ok (r, count) =>
               if decide (CreateKeyFunction keyRegisters prefix = key
                          ∧ IntermediateIndex.hashPrefix prefix = valueKey
                          ∧ (r ≤ round)%nat)
               then count + acc else acc
           | Fail _ => acc
           end)
        0 results.

(** The calls of [distinctKey] that a distinct index has heard: the key,
    the round and the count of each; what they add up to for a key up to
    a round; and what the pairs that a call has pushed add up to. *)
Definition heard (calls : list (string * nat * Z)) (key : string)
    (round : nat) : Z :=
  foldr (λ '(k, r, count) acc,
           if decide (k = key ∧ (r ≤ round)%nat) then count + acc else acc)
        0 calls.



(** *** DistinctIndex *)

(** Modelled from the spec: [class DistinctIndex] of [./indexes], which
    is not among the sources at hand.  The index tracks the running count
    per key and per round, and [distinctKey] pushes +1 for the round at
    which the running count of the key goes from 0 to positive and -1 for
    the round at which it goes from positive to 0.  The model keeps the
    calls that the index has heard. *)
Module DistinctIndex.

Abbreviation t := (list (string * nat * Z)) (only parsing).

(** Whether the running count of the key is positive up to a round. *)
Definition isPresent (calls : t) (key : string) (round : nat) : Z :=
  if decide (0 < heard calls key round) then 1 else 0.

(** The last round that the index has heard of. *)
Definition lastRound (calls : t) : nat :=
  foldr (λ '(_, r, _) acc, r `max` acc)%nat 0%nat calls.

(** What a call changes at a round in whether the key is present, and
    what it pushes for the round: the change that the rounds before
    have not shown yet. *)
Definition turn (before after : t) (key : string) (round : nat) : Z :=
  isPresent after key round - isPresent before key round.

Definition delta (before after : t) (key : string) (round : nat) : Z :=
  turn before after key round
  - match round with
    | O => 0
    | S earlier => turn before after key earlier
    end.

Definition distinctKey (key : string) (round count : Z) (index : t)
    : list (Z * Z) * t :=
  let after := index ++ [(key, Z.to_nat round, count)] in
  (flat_map (λ r, if decide (delta index after key r = 0) then []
                  else [(Z.of_nat r, delta index after key r)])
            (seq 0 (S (lastRound after))),
   after).

End DistinctIndex.

Section Nodes.

(** What the nodes around the flow keep between two executions: the
    state of the nodes that the flow is built on and the evaluation
    context. *)
Context {World : Type}.

(** [abstract class Node]: [exec] with the results that it pushes; the
    callers below clear the results of a node before they run it. *)
Definition Node : Type :=
  Input → Prefix → Z → Z → World → result (list Prefix * World).

(** [class DistinctIndex] of [./indexes], with its [distinctKey(key,
    round, count, neue)], which pushes pairs of a round and a count. *)
Context {Distinct : Type}.
Variable newDistinct : Distinct.
Variable distinctKey :
  string → Z → Z → Distinct → list (Z * Z) * Distinct.

(** *** BinaryJoinRight *)

Record BinaryJoinRight := mkJoin {
  j_left : Node;
  j_right : Node;
  j_keyRegisters : list Register;
  j_registersToMerge : list Register;
  j_leftIndex : IntermediateIndex.t;
  j_rightIndex : IntermediateIndex.t;
}.

Definition newJoin (left right : Node)
    (keyRegisters registersToMerge : list Register) : BinaryJoinRight :=
  mkJoin left right keyRegisters registersToMerge ∅ ∅.

(** [merge(left, right)]: [None] for [false]. *)
Fixpoint merge (registersToMerge : list Register) (left right : Prefix)
    : option Prefix :=
  match registersToMerge with
  | [] => Some left
  | register :: rest =>
      let leftValue := pget left (offset register) in
      let rightValue := pget right (offset register) in
      if decide (leftValue = None ∨ leftValue = rightValue)
      then merge rest (pset left (offset register) rightValue) right
      else None
  end.

(** The body of the loops of [onLeft] and [onRight]. *)
Definition joined (registersToMerge : list Register) (base other : Prefix)
    (prefixRound : nat) (count : Z) (diffRound diffCount : Z)
    : list Prefix :=
  match merge registersToMerge base other with
  | Some result =>
      [setCount (setRound result
                          (Some (Z.max (Z.of_nat prefixRound) diffRound)))
                (Some (count * diffCount))]
  | None => []
  end.

Definition joinOnLeft (round : Z) (acc : list Prefix * BinaryJoinRight)
    (prefix : Prefix) : result (list Prefix * BinaryJoinRight) :=
  let '(results, join) := acc in
  let key := CreateKeyFunction (j_keyRegisters join) prefix in
  rbind (roundAndCount prefix)
    (λ '(prefixRound, count),
       rbind (IntermediateIndex.insert key prefix (j_leftIndex join))
         (λ leftIndex',
            let join' :=
              mkJoin (j_left join) (j_right join) (j_keyRegisters join)
                     (j_registersToMerge join) leftIndex'
                     (j_rightIndex join) in
            match IntermediateIndex.iter key round (j_rightIndex join) with
            | None => Ok (results, join')
            | Some diffs =>
                Ok (results
                    ++ flat_map
                         (λ '(rightPrefix, diffRound, diffCount),
                            joined (j_registersToMerge join) prefix
                                   rightPrefix prefixRound count
                                   diffRound diffCount)
                         diffs,
                    join')
            end)).

Definition joinOnRight (round : Z) (acc : list Prefix * BinaryJoinRight)
    (prefix : Prefix) : result (list Prefix * BinaryJoinRight) :=
  let '(results, join) := acc in
  let key := CreateKeyFunction (j_keyRegisters join) prefix in
  rbind (roundAndCount prefix)
    (λ '(prefixRound, count),
       rbind (IntermediateIndex.insert key prefix (j_rightIndex join))
         (λ rightIndex',
            let join' :=
              mkJoin (j_left join) (j_right join) (j_keyRegisters join)
                     (j_registersToMerge join) (j_leftIndex join)
                     rightIndex' in
            match IntermediateIndex.iter key round (j_leftIndex join) with
            | None => Ok (results, join')
            | Some diffs =>
                Ok (results
                    ++ flat_map
                         (λ '(leftPrefix, diffRound, diffCount),
                            joined (j_registersToMerge join) leftPrefix
                                   prefix prefixRound count
                                   diffRound diffCount)
                         diffs,
                    join')
            end)).

(** [BinaryJoinRight.exec]; [leftResults] is what [left.results] holds
    when the join runs. *)
Definition joinExec (join : BinaryJoinRight) (input : Input)
    (prefix : Prefix) (transaction round : Z) (leftResults : list Prefix)
    (w : World) : result (list Prefix * BinaryJoinRight * World) :=
  rbind (j_right join input prefix transaction round w)
    (λ '(rightResults, w'),
       rbind (JoinNode.foldM (joinOnLeft round) leftResults ([], join))
         (λ onLefts,
            rbind (JoinNode.foldM (joinOnRight round) rightResults onLefts)
              (λ '(results, join'), Ok (results, join', w')))).

(** *** AntiJoin *)

(** The fields of [class AntiJoin] next to its two nodes. *)
Record AntiJoin := mkAnti {
  keyRegisters : list Register;
  leftIndex : IntermediateIndex.t;
  rightIndex : KeyOnlyIntermediateIndex.t;
  distinct : Distinct;
}.

Definition newAnti (keyRegisters : list Register) : AntiJoin :=
  mkAnti keyRegisters ∅ ∅ newDistinct.

(** A copy of the prefix with another round and count. *)
Definition stamped (prefix : Prefix) (round count : Z) : Prefix :=
  setCount (setRound prefix (Some round)) (Some count).

(** [AntiJoin.onLeft]. *)
Definition onLeft (anti : AntiJoin) (prefix : Prefix)
    : result (list Prefix * AntiJoin) :=
  let key := CreateKeyFunction (keyRegisters anti) prefix in
  rbind (roundAndCount prefix)
    (λ '(prefixRound, count),
       rbind (IntermediateIndex.insert key prefix (leftIndex anti))
         (λ leftIndex',
            let anti' :=
              mkAnti (keyRegisters anti) leftIndex' (rightIndex anti)
                     (distinct anti) in
            match KeyOnlyIntermediateIndex.iter key prefixRound
                    (rightIndex anti) with
            | None => Ok ([prefix], anti')
            | Some diffs =>
                Ok (map (λ '(currentRound, diffCount),
                           stamped prefix (Z.of_nat currentRound)
                                   (diffCount * count))
                        (ZeroingIterator.rounds diffs),
                    anti')
            end)).

(** [AntiJoin.onRight]. *)
Definition onRight (anti : AntiJoin) (prefix : Prefix)
    : result (list Prefix * AntiJoin) :=
  let key := CreateKeyFunction (keyRegisters anti) prefix in
  rbind (roundAndCount prefix)
    (λ '(prefixRound, count),
       rbind (KeyOnlyIntermediateIndex.insert key prefix (rightIndex anti))
         (λ rightIndex',
            let '(neue, distinct') :=
              distinctKey key (Z.of_nat prefixRound) count
                          (distinct anti) in
            let anti' :=
              mkAnti (keyRegisters anti) (leftIndex anti) rightIndex'
                     distinct' in
            match IntermediateIndex.iter key (Z.of_nat prefixRound)
                    (leftIndex anti) with
            | None => Ok ([], anti')
            | Some diffs =>
                Ok (flat_map
                      (λ '(rightRound, rightCount),
                         map (λ '(leftPrefix, diffRound, diffCount),
                                stamped leftPrefix
                                        (Z.max diffRound rightRound)
                                        (rightCount * diffCount * -1))
                             diffs)
                      neue,
                    anti')
            end)).

(** The two loops at the end of [BinaryFlow.exec] and of
    [AntiJoinPresolvedRight.exec]: the results of the left node first,
    then those of the right node. *)
Definition bothSides (anti : AntiJoin) (leftResults rightResults : list Prefix)
    : result (list Prefix * AntiJoin) :=
  rbind (JoinNode.foldM
           (λ '(results, anti) prefix,
              rbind (onLeft anti prefix)
                (λ '(pushed, anti'), Ok (results ++ pushed, anti')))
           leftResults ([], anti))
    (JoinNode.foldM
       (λ '(results, anti) prefix,
          rbind (onRight anti prefix)
            (λ '(pushed, anti'), Ok (results ++ pushed, anti')))
       rightResults).

(** The antijoins that executions leave behind:
    [ran keys lefts rights results anti] when [anti] is an antijoin on
    [keys] that has been given, since it was made, the prefixes of
    [lefts] on its left and those of [rights] on its right, and has
    pushed [results]. *)
Inductive ran (keys : list Register)
    : list Prefix → list Prefix → list Prefix → AntiJoin → Prop :=
| ran_new : ran keys [] [] [] (newAnti keys)
| ran_left lefts rights results anti prefix pushed anti' :
    ran keys lefts rights results anti →
    onLeft anti prefix = Ok (pushed, anti') →
    ran keys (lefts ++ [prefix]) rights (results ++ pushed) anti'
| ran_right lefts rights results anti prefix pushed anti' :
    ran keys lefts rights results anti →
    onRight anti prefix = Ok (pushed, anti') →
    ran keys lefts (rights ++ [prefix]) (results ++ pushed) anti'.



(** *** ChooseFlow *)

(** A branch of a choose: a [BinaryJoinRight], or an
    [AntiJoinPresolvedRight] whose left node is a [BinaryJoinRight] and
    whose right node is the choose itself. *)
Inductive Branch :=
| Join (join : BinaryJoinRight)
| AntiJoinPresolvedRight (join : BinaryJoinRight) (anti : AntiJoin).

Record ChooseFlow := mkChoose {
  c_left : Node;
  branches : list Branch;
  c_keyRegisters : list (list Register);
  c_registersToMerge : list Register;
  c_extraOuterJoins : list Register;
}.

(** The first loop of the constructor. *)
Definition addKey (allKeys : list Register) (key : Register)
    : list Register :=
  if existsb (λ r, bool_decide (offset r = offset key)) allKeys
  then allKeys else allKeys ++ [key].

Definition unionOfKeys (keyRegisters : list (list Register))
    : list Register :=
  fold_left (λ allKeys keySet, fold_left addKey keySet allKeys)
            keyRegisters [].

(** The body of the second loop of the constructor: what it pushes for
    a branch; [first] says that [prev] is still [undefined]. *)
Definition wrapBranch (left : Node) (allKeys : list Register)
    (registersToMerge extraOuterJoins : list Register) (first : bool)
    (branch : Node) (keySet : list Register) : Branch :=
  let myKeys := keySet ++ extraOuterJoins in
  let join := newJoin left branch myKeys registersToMerge in
  if first then Join join
  else AntiJoinPresolvedRight join (newAnti allKeys).

(** The second loop of the constructor.  [keyRegisters[ix].concat] is a
    [TypeError] when a branch has no key registers listed. *)
Fixpoint wrapBranches (left : Node) (allKeys : list Register)
    (keyRegisters : list (list Register))
    (registersToMerge extraOuterJoins : list Register)
    (ix : nat) (first : bool) (initialBranches : list Node)
    : result (list Branch) :=
  match initialBranches with
  | [] => Ok []
  | branch :: rest =>
      match keyRegisters !! ix with
      | None => Fail TypeError
      | Some keySet =>
          rbind (wrapBranches left allKeys keyRegisters registersToMerge
                              extraOuterJoins (S ix) false rest)
                (λ nodes,
                   Ok (wrapBranch left allKeys registersToMerge
                                  extraOuterJoins first branch keySet
                       :: nodes))
      end
  end.

Definition construct (left : Node) (initialBranches : list Node)
    (keyRegisters : list (list Register))
    (registersToMerge extraOuterJoins : list Register)
    : result ChooseFlow :=
  rbind (wrapBranches left (unionOfKeys keyRegisters) keyRegisters
                      registersToMerge extraOuterJoins 0 true
                      initialBranches)
        (λ nodes,
           Ok (mkChoose left nodes keyRegisters registersToMerge
                        extraOuterJoins)).

(** [node.keyRegisters] of a branch. *)
Definition branchKeys (node : Branch) : list Register :=
  match node with
  | Join join => j_keyRegisters join
  | AntiJoinPresolvedRight _ anti => keyRegisters anti
  end.

(** [node.exec] of a branch.  [leftResults] is what the results of the
    left node of the choose hold, and [chooseResults] what the results
    of the choose itself hold, which are the results of the right node
    of an [AntiJoinPresolvedRight]. *)
Definition branchExec (node : Branch) (input : Input) (prefix : Prefix)
    (transaction round : Z) (leftResults chooseResults : list Prefix)
    (w : World) : result (list Prefix * Branch * World) :=
  match node with
  | Join join =>
      rbind (joinExec join input prefix transaction round leftResults w)
        (λ '(results, join', w'), Ok (results, Join join', w'))
  | AntiJoinPresolvedRight join anti =>
      rbind (joinExec join input prefix transaction round leftResults w)
        (λ '(joinResults, join', w'),
           rbind (bothSides anti joinResults chooseResults)
             (λ '(results, anti'),
                Ok (results, AntiJoinPresolvedRight join' anti', w')))
  end.

(** The loop over the left prefixes that a branch consumes again, with
    the results of the choose and of its left node swapped for
    [emptyResults]. *)
Definition again (input : Input) (transaction round : Z)
    (acc : list Prefix * Branch * World) (leftPrefix : Prefix)
    : result (list Prefix * Branch * World) :=
  let '(results, node, w) := acc in
  rbind (branchExec node input leftPrefix transaction round [] [] w)
    (λ '(pushed, node', w'), Ok (results ++ pushed, node', w')).

Definition isOrdinary (input : Input) : bool :=
  match input with
  | Ordinary _ => true
  | _ => false
  end.

(** One turn of the loop over the branches of [ChooseFlow.exec]: the
    results of the node, the node and the world afterwards. *)
Definition branchTurn (node : Branch) (input : Input) (prefix : Prefix)
    (transaction round : Z) (leftResults chooseResults : list Prefix)
    (w : World) : result (list Prefix * Branch * World) :=
  rbind (branchExec node input prefix transaction round leftResults
                    chooseResults w)
    (λ first,
       if bool_decide (branchKeys node ≠ []) && isOrdinary input
       then JoinNode.foldM (again input transaction round) leftResults
                           first
       else Ok first).

(** The loop over the branches; [results] is the iterator that [exec]
    was given, which is the choose's own wherever the code runs a
    node. *)
Fixpoint execBranches (nodes : list Branch) (input : Input)
    (prefix : Prefix) (transaction round : Z) (leftResults : list Prefix)
    (results : list Prefix) (w : World)
    : result (list Prefix * list Branch * World) :=
  match nodes with
  | [] => Ok (results, [], w)
  | node :: rest =>
      rbind (branchTurn node input prefix transaction round leftResults
                        results w)
        (λ '(pushed, node', w'),
           rbind (execBranches rest input prefix transaction round
                               leftResults (results ++ pushed) w')
             (λ '(results', rest', w''),
                Ok (results', node' :: rest', w'')))
  end.

(** [ChooseFlow.exec]. *)
Definition exec (choose : ChooseFlow) (input : Input) (prefix : Prefix)
    (transaction round : Z) (results : list Prefix) (w : World)
    : result (list Prefix * ChooseFlow * World) :=
  rbind (c_left choose input prefix transaction round w)
    (λ '(leftResults, w'),
       rbind (execBranches (branches choose) input prefix transaction
                           round leftResults results w')
         (λ '(results', nodes, w''),
            Ok (results',
                mkChoose (c_left choose) nodes (c_keyRegisters choose)
                         (c_registersToMerge choose)
                         (c_extraOuterJoins choose),
                w''))).

End Nodes.

End Flow.

(** ** The transaction *)

Module Transaction.

(** *** Collapsing multiplicities *)

(** The comparator of [collapseMultiplicity]: entity, then attribute,
    then value. *)
Definition compareEAV (x y : Change.t) : Z :=
  let eDiff := Change.e x - Change.e y in
  if decide (eDiff = 0) then
    let aDiff := Change.a x - Change.a y in
    if decide (aDiff = 0) then Change.v x - Change.v y else aDiff
  else eDiff.

(** [changes.sort(compare)]: the sort of the engine is stable, so an
    element goes after the elements that do not compare greater. *)
Fixpoint insertSorted (compare : Change.t → Change.t → Z) (x : Change.t)
    (sorted : list Change.t) : list Change.t :=
  match sorted with
  | [] => [x]
  | y :: rest =>
      if decide (compare y x ≤ 0) then y :: insertSorted compare x rest
      else x :: y :: rest
  end.

Definition sort (compare : Change.t → Change.t → Z) (changes : list Change.t)
    : list Change.t :=
  fold_left (λ sorted x, insertSorted compare x sorted) changes [].

(** [next.e == current.e && next.a == current.a && next.v == current.v]. *)
Definition sameEAV (next current : Change.t) : bool :=
  bool_decide (Change.e next = Change.e current)
  && bool_decide (Change.a next = Change.a current)
  && bool_decide (Change.v next = Change.v current).

Definition addCount (current next : Change.t) : Change.t :=
  Change.mk (Change.cls current)
            (Change.e current) (Change.a current) (Change.v current)
            (Change.n current) (Change.transaction current)
            (Change.round current) (Change.count current + Change.count next).

(** The loop of [collapseMultiplicity] once [current] is picked: the
    changes that follow and match are added to its count, and it is
    pushed when the count is not 0. *)
Fixpoint collapseFrom (current : Change.t) (rest : list Change.t)
    : list Change.t :=
  match rest with
  | [] => if decide (Change.count current = 0) then [] else [current]
  | next :: rest' =>
      if sameEAV next current then collapseFrom (addCount current next) rest'
      else (if decide (Change.count current = 0) then [] else [current])
           ++ collapseFrom next rest'
  end.

(** [collapseMultiplicity(changes, results)]. *)
Definition collapseMultiplicity (changes results : list Change.t)
    : list Change.t :=
  results ++ match sort compareEAV changes with
             | [] => []
             | current :: rest => collapseFrom current rest
             end.

(** *** Exports *)

(** The key [`${blockId}|${e}|${a}|${v}`] of the export index. *)
Definition beav (blockId e a v : Z) : string :=
  pretty blockId +:+ "|" +:+ pretty e +:+ "|" +:+ pretty a +:+ "|"
  +:+ pretty v.

(** [context.exportIndex[beav] || 0]. *)
Definition running (exportIndex : gmap string Z) (blockId e a v : Z) : Z :=
  default 0 (exportIndex !! beav blockId e a v).

(** The body of the loop over [rawExports]. *)
Definition exportChange (transaction blockId : Z)
    (acc : list Change.t * gmap string Z) (change : Change.t)
    : list Change.t * gmap string Z :=
  let '(exports, exportIndex) := acc in
  let e := Change.e change in
  let a := Change.a change in
  let v := Change.v change in
  let old := running exportIndex blockId e a v in
  let neue := old + Change.count change in
  let exportIndex' := <[beav blockId e a v := neue]> exportIndex in
  let delta :=
    if decide (old = 0 ∧ neue > 0) then 1
    else if decide (old > 0 ∧ neue = 0) then -1
    else 0 in
  if decide (delta = 0) then (exports, exportIndex')
  else (exports ++ [Change.mk Change.CChange e a v (Change.n change)
                              transaction 0 delta],
        exportIndex').

(** One turn of the loop over [exportingBlocks]: the exported changes of
    the block are collapsed and turned into the block's exports. *)
Definition exportBlock (transaction blockId : Z) (changes : list Change.t)
    (exportIndex : gmap string Z) : list Change.t * gmap string Z :=
  fold_left (exportChange transaction blockId)
            (collapseMultiplicity changes []) ([], exportIndex).

(** The loop over [exportingBlocks]; [exportedChanges] lists the blocks
    that exported something, in the order of [Object.keys]. *)
Fixpoint exportAll (transaction : Z)
    (exportedChanges : list (Z * list Change.t))
    (exportIndex : gmap string Z)
    : list (Z * list Change.t) * gmap string Z :=
  match exportedChanges with
  | [] => ([], exportIndex)
  | (blockId, changes) :: rest =>
      let '(exports, exportIndex1) :=
        exportBlock transaction blockId changes exportIndex in
      let '(rest', exportIndex2) := exportAll transaction rest exportIndex1 in
      ((blockId, exports) :: rest', exportIndex2)
  end.

(** The sum of the counts that a list of changes holds for a triple. *)
Definition total (changes : list Change.t) (e a v : Z) : Z :=
  foldr (λ c acc, Change.count c + acc) 0
        (filter (λ c, Change.e c = e ∧ Change.a c = a ∧ Change.v c = v)
                changes).

(** The counts of the exports for a triple. *)
Definition deltas (exports : list Change.t) (e a v : Z) : list Z :=
  map Change.count
      (filter (λ c, Change.e c = e ∧ Change.a c = a ∧ Change.v c = v)
              exports).

(** *** The loop to fixpoint *)

(** The two messages that [exec] writes with [console.error]. *)
Inductive Diagnostic :=
| FailedToFixpoint
| FailedToTerminate.

(** [let iterationLimit = 10000]. *)
Definition iterationLimit : Z := 10000.

(** A [RemoveVsChange] or, when [allAttributes] is set, a
    [RemoveAVsChange]: its value slot, and for the second class its
    attribute slot too, hold [IGNORE_REG]. *)
Record PartialCommit := mkPartial {
  allAttributes : bool;
  p_e : ID; p_a : ID; p_n : ID;
  p_transaction : Z; p_round : Z; p_count : Z;
}.

(** The comparator of [collapseCommits]: node, entity, attribute, value. *)
Definition compareNEAV (x y : Change.t) : Z :=
  let nodeDiff := Change.n x - Change.n y in
  if decide (nodeDiff = 0) then compareEAV x y else nodeDiff.

Definition sameNEAV (current next : Change.t) : bool :=
  bool_decide (Change.n current = Change.n next) && sameEAV next current.

(** The inner loop of [collapseCommits] and what follows it: the round is
    set to 0, and the change is pushed when it is a removal with a
    negative count or an addition with a positive one. *)
Definition pushCommit (current : Change.t) : list Change.t :=
  let current' :=
    Change.mk (Change.cls current) (Change.e current) (Change.a current)
              (Change.v current) (Change.n current)
              (Change.transaction current) 0 (Change.count current) in
  match Change.cls current with
  | Change.CRemoveChange =>
      if decide (Change.count current < 0) then [current'] else []
  | Change.CChange =>
      if decide (Change.count current > 0) then [current'] else []
  end.

Fixpoint collapseCommitsFrom (current : Change.t) (rest : list Change.t)
    : list Change.t :=
  match rest with
  | [] => pushCommit current
  | next :: rest' =>
      if sameNEAV current next
      then collapseCommitsFrom (addCount current next) rest'
      else pushCommit current ++ collapseCommitsFrom next rest'
  end.

(** [collapseCommits(changes, results)]. *)
Definition collapseCommits (changes results : list Change.t)
    : list Change.t :=
  results ++ match sort compareNEAV changes with
             | [] => []
             | current :: rest => collapseCommitsFrom current rest
             end.

(** What [collapseMultiplicity] leaves in the array that it was given:
    the array is sorted in place, and the first change of every group
    has got the counts of the others added. *)
Fixpoint settleFrom (current : Change.t) (merged rest : list Change.t)
    : list Change.t :=
  match rest with
  | [] => current :: merged
  | next :: rest' =>
      if sameEAV next current
      then settleFrom (addCount current next) (merged ++ [next]) rest'
      else current :: merged ++ settleFrom next [] rest'
  end.
Definition settle (changes : list Change.t) : list Change.t :=
  match sort compareEAV changes with
  | [] => []
  | current :: rest => settleFrom current [] rest
  end.

Section Loop.
(** What the transaction borrows from the evaluation context and does
    not look into: the triple index, the distinct index and the state
    of the nodes of the blocks. *)
Variable World : Type.

(** [distinctIndex.distinct(change, outputs)]; the flag says that the
    count of the change was saturated to plus or minus [Infinity],
    with the sign that the count has here. *)
Variable distinct : bool → Change.t → World → list Change.t * World.
(** [index.insert(change)]. *)
Variable indexInsert : Change.t → World → World.
(** [index.get(e, a, IGNORE_REG, IGNORE_REG, transaction, Infinity)],
    and with [a] ignored as well: the attribute and the value of every
    match. *)
Variable indexGet : World → ID → option ID → Z → list (ID * ID).
(** [index.getDiffs(e, a, v, IGNORE_REG)]. *)
Variable indexGetDiffs : World → ID → ID → ID → RoundArray.

(** The fields of [class Transaction], with the export index and the
    rest of the evaluation context. *)
Record State := mkState {
  round : Z;
  changes : list Change.t;
  lastFrame : nat;
  roundChanges : list (option (list Change.t));
  frameCommits : list Change.t;
  framePartialCommits : list PartialCommit;
  exportedChanges : list (Z * list Change.t);
  exportIndex : gmap string Z;
  world : World;
}.

(** [block.exec(context, change, this)] for every block of the
    transaction: a block runs its nodes, which call back [output],
    [commit] and [export]; it may throw. *)
Variable blocks : list (Change.t → State → result State).

(** [this.roundChanges[output.round]] gets the output pushed.  A
    negative round would be a property of the array that no loop
    reads. *)
Definition pushRound (rounds : list (option (list Change.t)))
    (output : Change.t) : list (option (list Change.t)) :=
  if decide (Change.round output < 0) then rounds
  else
    let ix := Z.to_nat (Change.round output) in
    match rounds !! ix with
    | Some (Some cur) => <[ix := Some (cur ++ [output])]> rounds
    | Some None => <[ix := Some [output]]> rounds
    | None => rounds ++ replicate (ix - length rounds) None
              ++ [Some [output]]
    end.

(** [output(context, change)]. *)
Definition output (saturated : bool) (change : Change.t) (st : State)
    : State :=
  let '(outputs, world') := distinct saturated change (world st) in
  mkState (round st) (changes st) (lastFrame st)
          (fold_left pushRound outputs (roundChanges st))
          (frameCommits st) (framePartialCommits st)
          (exportedChanges st) (exportIndex st) world'.

(** [commit(context, change)] for a change that is not an instance of
    [RemoveVsChange], and for one that is. *)
Definition commit (change : Change.t) (st : State) : State :=
  mkState (round st) (changes st) (lastFrame st) (roundChanges st)
          (frameCommits st ++ [change]) (framePartialCommits st)
          (exportedChanges st) (exportIndex st) (world st).
Definition commitPartial (change : PartialCommit) (st : State) : State :=
  mkState (round st) (changes st) (lastFrame st) (roundChanges st)
          (frameCommits st) (framePartialCommits st ++ [change])
          (exportedChanges st) (exportIndex st) (world st).

(** [export(context, blockId, change)]; the blocks are kept in the
    order in which [Object.keys] lists them. *)
Fixpoint exportTo (blockId : Z) (change : Change.t)
    (exported : list (Z * list Change.t)) : list (Z * list Change.t) :=
  match exported with
  | [] => [(blockId, [change])]
  | (b, cs) :: rest =>
      if decide (b = blockId) then (b, cs ++ [change]) :: rest
      else if decide (blockId < b) then (blockId, [change]) :: (b, cs) :: rest
      else (b, cs) :: exportTo blockId change rest
  end.
Definition export (blockId : Z) (change : Change.t) (st : State) : State :=
  mkState (round st) (changes st) (lastFrame st) (roundChanges st)
          (frameCommits st) (framePartialCommits st)
          (exportTo blockId change (exportedChanges st))
          (exportIndex st) (world st).

(** [toRemoveChanges(context, changes)] of [RemoveVsChange] and of
    [RemoveAVsChange]. *)
Definition toRemoveChanges (w : World) (commit : PartialCommit)
    : list Change.t :=
  flat_map
    (λ av : ID * ID,
       let a := if allAttributes commit then av.1 else p_a commit in
       map (λ round,
              Change.mk Change.CRemoveChange (p_e commit) a av.2
                        (p_n commit) (p_transaction commit)
                        (Z.max (p_round commit) (Z.abs round - 1))
                        (p_count commit * Multiplicity.sign round))
           (indexGetDiffs w (p_e commit) a av.2))
    (indexGet w (p_e commit)
              (if allAttributes commit then None else Some (p_a commit))
              (p_transaction commit)).

(** The first loop of [prepareRound], from the round after the current
    one: the rounds are collapsed into [changes] until one of them
    adds a change; [true] stands for the early [return].  The rounds
    come back as the collapse has left them. *)
Fixpoint nextRounds (oldLength : nat)
    (rounds : list (option (list Change.t))) (changes : list Change.t)
    : bool * list (option (list Change.t)) * list Change.t :=
  match rounds with
  | [] => (false, [], changes)
  | None :: rest =>
      let '(found, rest', changes') := nextRounds oldLength rest changes in
      (found, None :: rest', changes')
  | Some nextRoundChanges :: rest =>
      let changes' := collapseMultiplicity nextRoundChanges changes in
      let settled := Some (settle nextRoundChanges) in
      if decide (oldLength < length changes')%nat
      then (true, settled :: rest, changes')
      else
        let '(found, rest', changes'') :=
          nextRounds oldLength rest changes' in
        (found, settled :: rest', changes'')
  end.

(** [prepareRound(context, changeIx)], with [again] for its recursive
    call.  The changes are values here; in the code a change that a
    round adds to [changes] is the very object that the round holds. *)
Definition prepareRoundWith (again : State → State) (changeIx : nat)
    (st : State) : State :=
  match changes st !! changeIx with
  | Some _ => st
  | None =>
      let maxRound := length (roundChanges st) in
      let oldLength := length (changes st) in
      let start := Z.to_nat (round st + 1) in
      let '(found, rounds1, changes1) :=
        if decide (round st < Z.of_nat maxRound)
        then
          let '(found, rest, changes1) :=
            nextRounds oldLength (drop start (roundChanges st))
                       (changes st) in
          (found, take start (roundChanges st) ++ rest, changes1)
        else (false, roundChanges st, changes st) in
      let st1 :=
        mkState (round st) changes1 (lastFrame st) rounds1
                (frameCommits st) (framePartialCommits st)
                (exportedChanges st) (exportIndex st) (world st) in
      if found then st1
      else
        match frameCommits st, framePartialCommits st with
        | [], [] => st1
        | _, _ =>
            let frameCommits' :=
              frameCommits st
              ++ flat_map (toRemoveChanges (world st))
                          (framePartialCommits st) in
            let collapsedCommits := collapseCommits frameCommits' [] in
            let collapsedChanges :=
              collapseMultiplicity collapsedCommits [] in
            match collapsedChanges with
            | [] =>
                mkState (round st) changes1 (lastFrame st) rounds1
                        (sort compareNEAV frameCommits')
                        (framePartialCommits st)
                        (exportedChanges st) (exportIndex st) (world st)
            | _ :: _ =>
                let st3 :=
                  mkState (-1) changes1 (length changes1) [] [] []
                          (exportedChanges st) (exportIndex st)
                          (world st) in
                again (fold_left (λ s commit, output true commit s)
                                 collapsedChanges st3)
            end
        end
  end.

(** The recursive call finds both lists of commits empty and does not
    call itself again; two levels are the whole recursion. *)
Definition prepareRound (changeIx : nat) (st : State) : State :=
  prepareRoundWith (prepareRoundWith (λ s, s) changeIx) changeIx st.

(** The loop over the blocks. *)
Fixpoint execBlocks (bs : list (Change.t → State → result State))
    (change : Change.t) (st : State) : result State :=
  match bs with
  | [] => Ok st
  | block :: rest => rbind (block change st) (execBlocks rest change)
  end.

(** How the loop of [exec] ended. *)
Record Run := mkRun {
  processed : nat;
  diagnostic : option Diagnostic;
  final : State;
}.

Definition withRound (st : State) (r : Z) : State :=
  mkState r (changes st) (lastFrame st) (roundChanges st)
          (frameCommits st) (framePartialCommits st)
          (exportedChanges st) (exportIndex st) (world st).
Definition inserted (change : Change.t) (st : State) : State :=
  mkState (round st) (changes st) (lastFrame st) (roundChanges st)
          (frameCommits st) (framePartialCommits st)
          (exportedChanges st) (exportIndex st)
          (indexInsert change (world st)).

(** The [while] loop of [exec]; a turn of the loop costs one unit of
    [fuel], and [None] is a loop that the fuel did not see the end
    of. *)
Fixpoint loop (fuel : nat) (total : Z) (frames changeIx : nat)
    (st : State) : option (result Run) :=
  match fuel with
  | O => None
  | S fuel' =>
      match changes st !! changeIx with
      | None => Some (Ok (mkRun changeIx None st))
      | Some change =>
          let total' := total + 1 in
          if decide (total' > iterationLimit)
          then Some (Ok (mkRun changeIx (Some FailedToFixpoint) st))
          else
            let newFrame :=
              bool_decide (round st ≠ 0 ∧ Change.round change = 0) in
            let frames' := if newFrame then S frames else frames in
            if newFrame && bool_decide (10 < frames')%nat
            then Some (Ok (mkRun changeIx (Some FailedToTerminate) st))
            else
              match execBlocks blocks change
                               (withRound st (Change.round change)) with
              | Fail f => Some (Fail f)
              | Ok st1 =>
                  loop fuel' total' frames' (S changeIx)
                       (prepareRound (S changeIx) (inserted change st1))
              end
      end
  end.

(** The number of the transaction and its export handler, if it has
    one; the handler may throw. *)
Variable transaction : Z.
Variable exportHandler :
  option (list (Z * list Change.t) → result unit).

(** What follows the loop in [exec]. *)
Definition exportRun (run : Run) : result Run :=
  let st := final run in
  match exportedChanges st with
  | [] => Ok run
  | _ :: _ =>
      match exportHandler with
      | None =>
          Fail (Thrown "Unable to export changes without export handler.")
      | Some handler =>
          let '(exports, exportIndex') :=
            exportAll transaction (exportedChanges st) (exportIndex st) in
          rbind (handler exports)
                (λ _, Ok (mkRun (processed run) (diagnostic run)
                                (mkState (round st) (changes st)
                                         (lastFrame st) (roundChanges st)
                                         (frameCommits st)
                                         (framePartialCommits st)
                                         exports exportIndex'
                                         (world st))))
      end
  end.

(** [exec(context)]. *)
Definition exec (fuel : nat) (st : State) : option (result Run) :=
  match loop fuel 0 0 0 (prepareRound 0 st) with
  | None => None
  | Some (Fail f) => Some (Fail f)
  | Some (Ok run) => Some (exportRun run)
  end.

End Loop.

(** *** What the statements about exports and about the loop speak of *)

(** No character of the string is the separator of the export keys. *)
Fixpoint barfree (s : string) : Prop :=
  match s with
  | EmptyString => True
  | String c s' => c ≠ "|"%char ∧ barfree s'
  end.

(** The order of the sort of [collapseMultiplicity]. *)
Definition le (x y : Change.t) : Prop := compareEAV x y ≤ 0.

(** What [collapseMultiplicity] pushes for a count. *)
Definition nonzero (x : Z) : list Z := if decide (x = 0) then [] else [x].

(** The counts that one step of the export loop emits for a running
    count that goes from [old] to [neue]. *)
Definition transition (old neue : Z) : list Z :=
  if decide (old = 0 ∧ neue > 0) then [1]
  else if decide (old > 0 ∧ neue = 0) then [-1]
  else [].

(** What a run of the loop says about the changes of the transaction:
    without a diagnostic no change is left; the limit of iterations is
    reported on the change after the last one that the limit allows;
    too many frames are reported on a change that is left as well. *)
Definition stopped {World : Type} (run : Run World) : Prop :=
  match diagnostic World run with
  | None => changes World (final World run) !! processed World run = None
  | Some FailedToFixpoint =>
      Z.of_nat (processed World run) = iterationLimit ∧
      is_Some (changes World (final World run) !! processed World run)
  | Some FailedToTerminate =>
      Z.of_nat (processed World run) < iterationLimit ∧
      is_Some (changes World (final World run) !! processed World run)
  end.

End Transaction.

(** ** Indexes as sequences of inserts *)

Module Indexes.
Import Flow.

(** A [KeyOnlyIntermediateIndex] after [insert(keyFunc(prefix), prefix)]
    for each prefix of a list, as [AntiJoin.onRight] calls it. *)
Definition keyOnlyInserts (keyRegisters : list Register)
    (seen : list Prefix) (index : KeyOnlyIntermediateIndex.t)
    : result KeyOnlyIntermediateIndex.t :=
  JoinNode.foldM
    (λ index prefix,
       KeyOnlyIntermediateIndex.insert
         (CreateKeyFunction keyRegisters prefix) prefix index)
    seen index.

(** An [IntermediateIndex] after [insert(keyFunc(prefix), prefix)] for
    each prefix of a list, as [onLeft] and [onRight] of the binary flows
    call it. *)
Definition inserts (keyRegisters : list Register) (seen : list Prefix)
    (index : IntermediateIndex.t) : result IntermediateIndex.t :=
  JoinNode.foldM
    (λ index prefix,
       IntermediateIndex.insert (CreateKeyFunction keyRegisters prefix)
                                prefix index)
    seen index.

End Indexes.

(** ** Iterator *)

Module Iterator.

(** [arr[i] = x] on a JavaScript array: out of range the array grows and
    the slots in between are holes, which read [undefined]. *)
Definition aset {T : Type} (arr : list (option T)) (i : nat) (x : option T)
    : list (option T) :=
  if decide (i < length arr)%nat then <[i := x]> arr
  else arr ++ replicate (i - length arr) None ++ [x].

(** [class Iterator<T>] and its subclass [ReadOnlyIterator<T>], whose
    [push] throws. *)
Record t (T : Type) := mk {
  array : list (option T);
  length : nat;
  ix : nat;
  readOnly : bool;
}.
Arguments mk {T} array length ix readOnly.
Arguments array {T} _.
Arguments length {T} _.
Arguments ix {T} _.
Arguments readOnly {T} _.

Definition new {T : Type} : t T := mk [] 0 0 false.

Definition push {T : Type} (value : T) (it : t T) : result (t T) :=
  if readOnly it
  then Fail (Thrown "Cannot write to a readonly iterator")
  else Ok (mk (aset (array it) (length it) (Some value))
              (S (length it)) (ix it) false).

Definition reset {T : Type} (it : t T) : t T :=
  mk (array it) (length it) 0 (readOnly it).

Definition clear {T : Type} (it : t T) : t T :=
  reset (mk (array it) 0 (ix it) (readOnly it)).

Definition next {T : Type} (it : t T) : option T * t T :=
  if decide (ix it < length it)%nat
  then (mjoin (array it !! ix it),
        mk (array it) (length it) (S (ix it)) (readOnly it))
  else (None, it).

(** [iter()]: a read-only iterator on the same array. *)
Definition iter {T : Type} (it : t T) : t T :=
  mk (array it) (length it) 0 true.

(** [while((current = iterator.next()) !== undefined)]: what the loop
    sees, and the iterator afterwards. *)
Fixpoint drain {T : Type} (fuel : nat) (it : t T) : list T * t T :=
  match fuel with
  | O => ([], it)
  | S fuel' =>
      match next it with
      | (Some x, it') =>
          let '(xs, it'') := drain fuel' it' in (x :: xs, it'')
      | (None, it') => ([], it')
      end
  end.

(** A sequence of calls of [push]. *)
Definition pushAll {T : Type} (values : list T) (it : t T)
    : result (t T) :=
  JoinNode.foldM (λ it value, push value it) values it.

End Iterator.

(** ** LinearFlow and Block *)

Module Pipeline.
Import Flow.

Section Pipeline.
Context {World : Type}.

(** [while(curPrefix = iter.next()) node.exec(..., curPrefix, ...,
    node.results, ...)]: the node is run on every prefix of [iter], in
    order, and its results pile up in [node.results], which the
    callers clear before the loop. *)
Definition runOn (node : @Node World) (input : Input)
    (transaction round : Z) (iter : list Prefix) (w : World)
    : result (list Prefix * World) :=
  JoinNode.foldM
    (λ '(results, w) prefix,
       rbind (node input prefix transaction round w)
         (λ '(pushed, w'), Ok (results ++ pushed, w')))
    iter ([], w).

(** The loop [for(let node of this.nodes)] of [LinearFlow.exec];
    [None] is the [return false] for a node that is left without
    prefixes. *)
Fixpoint linearStages (nodes : list (@Node World)) (input : Input)
    (transaction round : Z) (iter : list Prefix) (w : World)
    : result (option (list Prefix) * World) :=
  match nodes with
  | [] => Ok (Some iter, w)
  | node :: rest =>
      match iter with
      | [] => Ok (None, w)
      | _ =>
          rbind (runOn node input transaction round iter w)
            (λ '(results, w'),
               linearStages rest input transaction round results w')
      end
  end.

(** [LinearFlow.exec]: what it returns, what it pushes to [results]
    and the world afterwards. *)
Definition linearExec (nodes : list (@Node World)) (input : Input)
    (prefix : Prefix) (transaction round : Z) (w : World)
    : result (bool * list Prefix * World) :=
  rbind (linearStages nodes input transaction round [prefix] w)
    (λ '(out, w'),
       match out with
       | Some results => Ok (true, results, w')
       | None => Ok (false, [], w')
       end).

(** A node of a block, with what [node instanceof AntiJoin] says. *)
Record BlockNode := mkBlockNode {
  node : @Node World;
  isAntiJoin : bool;
}.

(** [class Block]. *)
Record Block := mkBlock {
  nodes : list BlockNode;
  totalRegisters : nat;
}.

(** [this.initial]: [totalRegisters + 2] slots that are
    [undefined]. *)
Definition initial (block : Block) : Prefix :=
  replicate (totalRegisters block + 2) None.

(** The loop [for(let node of this.nodes)] of [Block.exec]: a node
    that is left without prefixes is not run, unless it is an antijoin,
    which is run on a copy of the initial prefix. *)
Fixpoint blockStages (block : Block) (nodes : list BlockNode)
    (input : Input) (transaction round : Z) (iter : list Prefix)
    (w : World) : result (list Prefix * World) :=
  match nodes with
  | [] => Ok (iter, w)
  | n :: rest =>
      match iter with
      | [] =>
          if isAntiJoin n then
            rbind (node n input (initial block) transaction round w)
              (λ '(results, w'),
                 blockStages block rest input transaction round results
                             w')
          else blockStages block rest input transaction round [] w
      | _ =>
          rbind (runOn (node n) input transaction round iter w)
            (λ '(results, w'),
               blockStages block rest input transaction round results
                           w')
      end
  end.

(** [Block.exec], which returns [true]: the prefixes that the last
    node was left with and the world afterwards. *)
Definition blockExec (block : Block) (input : Input)
    (transaction round : Z) (w : World) : result (list Prefix * World) :=
  blockStages block (nodes block) input transaction round
              [initial block] w.

End Pipeline.

End Pipeline.

(** ** Counts up to a round *)

Module Counting.
Import Multiplicity.

(** What the entries of a diff array add up to at a round: an entry [d]
    stands for round [|d| - 1] and counts 1 when it is positive and -1
    otherwise. *)
Definition signsUpTo (rounds : RoundArray) (r : Z) : Z :=
  signSum (filter (λ d, Z.abs d - 1 ≤ r) rounds).

(** What pairs of a round and a count add up to at a round. *)
Definition netPairs (l : list (Z * Z)) (r : Z) : Z :=
  foldr (λ rc acc, if decide (rc.1 ≤ r) then rc.2 + acc else acc) 0 l.

(** The same for prefixes, read from their slots of the round and the
    count. *)
Definition netPrefixes (results : list Prefix) (r : Z) : Z :=
  foldr (λ p acc,
           match prefixRound p, prefixCount p with
           | Some round, Some count =>
               if decide (round ≤ r) then count + acc else acc
           | _, _ => acc
           end)
        0 results.

End Counting.

(** ** Counting the results of a binary join *)

Module Joining.
Import Flow Flow.IntermediateIndex.

(** The count that a list of results holds in all, up to a round, for
    the results that [hashPrefix] maps to the value key: the copies of
    one result in other rounds and with other counts. *)
Definition netValue (results : list Prefix) (valueKey : string) (r : Z)
    : Z :=
  foldr (λ p acc,
           match prefixRound p, prefixCount p with
           | Some round, Some count =>
               if decide (hashPrefix p = valueKey ∧ round ≤ r)
               then count + acc else acc
           | _, _ => acc
           end)
        0 results.

(** The count that the prefixes of [seen] hold in all, up to a round,
    for the prefixes that have the key and that [mergeWith] merges into
    a result of the value key. *)
Definition mergedNet (keyRegisters : list Register)
    (mergeWith : Prefix → option Prefix) (seen : list Prefix)
    (key valueKey : string) (round : nat) : Z :=
  foldr (λ prefix acc,
           match roundAndCount prefix with
           | Ok (r, count) =>
               if decide (CreateKeyFunction keyRegisters prefix = key
                          ∧ hashPrefix <$> mergeWith prefix = Some valueKey
                          ∧ (r ≤ round)%nat)
               then count + acc else acc
           | Fail _ => acc
           end)
        0 seen.

(** Whether a prefix of [seen] with the value key [k] merges into a
    result of the value key. *)
Definition mergesInto (mergeWith : Prefix → option Prefix)
    (seen : list Prefix) (valueKey k : string) : bool :=
  bool_decide (Exists (λ q, hashPrefix q = k
                            ∧ hashPrefix <$> mergeWith q = Some valueKey)
                      seen).

(** What the pairs of a prefix of [lefts] and a prefix of [rights] that
    have the same key and merge into a result of the value key hold up
    to a round: the products of the counts of the pairs whose rounds
    both lie within the round. *)
Definition pairsNet (keyRegisters registersToMerge : list Register)
    (lefts rights : list Prefix) (valueKey : string) (round : nat) : Z :=
  foldr (λ prefix acc,
           match roundAndCount prefix with
           | Ok (r, count) =>
               (if decide (r ≤ round)%nat
                then count
                     * mergedNet keyRegisters
                                 (merge registersToMerge prefix) rights
                                 (CreateKeyFunction keyRegisters prefix)
                                 valueKey round
                else 0) + acc
           | Fail _ => acc
           end)
        0 lefts.

Section History.
Context {World : Type}.

(** The joins that executions leave behind:
    [joinedUp keys regs lefts rights results join] when [join] is a
    join on [keys] that merges [regs] and has been given, since it was
    made, the prefixes of [lefts] by [onLeft] and those of [rights] by
    [onRight], and has pushed [results].  An execution in a round
    gives a join prefixes of that round or of later rounds. *)
Inductive joinedUp (keys regs : list Register)
    : list Prefix → list Prefix → list Prefix
      → @BinaryJoinRight World → Prop :=
| joinedUp_new left right :
    joinedUp keys regs [] [] [] (newJoin left right keys regs)
| joinedUp_left lefts rights results join round prefix prefixRound
                count results' join' :
    joinedUp keys regs lefts rights results join →
    roundAndCount prefix = Ok (prefixRound, count) →
    (round ≤ prefixRound)%nat →
    joinOnLeft (Z.of_nat round) (results, join) prefix
    = Ok (results', join') →
    joinedUp keys regs (lefts ++ [prefix]) rights results' join'
| joinedUp_right lefts rights results join round prefix prefixRound
                 count results' join' :
    joinedUp keys regs lefts rights results join →
    roundAndCount prefix = Ok (prefixRound, count) →
    (round ≤ prefixRound)%nat →
    joinOnRight (Z.of_nat round) (results, join) prefix
    = Ok (results', join') →
    joinedUp keys regs lefts (rights ++ [prefix]) results' join'.

End History.

End Joining.

(** ** Commits of a frame *)

Module Commits.
Import Transaction.

(** The order of the sort of [collapseCommits]. *)
Definition leN (x y : Change.t) : Prop := compareNEAV x y ≤ 0.

(** The sum of the counts that a list of changes holds for a node and a
    triple. *)
Definition totalN (changes : list Change.t) (n e a v : Z) : Z :=
  foldr (λ c acc, Change.count c + acc) 0
        (filter (λ c, Change.n c = n ∧ Change.e c = e ∧ Change.a c = a
                      ∧ Change.v c = v)
                changes).

(** The count that a list of changes holds in all, up to a round, for
    an attribute and a value. *)
Definition netChanges (changes : list Change.t) (a v : ID) (r : Z) : Z :=
  foldr (λ c acc,
           if decide (Change.a c = a ∧ Change.v c = v ∧ Change.round c ≤ r)
           then Change.count c + acc else acc)
        0 changes.

End Commits.

(** ** What a transaction has filed *)

Module Filing.
Import Transaction.

(** [roundChanges[r] || []]: the changes that are filed under a
    round. *)
Definition filed (rounds : list (option (list Change.t))) (r : nat)
    : list Change.t :=
  default [] (mjoin (rounds !! r)).


End Filing.

(** ** Sample programs *)

Module FlowSamples.
Import Flow.


(** A choose of two branches, the first keyed on register 0 and the second
    on registers 0 and 1, over the distinct index of the model. *)
Definition sampleKeys : list (list Register) :=
  [[mkRegister 0]; [mkRegister 0; mkRegister 1]].

(** A result of the first branch, with 5 and 6 in the two registers, in
    round 0 with count 1. *)
Definition earlier : Prefix := [Some 5; Some 6; Some 0; Some 1].

(** Two prefixes that the join of the second branch may produce: one with
    the key of the earlier result and one with another key; and the first
    of them as the antijoin takes it back. *)
Definition sameKey : Prefix := [Some 5; Some 6; Some 0; Some 1].
Definition otherKey : Prefix := [Some 5; Some 7; Some 0; Some 1].
Definition takenBack : Prefix := [Some 5; Some 6; Some 0; Some (-1)].

(** The antijoin of the second branch once it has been given the earlier
    result, and in an execution that gives it the two prefixes on its
    left and the earlier result on its right. *)
Definition sampleAnti : @AntiJoin (list (string * nat * Z)) :=
  match onRight DistinctIndex.distinctKey
                (newAnti [] (unionOfKeys sampleKeys)) earlier with
  | Ok (_, anti) => anti
  | Fail _ => newAnti [] (unionOfKeys sampleKeys)
  end.
Definition sampleRun
    : result (list Prefix * @AntiJoin (list (string * nat * Z))) :=
  bothSides DistinctIndex.distinctKey (newAnti [] (unionOfKeys sampleKeys))
            [sameKey; otherKey] [earlier].


(** What a call has pushed. *)
Definition pushedBy {A : Type} (r : result (list Prefix * A))
    : option (list Prefix) :=
  match r with
  | Ok (pushed, _) => Some pushed
  | Fail _ => None
  end.

End FlowSamples.

Module JoinSamples.
Import Join Multiplicity JoinNode.

(** The join node of a block that binds register 0 to the value 5. *)
Definition bindFive : list Constraint :=
  [CMove (mkMove (FromStatic 5) (mkRegister 0) false)].

(** An index that holds nothing. *)
Definition noIndex : Index :=
  {| check := λ _ _ _ _ _ _, false;
     propose := λ _ _ _ _ _ _, (Card 0, [], true);
     resolveProposal := λ _ _ _ _ _ _, Flat [];
     getDiffs := λ _ _ _ _, [] |}.

(** An index in which every triple holds and has been added in round 1
    and again in round 3. *)
Definition sampleIndex : Index :=
  {| check := λ _ _ _ _ _ _, true;
     propose := λ _ _ _ _ _ _, (Card 1, [], true);
     resolveProposal := λ _ _ _ _ _ _, Flat [];
     getDiffs := λ _ _ _ _, [2; 4] |}.




End JoinSamples.

Module TransactionSamples.
Import Transaction.

(** Block 12 exports the triple (1, 2, 3) twice and (4, 5, 6) once. *)
Definition sampleExports : list Change.t :=
  [Change.mk Change.CChange 1 2 3 9 7 0 1;
   Change.mk Change.CChange 4 5 6 9 7 0 1;
   Change.mk Change.CChange 1 2 3 8 7 1 1].

(** A context that lets every change through and holds nothing. *)
Definition echo (saturated : bool) (change : Change.t) (w : unit)
    : list Change.t * unit := ([change], w).
Definition keep (change : Change.t) (w : unit) : unit := w.
Definition noMatches (w : unit) (e : ID) (a : option ID) (transaction : Z)
    : list (ID * ID) := [].
Definition noDiffs (w : unit) (e a v : ID) : RoundArray := [].

(** A block with an unbounded cycle: from every change it derives the
    same triple one round later. *)
Definition cycle (change : Change.t) (st : State unit)
    : result (State unit) :=
  Ok (output unit echo false
        (Change.mk Change.CChange (Change.e change) (Change.a change)
                   (Change.v change) (Change.n change)
                   (Change.transaction change) (Change.round change + 1)
                   (Change.count change))
        st).

(** A transaction with one change to start from. *)
Definition start : State unit :=
  mkState unit (-1) [Change.mk Change.CChange 1 2 3 4 1 0 1] 0 [] [] [] []
          ∅ tt.

End TransactionSamples.

Module IndexSamples.
Import Flow Indexes.

(** Prefixes of one register, keyed on it: 5 comes in round 0 and goes
    again in round 0, 6 comes twice in round 1. *)
Definition oneKey : list Register := [mkRegister 0].
Definition comeAndGo : list Prefix :=
  [[Some 5; Some 0; Some 1]; [Some 6; Some 1; Some 2];
   [Some 5; Some 0; Some (-1)]].

Definition sampleIndex : IntermediateIndex.t :=
  match inserts oneKey comeAndGo ∅ with
  | Ok index => index
  | Fail _ => ∅
  end.

End IndexSamples.

Module PipelineSamples.
Import Flow Pipeline.

(** Nodes over a world that counts the runs: one that passes its prefix
    twice, one that passes nothing, and one that passes its prefix. *)
Definition twice (p : Prefix) : list Prefix := [p; p].
Definition nothing (p : Prefix) : list Prefix := [].
Definition once (p : Prefix) : list Prefix := [p].
Definition counting (f : Prefix → list Prefix) : @Node nat :=
  λ _ p _ _ w, Ok (f p, S w).

Definition sampleBlock : @Block nat :=
  mkBlock [mkBlockNode (counting nothing) false;
           mkBlockNode (counting once) false] 1.

End PipelineSamples.

Module BinaryJoinSamples.
Import Flow Indexes.

(** A join keyed on register 0 that merges register 1.  The right side
    has given 5 with 7 in round 0 and 5 with 8 in round 1; the left side
    gives 5 twice in round 0, with register 1 unbound. *)
Definition silent : @Node unit := λ _ _ _ _ w, Ok ([], w).
Definition sampleKeys : list Register := [mkRegister 0].
Definition sampleMerge : list Register := [mkRegister 1].
Definition sampleRights : list Prefix :=
  [[Some 5; Some 7; Some 0; Some 1]; [Some 5; Some 8; Some 1; Some 1]].
Definition sampleLefts : list Prefix :=
  [[Some 5; Some 7; Some 0; Some 1]; [Some 5; None; Some 1; Some 3]].
Definition sampleLeft : Prefix := [Some 5; None; Some 0; Some 2].
Definition sampleRight : Prefix := [Some 5; Some 7; Some 0; Some 2].

Definition heardRights : BinaryJoinRight :=
  mkJoin silent silent sampleKeys sampleMerge ∅
         (match inserts sampleKeys sampleRights ∅ with
          | Ok index => index
          | Fail _ => ∅
          end).

Definition heardLefts : BinaryJoinRight :=
  mkJoin silent silent sampleKeys sampleMerge
         (match inserts sampleKeys sampleLefts ∅ with
          | Ok index => index
          | Fail _ => ∅
          end)
         ∅.

End BinaryJoinSamples.

Module JoinHistory.
Import Flow BinaryJoinSamples.

(** A join that is given the two right prefixes and then the left
    prefix, all in executions of round 0. *)
Definition fresh : BinaryJoinRight :=
  newJoin silent silent sampleKeys sampleMerge.

Definition afterRight : list Prefix * BinaryJoinRight :=
  match joinOnRight 0 ([], fresh) [Some 5; Some 7; Some 0; Some 1] with
  | Ok acc => acc
  | Fail _ => ([], fresh)
  end.

Definition afterRights : list Prefix * BinaryJoinRight :=
  match joinOnRight 0 afterRight [Some 5; Some 8; Some 1; Some 1] with
  | Ok acc => acc
  | Fail _ => afterRight
  end.

Definition afterLeft : list Prefix * BinaryJoinRight :=
  match joinOnLeft 0 afterRights sampleLeft with
  | Ok acc => acc
  | Fail _ => afterRights
  end.

End JoinHistory.

(** * Properties *)

Section InternerFacts.
Import Interner.

Lemma key_inj_same_kind v1 v2 :
  key v1 = key v2 →
  match v1, v2 with
  | RStr _, RStr _ | RNum _, RNum _ => v1 = v2
  | _, _ => True
  end.
Proof.
  destruct v1, v2; simpl; intros Hk; try done.
  - by subst.
  - by apply (inj pretty) in Hk; subst.
Qed.

Lemma wf_new : wf new.
Proof.
  split; simpl; intros *; rewrite ?lookup_empty; try done.
  all: try (by intros ?%elem_of_nil); try constructor.
Qed.

(** What [_getFreeID] hands out is not live, and what it leaves in the
    free list is a part of the old free list without that ID. *)
Lemma getFreeID_spec s id s1 :
  wf s → _getFreeID s = (id, s1) →
  (IDs s !! id = None) ∧ 0 ≤ id < currentID s1 ∧
  currentID s ≤ currentID s1 ∧
  strings s1 = strings s ∧ numbers s1 = numbers s ∧ IDs s1 = IDs s ∧
  IDRefCount s1 = IDRefCount s ∧
  (id ∉ IDFreeList s1) ∧ NoDup (IDFreeList s1) ∧
  (∀ j, j ∈ IDFreeList s1 → j ∈ IDFreeList s).
Proof.
  intros Hwf. unfold _getFreeID.
  assert (Hcur : IDs s !! currentID s = None).
  { destruct (IDs s !! currentID s) eqn:E; [|done].
    apply (wf_bound _ Hwf) in E. lia. }
  pose proof (wf_counter _ Hwf) as Hnn.
  pose proof (wf_free_nodup _ Hwf) as Hnd.
  assert (Hcurfree : currentID s ∉ IDFreeList s).
  { intros Hin. apply (wf_free _ Hwf) in Hin. lia. }
  destruct (IDFreeList s) as [|j l] eqn:E.
  - intros [= <- <-]; simpl. repeat split; try done; try lia.
    all: try apply not_elem_of_nil; try constructor.
  - apply NoDup_cons in Hnd as [Hj Hl].
    case_bool_decide as Hz.
    + intros [= <- <-]; simpl. repeat split; try done; try lia.
      all: try (intros Hin; apply Hcurfree; by right).
      all: try (intros k Hk; by right).
    + intros [= <- <-]; simpl.
      destruct (wf_free _ Hwf j) as [Hb Hn]; [rewrite E; left|].
      repeat split; try done; try lia.
      all: try (intros k Hk; by right).
Qed.

Lemma wf_reference id s : wf s → wf (reference id s).
Proof.
  intros Hwf. pose proof Hwf as [H1 H2 H3 H4 H5 H6 H7 H8].
  split; simpl; try assumption.
  intros i v Hi. destruct (wf_refs _ Hwf i v Hi) as (n & Hn & Hpos).
  destruct (decide (id = i)) as [Heq|Hne]; [subst i|].
  - rewrite lookup_insert_eq. rewrite Hn. simpl.
    exists (n + 1). split; [done|lia].
  - rewrite lookup_insert_ne by done. eauto.
Qed.

Lemma wf_intern v s : wf s → wf (intern v s).2.
Proof.
  intros Hwf. unfold intern.
  destruct (coll_lookup s v) as [found|] eqn:Hfound.
  { simpl. by apply wf_reference. }
  destruct (_getFreeID s) as [id s1] eqn:Hfree.
  destruct (getFreeID_spec _ _ _ Hwf Hfree)
    as (Hnone & Hb & Hmono & Hs & Hn & Hi & Hr & Hnotin & Hnd & Hsub).
  assert (Hfresh_s : ∀ k i, strings s !! k = Some i → i ≠ id).
  { intros k i Hk ->. apply (wf_strings _ Hwf) in Hk. congruence. }
  assert (Hfresh_n : ∀ k i, numbers s !! k = Some i → i ≠ id).
  { intros k i Hk ->. apply (wf_numbers _ Hwf) in Hk as (z & _ & Hk).
    congruence. }
  destruct v as [k0|z0]; simpl in *.
  - split; simpl; rewrite ?Hs, ?Hn, ?Hi, ?Hr.
    + intros k i. rewrite lookup_insert. case_decide as Hk.
      * intros [= <-]. subst. by rewrite lookup_insert_eq.
      * intros Hl. rewrite lookup_insert_ne by (symmetry; eauto).
        by apply (wf_strings _ Hwf).
    + intros k i Hl. rewrite lookup_insert_ne by (symmetry; eauto).
      by apply (wf_numbers _ Hwf).
    + intros i v. rewrite lookup_insert. case_decide as Hk.
      * intros [= <-]. subst. simpl. rewrite ?Hs. by rewrite lookup_insert_eq.
      * intros Hl. pose proof (wf_ids _ Hwf _ _ Hl) as Hc.
        destruct v as [k|z]; simpl in *; rewrite ?Hs, ?Hn; [|done].
        rewrite lookup_insert_ne; [done|]. intros <-. congruence.
    + intros i v. rewrite lookup_insert. case_decide as Hk.
      * intros _. subst. lia.
      * intros Hl. apply (wf_bound _ Hwf) in Hl. lia.
    + intros i Hin. pose proof (Hsub _ Hin) as Hin'.
      apply (wf_free _ Hwf) in Hin' as [? ?]. split; [lia|].
      rewrite lookup_insert_ne; [done|]. intros <-. done.
    + done.
    + lia.
    + intros i v. rewrite !lookup_insert. case_decide as Hk.
      * intros _. exists 1. split; [done|lia].
      * apply (wf_refs _ Hwf).
  - split; simpl; rewrite ?Hs, ?Hn, ?Hi, ?Hr.
    + intros k i Hl. rewrite lookup_insert_ne by (symmetry; eauto).
      by apply (wf_strings _ Hwf).
    + intros k i. rewrite lookup_insert. case_decide as Hk.
      * intros [= <-]. subst. exists z0. by rewrite lookup_insert_eq.
      * intros Hl. rewrite lookup_insert_ne by (symmetry; eauto).
        by apply (wf_numbers _ Hwf).
    + intros i v. rewrite lookup_insert. case_decide as Hk.
      * intros [= <-]. subst. simpl. rewrite ?Hn. by rewrite lookup_insert_eq.
      * intros Hl. pose proof (wf_ids _ Hwf _ _ Hl) as Hc.
        destruct v as [k|z]; simpl in *; rewrite ?Hs, ?Hn; [done|].
        rewrite lookup_insert_ne; [done|].
        intros Heq. apply (inj pretty) in Heq. subst. congruence.
    + intros i v. rewrite lookup_insert. case_decide as Hk.
      * intros _. subst. lia.
      * intros Hl. apply (wf_bound _ Hwf) in Hl. lia.
    + intros i Hin. pose proof (Hsub _ Hin) as Hin'.
      apply (wf_free _ Hwf) in Hin' as [? ?]. split; [lia|].
      rewrite lookup_insert_ne; [done|]. intros <-. done.
    + done.
    + lia.
    + intros i v. rewrite !lookup_insert. case_decide as Hk.
      * intros _. exists 1. split; [done|lia].
      * apply (wf_refs _ Hwf).
Qed.

Lemma wf_release id s : wf s → live s id → wf (release (Some id) s).
Proof.
  intros Hwf [v Hv]. unfold release. simpl.
  destruct (wf_refs _ Hwf _ _ Hv) as (n & Hn & Hpos).
  rewrite Hn, Hv. simpl. case_bool_decide as Hz.
  - assert (Hnotfree : id ∉ IDFreeList s).
    { intros Hin. apply (wf_free _ Hwf) in Hin as [_ ?]. congruence. }
    pose proof (wf_bound _ Hwf _ _ Hv) as Hb.
    destruct v as [k0|z0].
    + split; simpl.
      * intros k i. rewrite lookup_delete. case_decide; [done|].
        intros Hl. pose proof (wf_strings _ Hwf _ _ Hl) as Hi.
        rewrite lookup_delete_ne; [done|]. intros <-. congruence.
      * intros k i Hl. destruct (wf_numbers _ Hwf _ _ Hl) as (z & -> & Hi).
        exists z. split; [done|].
        rewrite lookup_delete_ne; [done|]. intros <-. congruence.
      * intros i v. rewrite lookup_delete. case_decide as Hk; [done|].
        intros Hl. pose proof (wf_ids _ Hwf _ _ Hl) as Hc.
        destruct v as [k|z]; simpl in *; [|done].
        rewrite lookup_delete_ne; [done|]. intros <-.
        pose proof (wf_ids _ Hwf _ _ Hv) as Hc'. simpl in Hc'. congruence.
      * intros i v. rewrite lookup_delete. case_decide as Hk; [done|].
        apply (wf_bound _ Hwf).
      * intros i [->|Hin]%elem_of_cons.
        -- split; [lia|]. by rewrite lookup_delete_eq.
        -- apply (wf_free _ Hwf) in Hin as [? Hnone]. split; [done|].
           rewrite lookup_delete. by case_decide.
      * apply NoDup_cons. split; [done|]. apply (wf_free_nodup _ Hwf).
      * apply (wf_counter _ Hwf).
      * intros i v. rewrite lookup_delete. case_decide as Hk; [done|].
        rewrite lookup_insert_ne by done. apply (wf_refs _ Hwf).
    + split; simpl.
      * intros k i Hl. pose proof (wf_strings _ Hwf _ _ Hl) as Hi.
        rewrite lookup_delete_ne; [done|]. intros <-. congruence.
      * intros k i. rewrite lookup_delete. case_decide; [done|].
        intros Hl. destruct (wf_numbers _ Hwf _ _ Hl) as (z & -> & Hi).
        exists z. split; [done|].
        rewrite lookup_delete_ne; [done|]. intros <-. congruence.
      * intros i v. rewrite lookup_delete. case_decide as Hk; [done|].
        intros Hl. pose proof (wf_ids _ Hwf _ _ Hl) as Hc.
        destruct v as [k|z]; simpl in *; [done|].
        rewrite lookup_delete_ne; [done|]. intros Heq.
        apply (inj pretty) in Heq. subst.
        pose proof (wf_ids _ Hwf _ _ Hv) as Hc'. simpl in Hc'. congruence.
      * intros i v. rewrite lookup_delete. case_decide as Hk; [done|].
        apply (wf_bound _ Hwf).
      * intros i [->|Hin]%elem_of_cons.
        -- split; [lia|]. by rewrite lookup_delete_eq.
        -- apply (wf_free _ Hwf) in Hin as [? Hnone]. split; [done|].
           rewrite lookup_delete. by case_decide.
      * apply NoDup_cons. split; [done|]. apply (wf_free_nodup _ Hwf).
      * apply (wf_counter _ Hwf).
      * intros i v. rewrite lookup_delete. case_decide as Hk; [done|].
        rewrite lookup_insert_ne by done. apply (wf_refs _ Hwf).
  - pose proof Hwf as [H1 H2 H3 H4 H5 H6 H7 H8].
    split; simpl; try assumption.
    intros i w Hi. destruct (decide (id = i)) as [Heq|Hne]; [subst i|].
    + rewrite lookup_insert_eq. exists (n - 1). split; [done|lia].
    + rewrite lookup_insert_ne by done. by apply (wf_refs _ Hwf _ w).
Qed.

Lemma reachable_wf s : reachable s → wf s.
Proof.
  induction 1; auto using wf_new, wf_intern, wf_reference, wf_release.
Qed.

(** Right after [intern v] the handed-out ID is the one registered for
    [v], and it reverses to [v]. *)
Lemma intern_registers v s :
  wf s →
  coll_lookup (intern v s).2 v = Some (intern v s).1 ∧
  reverse (intern v s).2 (intern v s).1 = Some v.
Proof.
  intros Hwf. unfold intern, reverse.
  destruct (coll_lookup s v) as [found|] eqn:Hfound; simpl.
  - split.
    + destruct v; simpl in *; done.
    + destruct v as [k|z]; simpl in *.
      * by apply (wf_strings _ Hwf).
      * destruct (wf_numbers _ Hwf _ _ Hfound) as (z' & Heq & Hi).
        apply (inj pretty) in Heq. by subst.
  - destruct (_getFreeID s) as [id s1] eqn:Hfree. simpl.
    rewrite lookup_insert_eq. split; [|done].
    destruct v; simpl; by rewrite lookup_insert_eq.
Qed.

(** An [intern] that has to allocate returns an ID that was not live. *)
Lemma intern_fresh v s :
  wf s → coll_lookup s v = None → IDs s !! (intern v s).1 = None.
Proof.
  intros Hwf Hnone. unfold intern. rewrite Hnone.
  destruct (_getFreeID s) as [id s1] eqn:Hfree. simpl.
  by destruct (getFreeID_spec _ _ _ Hwf Hfree) as (? & _).
Qed.




(** C9 (the code hands out [0]). On a new interner the first [intern]
    returns the ID [0], which is not a positive integer. *)
Theorem intern_first_id_is_zero v :
  (intern v new).1 = 0 ∧ ¬ (0 < (intern v new).1).
Proof. destruct v; simpl; split; (done || lia). Qed.

End InternerFacts.

Section OutputFacts.
Import Output.

Lemma resolveField_ignore_defined f prefix :
  isIgnore f = true → isUndefined (resolveField f prefix) = false.
Proof. by destruct f. Qed.

Lemma removeExec_guard node prefix :
  isUndefined (resolveField (fe node) prefix)
  || isUndefined (resolveField (fa node) prefix)
  || (isUndefined (resolveField (fv node) prefix) && negb (isIgnore (fv node)))
  || isUndefined (resolveField (fn node) prefix)
  = slotUndefined node prefix.
Proof.
  unfold slotUndefined. destruct (isIgnore (fv node)) eqn:Hv; simpl.
  - by rewrite (resolveField_ignore_defined _ _ Hv), andb_false_r.
  - by rewrite andb_true_r.
Qed.

Lemma execAll_app nodes1 nodes2 prefix tx b :
  execAll (nodes1 ++ nodes2) prefix tx b =
  rbind (execAll nodes1 prefix tx b) (execAll nodes2 prefix tx).
Proof.
  revert b. induction nodes1 as [|node nodes1 IH]; intros b; simpl; [done|].
  destruct (exec node prefix tx b) as [[r b1]|f]; simpl; [apply IH|done].
Qed.

(** C6, as the code has it. On a prefix in which a resolved e, a, v or n
    slot is undefined, an insert or commit-insert node throws, and the
    exception leaves the output wrapper before any change is handed to
    the transaction; a remove or commit-remove node returns [false]
    without an error and without emitting a change. *)
Theorem undefined_slot_insert_throws_remove_skips node prefix tx b :
  slotUndefined node prefix = true →
  match cl node with
  | InsertNode | CommitInsertNode =>
      exec node prefix tx b = Fail (Thrown undefinedMsg) ∧
      ∀ before after, ∃ f,
        wrapperExec (before ++ node :: after) prefix tx = Fail f
  | RemoveNode | CommitRemoveNode =>
      exec node prefix tx b = Ok (false, b)
  end.
Proof.
  intros Hu.
  assert (Hins : cl node = InsertNode ∨ cl node = CommitInsertNode →
                 ∀ b0, exec node prefix tx b0 = Fail (Thrown undefinedMsg)).
  { intros Hc b0. unfold exec, insertExec. fold (slotUndefined node prefix).
    rewrite Hu. by destruct Hc as [-> | ->]. }
  assert (Hrem : cl node = RemoveNode ∨ cl node = CommitRemoveNode →
                 exec node prefix tx b = Ok (false, b)).
  { intros Hc. unfold exec, removeExec. rewrite removeExec_guard, Hu.
    by destruct Hc as [-> | ->]. }
  destruct (cl node) eqn:Hcl; try (apply Hrem; auto).
  all: split; [apply Hins; auto|].
  all: intros before after; unfold wrapperExec; rewrite execAll_app.
  all: destruct (execAll before prefix tx noBuffers) as [b1|f]; simpl;
    [|by eexists].
  all: rewrite Hins by auto; simpl; by eexists.
Qed.

Lemma undefined_slot_insert_throws_remove_skips_witness :
  exec (mkNode CommitRemoveNode (Reg (mkRegister 0)) (Static 4) IGNORE_REG (Static 9))
       [None; Some 0; Some 1] 7 noBuffers = Ok (false, noBuffers).
Proof.
  apply (undefined_slot_insert_throws_remove_skips
           (mkNode CommitRemoveNode (Reg (mkRegister 0)) (Static 4)
                   IGNORE_REG (Static 9))
           [None; Some 0; Some 1] 7 noBuffers).
  reflexivity.
Defined.

(** C6 as stated fails for the remove classes: a [RemoveNode] whose entity
    register is unbound returns [false] and raises nothing. *)
Lemma remove_with_undefined_slot_raises_nothing :
  let node := mkNode RemoveNode (Reg (mkRegister 0)) (Static 4) (Static 5) (Static 9) in
  let prefix := [None; Some 0; Some 1] in
  slotUndefined node prefix = true ∧
  exec node prefix 7 noBuffers = Ok (false, noBuffers) ∧
  ¬ ∃ f, exec node prefix 7 noBuffers = Fail f.
Proof.
  simpl. split; [done|]. split; [done|]. by intros [f Hf].
Qed.

(** C10. Every change an insert, commit-insert, remove or commit-remove
    node emits carries the round of the deriving prefix plus one and the
    count of the prefix times the multiplier of the node, which is +1 for
    insert and commit-insert and -1 for remove and commit-remove. *)
Theorem emitted_round_and_count node prefix tx r b change :
  exec node prefix tx noBuffers = Ok (r, b) →
  change ∈ binds b ++ commits b →
  ∃ pr pc,
    prefixRound prefix = Some pr ∧ prefixCount prefix = Some pc ∧
    round change = pr + 1 ∧
    count change = pc * multiplier (cl node) ∧
    multiplier (cl node) =
      match cl node with
      | InsertNode | CommitInsertNode => 1
      | RemoveNode | CommitRemoveNode => -1
      end.
Proof.
  unfold exec, insertExec, removeExec. intros Hexec Hin.
  destruct (prefixRound prefix) as [pr|] eqn:Hr;
    destruct (prefixCount prefix) as [pc|] eqn:Hc.
  - exists pr, pc.
    destruct (cl node) eqn:Hcl; simpl in *;
      repeat match type of Hexec with
             | context [if ?c then _ else _] => destruct c
             end;
      simplify_eq; simpl in *;
      repeat match goal with
             | H : _ ∈ [] |- _ => by apply elem_of_nil in H
             | H : _ ∈ [_] |- _ => apply list_elem_of_singleton in H; subst
             end; try done.
  - destruct (cl node); simpl in *;
      repeat match type of Hexec with
             | context [if ?c then _ else _] => destruct c
             end; simplify_eq; simpl in *; by apply elem_of_nil in Hin.
  - destruct (cl node); simpl in *;
      repeat match type of Hexec with
             | context [if ?c then _ else _] => destruct c
             end; simplify_eq; simpl in *; by apply elem_of_nil in Hin.
  - destruct (cl node); simpl in *;
      repeat match type of Hexec with
             | context [if ?c then _ else _] => destruct c
             end; simplify_eq; simpl in *; by apply elem_of_nil in Hin.
Qed.

Lemma emitted_round_and_count_witness :
  ∃ pr pc,
    prefixRound [Some 3; Some 2; Some 5] = Some pr ∧
    prefixCount [Some 3; Some 2; Some 5] = Some pc ∧
    2 + 1 = pr + 1 ∧ 5 * -1 = pc * -1 ∧ -1 = -1.
Proof.
  apply (emitted_round_and_count
           (mkNode RemoveNode (Reg (mkRegister 0)) (Static 4) IGNORE_REG (Static 9))
           [Some 3; Some 2; Some 5] 7 true
           {| binds := [mkEmitted CRemoveVsChange (Bound 3) (Bound 4) Ignored
                                  (Bound 9) 7 (2 + 1) (5 * -1)];
              commits := [] |}
           (mkEmitted CRemoveVsChange (Bound 3) (Bound 4) Ignored (Bound 9)
                      7 (2 + 1) (5 * -1))).
  - reflexivity.
  - simpl. apply list_elem_of_singleton. reflexivity.
Defined.

End OutputFacts.

Section MultiplicityFacts.
Import Multiplicity.

Lemma length_withSlots p x y : length (withSlots p x y) = length p.
Proof. unfold withSlots, setCount, setRound. by rewrite !length_insert. Qed.

Lemma round_withSlots p x y :
  (2 ≤ length p)%nat → prefixRound (withSlots p x y) = x.
Proof.
  intros Hlen. unfold prefixRound, pget. rewrite length_withSlots.
  unfold withSlots, setCount, setRound. rewrite length_insert.
  rewrite list_lookup_insert_ne by lia.
  rewrite list_lookup_insert_eq by lia. done.
Qed.

Lemma count_withSlots p x y :
  (2 ≤ length p)%nat → prefixCount (withSlots p x y) = y.
Proof.
  intros Hlen. unfold prefixCount, pget. rewrite length_withSlots.
  unfold withSlots, setCount, setRound. rewrite length_insert.
  rewrite list_lookup_insert_eq by (rewrite length_insert; lia). done.
Qed.

Lemma withSlots_withSlots p x y x' y' :
  (2 ≤ length p)%nat →
  withSlots (withSlots p x y) x' y' = withSlots p x' y'.
Proof.
  intros Hlen. unfold withSlots, setCount, setRound.
  rewrite !length_insert.
  rewrite (list_insert_insert_ne _ (length p - 1) (length p - 2)) by lia.
  rewrite list_insert_insert_eq.
  rewrite (list_insert_insert_ne _ (length p - 2) (length p - 1)) by lia.
  rewrite list_insert_insert_eq. done.
Qed.


Lemma countUpTo_spec currentRound rounds ix acc :
  countUpTo currentRound rounds ix acc =
  ((ix + length (upTo currentRound rounds))%nat,
   acc + signSum (upTo currentRound rounds)).
Proof.
  revert ix acc. induction rounds as [|round rest IH]; intros ix acc; simpl.
  - f_equal; lia.
  - case_decide; simpl.
    + f_equal; lia.
    + rewrite IH. f_equal; lia.
Qed.

Lemma drop_upTo currentRound rounds :
  drop (length (upTo currentRound rounds)) rounds = later currentRound rounds.
Proof.
  induction rounds as [|round rest IH]; simpl; [done|].
  case_decide; simpl; done.
Qed.

(** The recursion pushes one copy of the prefix per derived pair, in
    order, and hands the prefix back as it got it. *)
Lemma computeMultiplicitiesFrom_spec currentRound diffs p r c results :
  (2 ≤ length p)%nat →
  computeMultiplicitiesFrom currentRound diffs
    (withSlots p (Some r) (Some c)) results =
  (withSlots p (Some r) (Some c),
   results ++ pairs p (derived currentRound diffs r c)).
Proof.
  intros Hlen. revert r c results.
  induction diffs as [|rounds rest IH]; intros r c results.
  - simpl. done.
  - cbn [computeMultiplicitiesFrom derived].
    rewrite round_withSlots, count_withSlots by done.
    rewrite countUpTo_spec. cbn [fst snd]. rewrite Nat.add_0_l, Z.add_0_l.
    rewrite drop_upTo.
    set (acc := signSum (upTo currentRound rounds)).
    set (body := λ (st : list (option Z) * list (list (option Z))) round, _).
    assert (Hstep : ∀ d a b res,
      body (withSlots p a b, res) d =
      (withSlots p (Some (Z.max (Z.abs d - 1) r)) (Some (c * sign d)),
       res ++ pairs p (derived currentRound rest (Z.max (Z.abs d - 1) r)
                               (c * sign d)))).
    { intros d a b res. unfold body. cbn [fst snd omax omul].
      fold (withSlots (withSlots p a b) (Some (Z.max (Z.abs d - 1) r))
                      (Some (c * sign d))).
      rewrite withSlots_withSlots by done. apply IH. }
    assert (Hfold : ∀ l a b res,
      ∃ a' b',
        fold_left body l (withSlots p a b, res) =
        (withSlots p a' b',
         res ++ pairs p (flat_map
                  (λ d, derived currentRound rest (Z.max (Z.abs d - 1) r)
                                (c * sign d)) l))).
    { induction l as [|d l IHl]; intros a b res.
      - exists a, b. simpl. by rewrite app_nil_r.
      - cbn [fold_left flat_map]. rewrite Hstep.
        destruct (IHl (Some (Z.max (Z.abs d - 1) r)) (Some (c * sign d))
                      (res ++ pairs p (derived currentRound rest
                                         (Z.max (Z.abs d - 1) r) (c * sign d))))
          as (a' & b' & ->).
        exists a', b'. f_equal. unfold pairs.
        by rewrite map_app, app_assoc. }
    clearbody body.
    destruct (decide (acc = 0)) as [Hz|Hnz].
    + destruct (Hfold (later currentRound rounds) (Some r) (Some c) results)
        as (a' & b' & ->).
      cbn [fst snd]. fold (withSlots (withSlots p a' b') (Some r) (Some c)).
      by rewrite withSlots_withSlots.
    + cbn [omax omul].
      fold (withSlots (withSlots p (Some r) (Some c))
                      (Some (Z.max currentRound r)) (Some (c * acc))).
      rewrite withSlots_withSlots by done. rewrite IH.
      destruct (Hfold (later currentRound rounds)
                      (Some (Z.max currentRound r)) (Some (c * acc))
                      (results ++ pairs p (derived currentRound rest
                                             (Z.max currentRound r) (c * acc))))
        as (a' & b' & ->).
      cbn [fst snd]. fold (withSlots (withSlots p a' b') (Some r) (Some c)).
      rewrite withSlots_withSlots by done.
      f_equal. unfold pairs. by rewrite map_app, app_assoc.
Qed.

Lemma computeMultiplicities_spec inputCount results p currentRound diffs :
  (2 ≤ length p)%nat →
  computeMultiplicities inputCount results p currentRound diffs =
  (withSlots p None None,
   results ++ pairs p (derived currentRound diffs currentRound inputCount)).
Proof.
  intros Hlen. unfold computeMultiplicities.
  fold (withSlots p (Some currentRound) (Some inputCount)).
  rewrite computeMultiplicitiesFrom_spec by done. cbn [fst snd].
  fold (withSlots (withSlots p (Some currentRound) (Some inputCount)) None None).
  by rewrite withSlots_withSlots.
Qed.







(** The result iterator only grows. *)
Lemma computeMultiplicitiesFrom_grows currentRound diffs p results :
  ∃ extra,
    (computeMultiplicitiesFrom currentRound diffs p results).2 =
    results ++ extra.
Proof.
  revert p results. induction diffs as [|rounds rest IH]; intros p results.
  - simpl. by eexists.
  - cbn [computeMultiplicitiesFrom].
    destruct (countUpTo currentRound rounds 0 0) as [ix crc].
    set (body := λ (st : list (option Z) * list (list (option Z))) round, _).
    assert (Hfold : ∀ l st, ∃ extra, (fold_left body l st).2 = st.2 ++ extra).
    { induction l as [|d l IHl]; intros st.
      - exists []. simpl. by rewrite app_nil_r.
      - cbn [fold_left]. destruct (IHl (body st d)) as [extra ->].
        unfold body at 1.
        match goal with
        | |- context [computeMultiplicitiesFrom ?a ?b ?c ?d] =>
            destruct (IH c d) as [extra' ->]
        end.
        exists (extra' ++ extra). by rewrite app_assoc. }
    cbn [snd].
    match goal with
    | |- context [fold_left body ?l ?st] =>
        destruct (Hfold l st) as [extra ->]
    end.
    case_decide.
    + cbn [snd]. by eexists.
    + match goal with
      | |- context [computeMultiplicitiesFrom ?a ?b ?c ?d] =>
          destruct (IH c d) as [extra' ->]
      end.
      exists (extra' ++ extra). by rewrite app_assoc.
Qed.

Lemma computeMultiplicities_grows inputCount results p currentRound diffs :
  ∃ extra,
    (computeMultiplicities inputCount results p currentRound diffs).2 =
    results ++ extra.
Proof. unfold computeMultiplicities. cbn [snd]. apply computeMultiplicitiesFrom_grows. Qed.

End MultiplicityFacts.

(** Case analysis on the first computation of a [rbind] that is known to
    succeed. *)
Ltac rbind_case x H :=
  match goal with
  | |- rbind ?m _ = _ → _ => destruct m as [x|] eqn:H; simpl; [|done]
  end.

Section JoinNodeFacts.
Import Join Multiplicity JoinNode.

Variable index : Index.
Variable node : JoinNode.t.
Variable transaction : Z.

Lemma extends_refl st : extends st st.
Proof. repeat split. exists []. by rewrite app_nil_r. Qed.

Lemma extends_trans st1 st2 st3 :
  extends st1 st2 → extends st2 st3 → extends st1 st3.
Proof.
  intros (Hd1 & Hl1 & e1 & He1) (Hd2 & Hl2 & e2 & He2).
  repeat split; [congruence|congruence|].
  exists (e1 ++ e2). rewrite He2, He1. by rewrite app_assoc.
Qed.

Lemma extends_withPrefix st p : extends st (withPrefix st p).
Proof. repeat split. exists []. simpl. by rewrite app_nil_r. Qed.

Lemma foldM_extends {A} (f : St → A → result St) l st st' :
  (∀ s x s', f s x = Ok s' → extends s s') →
  foldM f l st = Ok st' → extends st st'.
Proof.
  intros Hf. revert st. induction l as [|x l IH]; intros st; simpl.
  - intros [= ->]. apply extends_refl.
  - destruct (f st x) as [s1|] eqn:Hs1; simpl; [|done].
    intros Hrest. eapply extends_trans; eauto.
Qed.

Lemma prefixToResults_extends flags inputCount round st :
  extends st (prefixToResults index node flags inputCount round st).
Proof.
  unfold prefixToResults. repeat split. simpl.
  apply computeMultiplicities_grows.
Qed.

Lemma candidate_extends next proposer round forRegs bound s s' :
  (∀ s s', next s = Ok s' → extends s s') →
  candidate index node transaction next proposer round forRegs bound s = Ok s' →
  extends s s'.
Proof.
  intros Hnext. unfold candidate.
  destruct bound as [p|]; simpl; [|done].
  rbind_case ok Hok. destruct ok.
  - intros Hn%Hnext. eapply extends_trans; [apply extends_withPrefix|done].
  - intros [= <-]. apply extends_withPrefix.
Qed.

Lemma candidates_extends next proposer round forRegs resolved s s' :
  (∀ s s', next s = Ok s' → extends s s') →
  candidates index node transaction next proposer round forRegs resolved s
    = Ok s' →
  extends s s'.
Proof.
  intros Hnext. unfold candidates. destruct resolved as [values|rows];
    apply foldM_extends; intros ? ? ?; by apply candidate_extends.
Qed.

Lemma joinRound_extends next round n st st' :
  (∀ s s', next s = Ok s' → extends s s') →
  joinRound index node transaction next round n st = Ok st' →
  extends st st'.
Proof.
  intros Hnext. unfold joinRound.
  destruct (registerArrays st !! n) as [old|]; [|done].
  destruct (chosenProposal _ _ _ _ _) as [[pix best]|];
    [|intros [= ->]; apply extends_refl].
  destruct (constraints node !! pix) as [proposer|];
    [|intros [= ->]; apply extends_refl].
  rbind_case s1 Hloop. rbind_case p Hp.
  intros [= <-].
  apply candidates_extends in Hloop; [|done].
  eapply extends_trans; [|apply extends_withPrefix].
  eapply extends_trans; [|exact Hloop].
  repeat split; simpl; [by rewrite length_insert|].
  exists []. by rewrite app_nil_r.
Qed.

Lemma genericJoin_extends flags inputCount round roundIx st st' :
  genericJoin index node transaction flags inputCount round roundIx st = Ok st' →
  extends st st'.
Proof.
  revert st st'. induction roundIx as [|n IH]; intros st st'; [done|].
  cbn [genericJoin]. apply joinRound_extends.
  intros s s'. destruct n.
  - intros [= <-]. apply prefixToResults_extends.
  - apply IH.
Qed.

Lemma applyCombination_extends flags inputCount input round st done st' :
  applyCombination index node transaction flags inputCount input round st
    = Ok (done, st') →
  extends st st'.
Proof.
  unfold applyCombination.
  rbind_case valid Hv. destruct valid; simpl.
  - case_decide.
    + intros [= <- <-]. apply prefixToResults_extends.
    + rbind_case s Hg.
      intros [= <- <-]. by apply genericJoin_extends in Hg.
  - intros [= <- <-]. apply extends_refl.
Qed.

(** *** The proposal that Generic Join resolves *)

Abbreviation proposalOf c prefix round :=
  (cpropose index c prefix transaction round).






Lemma new_results_app st st' q :
  extends st st' →
  q ∈ drop (length (cur_results st)) (cur_results st') →
  ∃ extra, cur_results st' = cur_results st ++ extra ∧ q ∈ extra.
Proof.
  intros (_ & _ & extra & He). rewrite He, drop_app_length. eauto.
Qed.




(** *** Where the results of the node come from *)



















(** What a static node does with its [dormant] flag, for the method
    [exec] as well as for [downStreamExec]. *)
Lemma exec_dormancy input round st done st' :
  isStatic node = true →
  exec index node transaction input round st = Ok (done, st') →
  (done = true → dormant st' = true) ∧
  (dormant st = true →
   dormant st' = true ∧ (input ≠ BLOCK_REMOVE → done = false ∧ st' = st)).
Proof.
  intros Hs. unfold exec, becomeDormant. rewrite Hs. simpl.
  destruct input as [| |c].
  - rbind_case r Ha. destruct r as [d s].
    apply applyCombination_extends in Ha as (Hd & _).
    destruct d; simpl; intros [= <- <-]; simpl; split; try done.
    intros Hdorm. split; [congruence|done].
  - destruct (dormant st) eqn:Hdorm.
    + intros [= <- <-]. split; [done|]. intros _. by rewrite Hdorm.
    + rbind_case r Ha. destruct r as [d s].
      destruct d; simpl; intros [= <- <-]; simpl; split; done.
  - destruct (dormant st) eqn:Hdorm.
    + intros [= <- <-]. split; [done|]. intros _. by rewrite Hdorm.
    + rbind_case r Ha. destruct r as [d s].
      destruct d; simpl; intros [= <- <-]; simpl; split; done.
Qed.

Lemma downStreamExec_dormancy input st done st' :
  isStatic node = true →
  downStreamExec index node transaction input st = Ok (done, st') →
  (done = true → dormant st' = true) ∧
  (dormant st = true → dormant st' = true ∧ done = false ∧ st' = st).
Proof.
  intros Hs. unfold downStreamExec, becomeDormant. rewrite Hs. simpl.
  destruct (dormant st) eqn:Hdorm.
  - intros [= <- <-]. split; [done|]. intros _. by rewrite Hdorm.
  - rbind_case r Ha. destruct r as [d s].
    destruct d; simpl; intros [= <- <-]; simpl; split; done.
Qed.

End JoinNodeFacts.

Section StaticJoin.
Import Join Multiplicity JoinNode JoinSamples.

Lemma construct_static cs :
  forallb isStaticMove cs = true →
  isStatic (construct cs).1 = true ∧ noScans (construct cs).1 = true ∧
  dormant (construct cs).2 = false.
Proof.
  intros Hcs. unfold construct.
  destruct (fold_left _ cs _) as [lookup len]. simpl.
  assert (H : forallb isMove cs = true ∧
              forallb (λ c, match c with
                            | CMove m => move_isStatic m
                            | _ => true
                            end) cs = true ∧
              forallb (λ c, negb (isScan c)) cs = true).
  { induction cs as [|c cs IH]; simpl in *; [done|].
    apply andb_true_iff in Hcs as [Hc Hcs].
    destruct (IH Hcs) as (-> & -> & ->).
    destruct c; simpl in *; try done. by rewrite Hc. }
  destruct H as (-> & -> & ->). done.
Qed.

(** C8, as the code has it. A join node whose constraints are all
    move-constraints with static sources is static and starts awake; an
    execution that does something leaves it dormant; and once dormant it
    stays dormant whatever it is sent afterwards, a BLOCK_REMOVE
    included: no input resets the flag, so an ordinary input or a later
    BLOCK_ADD is not executed (the node returns [false] and changes
    nothing).  This holds for the [exec] the constructor installs and
    for the method [exec] of the class. *)
Theorem static_join_dormant_for_good index transaction cs :
  forallb isStaticMove cs = true →
  isStatic (construct cs).1 = true ∧
  dormant (construct cs).2 = false ∧
  ∀ input round st done st',
    (run index (construct cs).1 transaction input round st = Ok (done, st') ∨
     exec index (construct cs).1 transaction input round st = Ok (done, st')) →
    (done = true → dormant st' = true) ∧
    (dormant st = true →
     dormant st' = true ∧ (input ≠ BLOCK_REMOVE → done = false ∧ st' = st)).
Proof.
  intros Hcs. destruct (construct_static cs Hcs) as (Hs & Hn & Hd).
  split; [done|]. split; [done|].
  intros input round st done st' [Hrun|Hexec].
  - unfold run in Hrun. rewrite Hn in Hrun.
    apply downStreamExec_dormancy in Hrun as [H1 H2]; [|done].
    split; [done|]. intros Hdorm. destruct (H2 Hdorm) as (? & ? & ?). done.
  - by apply exec_dormancy in Hexec.
Qed.

Lemma static_join_dormant_for_good_witness :
  let node := (construct bindFive).1 in
  let st := enter (construct bindFive).2 [None; None; None] in
  let st1 := mkSt [None; None; None] [[Some 5; Some 0; Some 1]]
                  [[Some (mkRegister 0)]] true in
  forallb isStaticMove bindFive = true ∧
  run noIndex node 7 BLOCK_ADD 0 st = Ok (true, st1) ∧
  dormant st1 = true.
Proof.
  intros node st st1.
  assert (Hcs : forallb isStaticMove bindFive = true) by reflexivity.
  assert (Hrun : run noIndex node 7 BLOCK_ADD 0 st = Ok (true, st1))
    by (vm_compute; reflexivity).
  split; [exact Hcs|]. split; [exact Hrun|].
  destruct (static_join_dormant_for_good noIndex 7 bindFive Hcs)
    as (_ & _ & H).
  destruct (H BLOCK_ADD 0 st true st1 (or_introl Hrun)) as [Hd _].
  apply Hd. reflexivity.
Defined.

(** C8 as stated fails: after a BLOCK_ADD that executes the node, a
    BLOCK_REMOVE followed by a second BLOCK_ADD leaves the node dormant
    and the second BLOCK_ADD derives nothing. *)
Lemma block_remove_does_not_reset_dormancy :
  let node := (construct bindFive).1 in
  let fresh st := enter st [None; None; None] in
  ∃ st1 st2 st3,
    run noIndex node 7 BLOCK_ADD 0 (fresh (construct bindFive).2)
      = Ok (true, st1) ∧
    cur_results st1 = [[Some 5; Some 0; Some 1]] ∧ dormant st1 = true ∧
    run noIndex node 7 BLOCK_REMOVE 0 (fresh st1) = Ok (false, st2) ∧
    dormant st2 = true ∧
    run noIndex node 7 BLOCK_ADD 0 (fresh st2) = Ok (false, st3) ∧
    cur_results st3 = [] ∧ dormant st3 = true.
Proof.
  simpl. eexists _, _, _.
  split; [vm_compute; reflexivity|].
  split; [reflexivity|]. split; [reflexivity|].
  split; [vm_compute; reflexivity|]. split; [reflexivity|].
  split; [vm_compute; reflexivity|]. split; reflexivity.
Qed.

End StaticJoin.

Section JoinExamples.
Import Join Multiplicity JoinNode JoinSamples.



End JoinExamples.

(** ** Antijoin and choose *)

(** Case analysis on the decisions of the goal, for goals that compare two
    conditional sums. *)
Ltac decided :=
  repeat case_decide; try lia;
  try (exfalso;
       repeat match goal with H : _ ∧ _ |- _ => destruct H end;
       match goal with
       | H : ¬ _ |- _ =>
           apply H; repeat split; solve [done | lia | congruence]
       end).

Section ZeroingFacts.
Import Flow Flow.ZeroingIterator.

Lemma cell_beyond counts i : (length counts ≤ i)%nat → cell counts i = 0.
Proof. intros Hi. unfold cell. by rewrite lookup_ge_None_2. Qed.

Lemma sumBelow_ext f g n :
  (∀ i, (i < n)%nat → f i = g i) → sumBelow f n = sumBelow g n.
Proof.
  induction n as [|n IH]; intros Hfg; [done|].
  simpl. rewrite IH, Hfg; [done|lia|]. intros i Hi. apply Hfg. lia.
Qed.

Lemma sumBelow_beyond counts n k :
  (length counts ≤ n)%nat →
  sumBelow (cell counts) (n + k) = sumBelow (cell counts) n.
Proof.
  intros Hn. induction k as [|k IH].
  - by rewrite Nat.add_0_r.
  - rewrite Nat.add_succ_r. simpl. rewrite IH, cell_beyond; lia.
Qed.

Lemma sumBelow_past counts n n' :
  (length counts ≤ n)%nat → (n ≤ n')%nat →
  sumBelow (cell counts) n' = sumBelow (cell counts) n.
Proof.
  intros Hn Hle. replace n' with (n + (n' - n))%nat by lia.
  by apply sumBelow_beyond.
Qed.

Lemma netRounds_later rounds r :
  Forall (λ rc, (r < rc.1)%nat) rounds → netRounds rounds r = 0.
Proof.
  induction 1 as [|[r' c] rounds Hr _ IH]; [done|].
  simpl in *. rewrite IH. case_decide; [lia|done].
Qed.

(** The first loop of [next] finds the first round from [minRound] on
    at which the running count is 0. *)
Lemma firstZero_spec counts minRound steps roundIx final roundIx' countSum' :
  firstZero steps counts minRound roundIx (sumBelow (cell counts) roundIx)
    = (final, roundIx', countSum') →
  (∀ i, (roundIx ≤ i)%nat →
        (i < default (roundIx + steps)%nat final)%nat →
        (minRound ≤ i)%nat → sumBelow (cell counts) (S i) ≠ 0) ∧
  match final with
  | Some f =>
      (roundIx ≤ f)%nat ∧ (minRound ≤ f)%nat ∧ roundIx' = f ∧
      countSum' = 0 ∧ sumBelow (cell counts) (S f) = 0
  | None => True
  end.
Proof.
  revert roundIx.
  induction steps as [|steps IH]; intros roundIx Hrun; simpl in Hrun.
  - simplify_eq. simpl. split; [|done]. intros i ??. lia.
  - case_decide as Hzero.
    + simplify_eq. simpl. split; [intros i ??; lia|].
      destruct Hzero as [Hmin Hzero]. by repeat split; try lia.
    + apply (IH (S roundIx)) in Hrun as [Hbefore Hfinal].
      split.
      * intros i Hi Hlt Hmin.
        destruct (decide (i = roundIx)) as [->|Hne].
        { simpl. intros Hsum. apply Hzero. done. }
        apply Hbefore; [lia| |done].
        destruct final; simpl in *; lia.
      * destruct final; [|done].
        destruct Hfinal as (? & ? & ? & ? & ?). repeat split; try done. lia.
Qed.

(** The second loop of [next] finds the next round at which the running
    count, which is never negative, turns from 0 to positive or back. *)
Lemma nextChange_spec counts before steps roundIx final roundIx' countSum' :
  (∀ n, 0 ≤ sumBelow (cell counts) n) →
  0 ≤ before →
  (sumBelow (cell counts) roundIx = 0 ↔ before = 0) →
  nextChange steps counts before roundIx (sumBelow (cell counts) roundIx)
    = (final, roundIx', countSum') →
  (∀ i, (roundIx ≤ i)%nat →
        (i < default (roundIx + steps)%nat final)%nat →
        (sumBelow (cell counts) (S i) = 0 ↔ before = 0)) ∧
  match final with
  | Some f =>
      (roundIx ≤ f)%nat ∧ roundIx' = f ∧
      countSum' = sumBelow (cell counts) (S f) ∧
      ¬ (countSum' = 0 ↔ before = 0)
  | None => True
  end.
Proof.
  intros Hpos Hbefore. revert roundIx.
  induction steps as [|steps IH]; intros roundIx Hsame Hrun; simpl in Hrun.
  - simplify_eq. simpl. split; [|done]. intros i ??. lia.
  - case_decide as Hcur.
    + assert (sumBelow (cell counts) (S roundIx)
              = sumBelow (cell counts) roundIx) as Hstay.
      { simpl. lia. }
      rewrite <- Hstay in Hrun, Hsame.
      apply (IH (S roundIx)) in Hrun as [Hunchanged Hfinal]; [|done].
      split.
      * intros i Hi Hlt.
        destruct (decide (i = roundIx)) as [->|Hne]; [done|].
        apply Hunchanged; [lia|]. destruct final; simpl in *; lia.
      * destruct final; [|done].
        destruct Hfinal as (? & ? & ? & ?). repeat split; try done. lia.
    + change (sumBelow (cell counts) roundIx + cell counts roundIx)
        with (sumBelow (cell counts) (S roundIx)) in Hrun.
      pose proof (Hpos (S roundIx)) as Hnext.
      case_decide as Hturn.
      * simplify_eq. split; [intros i Hi Hlt; simpl in Hlt; lia|].
        split; [lia|]. split; [done|]. split; [done|]. lia.
      * apply (IH (S roundIx)) in Hrun as [Hunchanged Hfinal]; [|lia].
        split.
        -- intros i Hi Hlt.
           destruct (decide (i = roundIx)) as [->|Hne]; [lia|].
           apply Hunchanged; [lia|]. destruct final; simpl in *; lia.
        -- destruct final; [|done].
           destruct Hfinal as (? & ? & ? & ?). repeat split; try done. lia.
Qed.

(** After a round that the iterator has returned, the rounds that
    follow are those at which the running count turns from 0 to positive
    or back, each with the sign of the turn. *)
Lemma drain_turns counts minRound fuel r0 countSum0 count0 :
  (∀ n, 0 ≤ sumBelow (cell counts) n) →
  countSum0 = sumBelow (cell counts) (S r0) →
  (minRound ≤ r0)%nat →
  (length counts ≤ fuel + r0 + 1)%nat →
  Forall (λ rc, (r0 < rc.1)%nat)
         (drain fuel (mk counts (Z.of_nat r0) countSum0 minRound count0)) ∧
  ∀ r, (r0 ≤ r)%nat →
       netRounds
         (drain fuel (mk counts (Z.of_nat r0) countSum0 minRound count0)) r
       = (if decide (sumBelow (cell counts) (S r) = 0) then 1 else 0)
         - (if decide (countSum0 = 0) then 1 else 0).
Proof.
  intros Hpos. revert r0 countSum0 count0.
  assert (∀ r0 r, (length counts ≤ S r0)%nat → (r0 ≤ r)%nat →
            sumBelow (cell counts) (S r) = sumBelow (cell counts) (S r0))
    as Hflat.
  { intros r0 r ??. apply sumBelow_past; lia. }
  induction fuel as [|fuel IH]; intros r0 countSum0 count0 -> Hmin Hfuel.
  { split; [constructor|]. intros r Hr. cbn [drain netRounds foldr].
    rewrite (Hflat r0 r) by lia. lia. }
  cbn [drain]. unfold next.
  cbn [ZeroingIterator.counts roundIx countSum ZeroingIterator.minRound].
  replace (Z.to_nat (Z.of_nat r0 + 1)) with (S r0) by lia.
  case_decide as Hend.
  { split; [constructor|]. intros r Hr. cbn [drain netRounds foldr].
    rewrite (Hflat r0 r) by lia. lia. }
  rewrite decide_False by lia.
  destruct (nextChange _ _ _ _ _) as [[final roundIx'] countSum'] eqn:Hrun.
  apply nextChange_spec in Hrun as [Hsame Hfinal]; [|done|apply Hpos|done].
  destruct final as [f|].
  - destruct Hfinal as (Hf & -> & -> & Hturn).
    cbn [ZeroingIterator.count].
    set (count1 := if decide (sumBelow (cell counts) (S f) = 0)
                   then 1 else -1).
    assert (count1
            = (if decide (sumBelow (cell counts) (S f) = 0) then 1 else 0)
              - (if decide (sumBelow (cell counts) (S r0) = 0)
                 then 1 else 0)) as Hcount.
    { unfold count1. repeat case_decide; try lia; tauto. }
    destruct (IH f (sumBelow (cell counts) (S f)) count1 eq_refl)
      as [Hlater Hnet]; [lia|lia|].
    split.
    + constructor; [simpl; lia|].
      eapply Forall_impl; [exact Hlater|]. intros [] ?; simpl in *; lia.
    + intros r Hr. cbn [netRounds foldr].
      fold (netRounds
              (drain fuel
                 (mk counts (Z.of_nat f) (sumBelow (cell counts) (S f))
                     minRound count1)) r).
      destruct (decide (f ≤ r)%nat) as [Hfr|Hfr].
      * rewrite Hnet, Hcount by lia. lia.
      * rewrite netRounds_later.
        2:{ eapply Forall_impl; [exact Hlater|].
            intros [] ?; simpl in *; lia. }
        destruct (decide (r = r0)) as [->|Hne].
        { repeat case_decide; lia. }
        assert (sumBelow (cell counts) (S r) = 0
                ↔ sumBelow (cell counts) (S r0) = 0) as Hr'.
        { apply Hsame; simpl; lia. }
        repeat case_decide; try lia; tauto.
  - split; [constructor|]. intros r Hr. cbn [drain netRounds foldr].
    destruct (decide (r = r0)) as [->|Hne]; [lia|].
    assert (sumBelow (cell counts) (S r) = 0
            ↔ sumBelow (cell counts) (S r0) = 0) as Hr'.
    { destruct (decide (r ≤ length counts)%nat).
      - apply Hsame; simpl; lia.
      - rewrite (Hflat (length counts) r) by lia.
        apply Hsame; simpl; lia. }
    repeat case_decide; try lia; tauto.
Qed.

(** The rounds that a fresh iterator returns say, from [minRound] on,
    where the running count of the array is 0: their counts add up to 1
    at such a round and to 0 at any other. *)
Lemma rounds_reset counts minRound :
  counts ≠ [] →
  (∀ n, 0 ≤ sumBelow (cell counts) n) →
  Forall (λ rc, (minRound ≤ rc.1)%nat) (rounds (reset counts minRound)) ∧
  ∀ r, netRounds (rounds (reset counts minRound)) r
       = if decide ((minRound ≤ r)%nat ∧ sumBelow (cell counts) (S r) = 0)
         then 1 else 0.
Proof.
  intros Hne Hpos. unfold rounds, reset.
  cbn [ZeroingIterator.counts ZeroingIterator.minRound].
  rewrite Nat.add_succ_r. cbn [drain]. unfold next.
  cbn [ZeroingIterator.counts roundIx countSum ZeroingIterator.minRound].
  change (Z.to_nat (-1 + 1)) with 0%nat.
  rewrite decide_False by (destruct counts; simpl; [done|lia]).
  rewrite decide_True by lia. rewrite Nat.sub_0_r.
  destruct (firstZero _ _ _ _ _) as [[final roundIx'] countSum'] eqn:Hrun.
  change 0 with (sumBelow (cell counts) 0) in Hrun at 1.
  apply firstZero_spec in Hrun as [Hnone Hfinal].
  destruct final as [f|].
  - destruct Hfinal as (_ & Hmin & -> & -> & Hzero).
    cbn [ZeroingIterator.count]. rewrite decide_True by done.
    destruct (drain_turns counts minRound
                (length counts + minRound + 1) f 0 1 Hpos)
      as [Hlater Hnet]; [done|done|lia|].
    split.
    + constructor; [done|].
      eapply Forall_impl; [exact Hlater|]. intros [] ?; simpl in *; lia.
    + intros r. cbn [netRounds foldr].
      fold (netRounds
              (drain (length counts + minRound + 1)
                     (mk counts (Z.of_nat f) 0 minRound 1)) r).
      destruct (decide (f ≤ r)%nat) as [Hfr|Hfr].
      * rewrite Hnet by lia. repeat case_decide; try lia; tauto.
      * rewrite netRounds_later.
        2:{ eapply Forall_impl; [exact Hlater|].
            intros [] ?; simpl in *; lia. }
        rewrite decide_False; [done|]. intros [Hr Hz].
        apply (Hnone r); simpl; [lia|lia|done|done].
  - split; [constructor|]. intros r. cbn [netRounds foldr].
    rewrite decide_False; [done|]. intros [Hr Hz].
    set (bound := if decide (length counts ≤ minRound)%nat
                  then S minRound else length counts) in *.
    assert (length counts ≤ bound)%nat by (unfold bound; case_decide; lia).
    assert (minRound < bound)%nat by (unfold bound; case_decide; lia).
    destruct (decide (r < bound)%nat).
    + apply (Hnone r); simpl; [lia|lia|done|done].
    + apply (Hnone (bound - 1)%nat); [lia|simpl; lia|lia|].
      rewrite <- Hz. symmetry. apply sumBelow_past; lia.
Qed.

End ZeroingFacts.

Section AntiJoinFacts.
Import Flow.

Context {Distinct : Type}.
Variable newDistinct : Distinct.
Variable distinctKey : string → Z → Z → Distinct → list (Z * Z) * Distinct.

Lemma cell_bump counts round count r :
  cell (bump counts round count) r
  = cell counts r + (if decide (r = round) then count else 0).
Proof.
  unfold bump, cell. case_decide as Hlen.
  - destruct (decide (r = round)) as [->|Hne].
    + rewrite list_lookup_insert_eq by done. simpl.
      destruct (counts !! round); simpl; lia.
    + rewrite list_lookup_insert_ne by done. lia.
  - destruct (decide (r < length counts)%nat).
    { rewrite lookup_app_l by done. rewrite decide_False by lia. lia. }
    rewrite lookup_app_r by lia.
    rewrite (lookup_ge_None_2 counts r) by lia. simpl.
    destruct (decide (r - length counts < round - length counts)%nat).
    { rewrite lookup_app_l by (rewrite length_replicate; lia).
      rewrite lookup_replicate_2 by lia. rewrite decide_False by lia.
      done. }
    rewrite lookup_app_r by (rewrite length_replicate; lia).
    rewrite length_replicate.
    destruct (decide (r = round)) as [->|Hne].
    + by rewrite Nat.sub_diag.
    + destruct (r - length counts - (round - length counts))%nat eqn:Hd;
        [lia|done].
Qed.

Lemma bump_nonempty counts round count : bump counts round count ≠ [].
Proof.
  unfold bump. case_decide as Hlen.
  - intros Hnil. apply (f_equal length) in Hnil.
    rewrite length_insert in Hnil. simpl in Hnil. lia.
  - intros Hnil. apply (f_equal length) in Hnil.
    rewrite !length_app in Hnil. simpl in Hnil. lia.
Qed.

Lemma allZero_cell counts r : allZero counts = true → cell counts r = 0.
Proof.
  unfold allZero, cell. rewrite forallb_forall. intros Hall.
  destruct (counts !! r) as [c|] eqn:Hr; [|done]. simpl.
  apply list_elem_of_lookup_2, list_elem_of_In, Hall in Hr.
  by apply bool_decide_eq_true in Hr.
Qed.

Lemma roundAndCount_Ok prefix round count :
  roundAndCount prefix = Ok (round, count) →
  (2 ≤ length prefix)%nat ∧
  prefixRound prefix = Some (Z.of_nat round) ∧
  prefixCount prefix = Some count.
Proof.
  unfold roundAndCount. intros Hrc.
  repeat case_match; simplify_eq.
  split; [lia|]. split; [f_equal; lia|done].
Qed.

Lemma roundAndCount_stamped prefix round count :
  (2 ≤ length prefix)%nat →
  roundAndCount (stamped prefix (Z.of_nat round) count) = Ok (round, count).
Proof.
  intros Hlen. unfold roundAndCount, stamped, setCount, setRound.
  unfold prefixRound, prefixCount, pget.
  rewrite !length_insert. rewrite decide_False by lia.
  rewrite list_lookup_insert_ne by lia.
  rewrite !list_lookup_insert_eq by (rewrite ?length_insert; lia).
  simpl. rewrite decide_False by lia. by rewrite Nat2Z.id.
Qed.

Lemma stamped_same prefix round count :
  roundAndCount prefix = Ok (round, count) →
  stamped prefix (Z.of_nat round) count = prefix.
Proof.
  intros (Hlen & Hround & Hcount)%roundAndCount_Ok.
  unfold stamped, setCount, setRound. rewrite length_insert.
  unfold prefixRound, prefixCount, pget in *.
  destruct (prefix !! (length prefix - 2)%nat) as [x|] eqn:Hx;
    simpl in Hround; [subst x|done].
  destruct (prefix !! (length prefix - 1)%nat) as [y|] eqn:Hy;
    simpl in Hcount; [subst y|done].
  rewrite (list_insert_id prefix (length prefix - 2)) by done.
  by rewrite list_insert_id.
Qed.

(** [insert] adds the count of the prefix to the slot of its round, in
    the array of its key, and keeps no array without slots. *)
Lemma insert_cells key prefix round count index index' :
  roundAndCount prefix = Ok (round, count) →
  KeyOnlyIntermediateIndex.insert key prefix index = Ok index' →
  (∀ k r,
     cell (default [] (index' !! k)) r
     = cell (default [] (index !! k)) r
       + (if decide (key = k ∧ r = round) then count else 0)) ∧
  ((∀ k, index !! k ≠ Some []) → ∀ k, index' !! k ≠ Some []).
Proof.
  intros Hrc. unfold KeyOnlyIntermediateIndex.insert. rewrite Hrc.
  cbn [rbind].
  set (counts := bump (default [] (index !! key)) round count).
  assert (∀ r, cell counts r
               = cell (default [] (index !! key)) r
                 + (if decide (r = round) then count else 0)) as Hcells.
  { intros r. apply cell_bump. }
  intros Hins.
  assert ((index' = <[key := counts]> index)
          ∨ (index' = delete key index ∧ allZero counts = true))
    as [->|[-> Hzero]].
  { repeat case_match; simplify_eq; auto. }
  - split.
    + intros k r. destruct (decide (k = key)) as [->|Hne].
      * rewrite lookup_insert_eq. simpl. rewrite Hcells.
        repeat case_decide; try lia; tauto.
      * rewrite lookup_insert_ne by done.
        rewrite decide_False by (intros [? ?]; by apply Hne). lia.
    + intros Hwf k. destruct (decide (k = key)) as [->|Hne].
      * rewrite lookup_insert_eq. intros [= Hnil].
        by apply bump_nonempty in Hnil.
      * rewrite lookup_insert_ne by done. apply Hwf.
  - split.
    + intros k r. destruct (decide (k = key)) as [->|Hne].
      * rewrite lookup_delete_eq. simpl.
        pose proof (allZero_cell counts r Hzero) as Hr.
        rewrite Hcells in Hr. change (cell [] r) with 0.
        repeat case_decide; try lia; tauto.
      * rewrite lookup_delete_ne by done.
        rewrite decide_False by (intros [? ?]; by apply Hne). lia.
    + intros Hwf k. destruct (decide (k = key)) as [->|Hne].
      * by rewrite lookup_delete_eq.
      * rewrite lookup_delete_ne by done. apply Hwf.
Qed.

Lemma tally_snoc keys seen prefix round count key r :
  roundAndCount prefix = Ok (round, count) →
  tally keys (seen ++ [prefix]) key r
  = tally keys seen key r
    + (if decide (CreateKeyFunction keys prefix = key ∧ r = round)
       then count else 0).
Proof.
  intros Hrc. unfold tally. induction seen as [|p seen IH]; simpl.
  - rewrite Hrc.
    destruct (decide (CreateKeyFunction keys prefix = key ∧ r = round))
      as [[? ->]|Hno].
    + rewrite decide_True by done. lia.
    + rewrite decide_False; [done|]. intros [? ->]. by apply Hno.
  - rewrite IH. repeat case_match; lia.
Qed.

(** The right index of an antijoin holds what the prefixes that it was
    given on the right add up to. *)
Lemma ran_rightIndex keys lefts seen results anti :
  ran newDistinct distinctKey keys lefts seen results anti →
  keyRegisters anti = keys ∧
  (∀ key r,
     cell (default [] (rightIndex anti !! key)) r = tally keys seen key r) ∧
  (∀ key, rightIndex anti !! key ≠ Some []).
Proof.
  induction 1 as [|lefts seen results anti prefix pushed anti' _ IH Hleft
                  |lefts seen results anti prefix pushed anti' _ IH Hright].
  - split; [done|]. split; [|done]. intros key r. simpl.
    by rewrite lookup_empty.
  - destruct IH as (Hkeys & Hcells & Hwf).
    unfold onLeft in Hleft.
    destruct (roundAndCount prefix) as [[round count]|]; [|done].
    cbn [rbind] in Hleft.
    destruct (IntermediateIndex.insert _ _ _); [|done].
    cbn [rbind] in Hleft.
    assert (keyRegisters anti' = keyRegisters anti
            ∧ rightIndex anti' = rightIndex anti) as [Hk Hr].
    { case_match; by simplify_eq. }
    by rewrite Hk, Hr.
  - destruct IH as (Hkeys & Hcells & Hwf).
    unfold onRight in Hright.
    destruct (roundAndCount prefix) as [[round count]|] eqn:Hrc; [|done].
    cbn [rbind] in Hright.
    destruct (KeyOnlyIntermediateIndex.insert _ _ _) as [index'|] eqn:Hins;
      [|done].
    cbn [rbind] in Hright.
    destruct (distinctKey _ _ _ _) as [neue distinct'].
    assert (keyRegisters anti' = keyRegisters anti
            ∧ rightIndex anti' = index') as [Hk Hr].
    { case_match; by simplify_eq. }
    rewrite Hk, Hr.
    destruct (insert_cells _ _ _ _ _ _ Hrc Hins) as [Hcells' Hwf'].
    split; [done|]. split; [|by apply Hwf'].
    intros key r. rewrite Hcells', Hcells, (tally_snoc _ _ _ _ _ _ _ Hrc).
    by rewrite Hkeys.
Qed.

Lemma net_stamped prefix count rounds r :
  (2 ≤ length prefix)%nat →
  net (map (λ '(currentRound, diffCount),
              stamped prefix (Z.of_nat currentRound) (diffCount * count))
           rounds) r
  = netRounds rounds r * count.
Proof.
  intros Hlen. induction rounds as [|[cr dc] rounds IH]; [done|].
  cbn [map net netRounds foldr].
  fold (net (map (λ '(currentRound, diffCount),
                    stamped prefix (Z.of_nat currentRound)
                            (diffCount * count)) rounds) r).
  fold (netRounds rounds r).
  rewrite roundAndCount_stamped by done. rewrite IH.
  case_decide; lia.
Qed.

Lemma sumBelow_zero f n : (∀ i, f i = 0) → sumBelow f n = 0.
Proof.
  intros Hf. induction n as [|n IH]; [done|]. simpl. rewrite IH, Hf. done.
Qed.

Lemma intermediate_insert_Ok key prefix round count index :
  roundAndCount prefix = Ok (round, count) →
  ∃ index', IntermediateIndex.insert key prefix index = Ok index'.
Proof.
  intros Hrc. unfold IntermediateIndex.insert. rewrite Hrc. cbn [rbind].
  by eexists.
Qed.

(** What [onLeft] pushes for a prefix: copies of the prefix, from its
    round on, whose counts add up to the count of the prefix at the
    rounds at which nothing is present on the right for its key, and to
    0 at the others. *)
Lemma onLeft_net keys lefts seen results anti prefix round count :
  ran newDistinct distinctKey keys lefts seen results anti →
  roundAndCount prefix = Ok (round, count) →
  (∀ r, 0 ≤ present keys seen (CreateKeyFunction keys prefix) r) →
  ∃ pushed anti',
    onLeft anti prefix = Ok (pushed, anti') ∧
    Forall (λ q, ∃ r c, (round ≤ r)%nat
                        ∧ q = stamped prefix (Z.of_nat r) c) pushed ∧
    ∀ r, net pushed r
         = if decide ((round ≤ r)%nat
                      ∧ present keys seen (CreateKeyFunction keys prefix) r
                        = 0)
           then count else 0.
Proof.
  intros Hran Hrc Hpos.
  destruct (ran_rightIndex _ _ _ _ _ Hran) as (Hkeys & Hcells & Hwf).
  destruct (roundAndCount_Ok _ _ _ Hrc) as (Hlen & _ & _).
  unfold onLeft. rewrite Hrc. cbn [rbind].
  destruct (intermediate_insert_Ok
              (CreateKeyFunction (keyRegisters anti) prefix) prefix round
              count (leftIndex anti) Hrc) as [leftIndex' ->].
  cbn [rbind]. rewrite Hkeys.
  set (key := CreateKeyFunction keys prefix) in *.
  unfold KeyOnlyIntermediateIndex.iter.
  specialize (Hcells key). specialize (Hwf key).
  assert (∀ n, sumBelow (tally keys seen key) n
               = sumBelow (cell (default [] (rightIndex anti !! key))) n)
    as Hsum.
  { intros n. apply sumBelow_ext. intros i _. by rewrite Hcells. }
  unfold present in *.
  destruct (rightIndex anti !! key) as [counts|]; simpl in Hsum.
  - destruct (rounds_reset counts round) as [Hfrom Hnet].
    { intros ->. by apply Hwf. }
    { intros [|n]; [done|]. rewrite <- Hsum. apply Hpos. }
    eexists _, _. split; [done|]. split.
    + apply Forall_map. eapply Forall_impl; [exact Hfrom|].
      intros [r c] Hr. simpl in *. by exists r, (c * count).
    + intros r. rewrite net_stamped by done. rewrite Hnet, Hsum.
      case_decide; lia.
  - eexists _, _. split; [done|]. split.
    + constructor; [|constructor]. exists round, count.
      split; [done|]. symmetry. by apply stamped_same.
    + intros r. cbn [net foldr]. rewrite Hrc, Hsum.
      rewrite sumBelow_zero by (intros i; apply cell_beyond; simpl; lia).
      repeat case_decide; try lia; tauto.
Qed.

End AntiJoinFacts.


Section IntermediateFacts.
Import Flow Flow.IntermediateIndex.

Lemma firstNonZero_laterYields steps counts countIx :
  let found := firstNonZero steps counts countIx in
  if decide (found.1 = 0) then
    laterYields steps counts countIx = [] ∧
    found.2 = (countIx + steps)%nat
  else
    (countIx ≤ found.2)%nat ∧ (found.2 < countIx + steps)%nat ∧
    laterYields steps counts countIx
    = (prefix counts, Z.of_nat found.2 - 1, found.1)
      :: laterYields (countIx + steps - S found.2) counts (S found.2).
Proof.
  revert countIx. induction steps as [|steps IH]; intros countIx.
  - simpl. split; [done|lia].
  - cbn [firstNonZero laterYields].
    destruct (decide (countAt counts countIx = 0)) as [Hz|Hnz].
    + specialize (IH (S countIx)). cbn zeta in IH.
      destruct (firstNonZero steps counts (S countIx)) as [cur ix].
      cbn [fst snd] in *. case_decide.
      * destruct IH as [-> ->]. split; [done|lia].
      * destruct IH as (? & ? & ->). split; [lia|]. split; [lia|].
        simpl. do 2 f_equal. lia.
    + cbn [fst snd]. rewrite decide_False by done.
      split; [lia|]. split; [lia|]. simpl. do 2 f_equal. lia.
Qed.

Lemma turns_cons kv values :
  turns (kv :: values) = (3 + length (rounds kv.2) + turns values)%nat.
Proof. unfold turns. simpl. lia. Qed.

Lemma turns_pos values : (1 ≤ turns values)%nat.
Proof. unfold turns. lia. Qed.

(** What the loop collects once [advance] has made its step, given what
    it collects from the middle of a value on with the fuel that is
    left. *)
Lemma advance_collect vals mr fuel it0 rest j valueKey counts countIx :
  (1 ≤ mr)%nat →
  (∀ rest j valueKey counts countIx rnd cnt,
     drop (S j) vals = rest →
     vals !! j = Some (valueKey, counts) →
     (mr ≤ S countIx)%nat →
     (S (length (rounds counts)) - countIx + turns rest ≤ fuel)%nat →
     collect fuel (mkIterator vals j countIx (Some counts) rnd cnt
                              (Z.of_nat mr))
     = laterYields (S (length (rounds counts)) - S countIx) counts
                   (S countIx)
       ++ flat_map (yieldsOf mr) (map snd rest)) →
  values it0 = vals → minRound it0 = Z.of_nat mr →
  drop (S j) vals = rest →
  vals !! j = Some (valueKey, counts) →
  (countIx = 1%nat ∨ (mr ≤ countIx)%nat) →
  (1 ≤ countIx)%nat →
  (S (length (rounds counts)) - countIx + turns rest ≤ fuel)%nat →
  match advance it0 j counts countIx with
  | Finished _ => []
  | Empty it' => collect fuel it'
  | Found p it' =>
      (p, IntermediateIndex.round it', IntermediateIndex.count it')
      :: collect fuel it'
  end
  = (if decide (countIx = 1%nat) then yieldsOf mr counts
     else laterYields (S (length (rounds counts)) - countIx) counts countIx)
    ++ flat_map (yieldsOf mr) (map snd rest).
Proof.
  intros Hmin IH Hvalues Hmr Hrest Hj Hix Hpos Hfuel.
  unfold advance. rewrite Hvalues, Hmr, Nat2Z.id.
  destruct (decide (Z.of_nat countIx < Z.of_nat mr)) as [Hagg|Hscan].
  - assert (countIx = 1%nat) as -> by lia.
    replace (mr + 1 - 1)%nat with mr by lia.
    rewrite (decide_True (P := 1%nat = 1%nat)) by done. unfold yieldsOf.
    rewrite (decide_True (P := (1 < mr)%nat)) by lia.
    assert (collect fuel
              (mkIterator vals j mr (Some counts)
                 (Z.of_nat mr - 1) (sumCells mr counts 1) (Z.of_nat mr))
            = laterYields (length (rounds counts) - mr) counts (S mr)
              ++ flat_map (yieldsOf mr) (map snd rest)) as Hnext.
    { erewrite IH; [done|done|done|lia|lia]. }
    destruct (decide (sumCells mr counts 1 = 0)) as [Hz|Hnz].
    + simpl. exact Hnext.
    + cbn [IntermediateIndex.round IntermediateIndex.count].
      simpl. by rewrite Hnext.
  - pose proof (firstNonZero_laterYields
                  (S (length (rounds counts)) - countIx) counts countIx)
      as Hfound. cbn zeta in Hfound.
    destruct (firstNonZero _ counts countIx) as [cur ix].
    cbn [fst snd] in Hfound.
    assert ((if decide (countIx = 1%nat) then yieldsOf mr counts
             else laterYields (S (length (rounds counts)) - countIx)
                              counts countIx)
            = laterYields (S (length (rounds counts)) - countIx)
                          counts countIx) as ->.
    { destruct (decide (countIx = 1%nat)) as [->|Hone]; [|done].
      unfold yieldsOf. rewrite decide_False by lia. f_equal. lia. }
    destruct (decide (cur = 0)) as [Hz|Hnz].
    + destruct Hfound as [-> ->]. simpl.
      erewrite IH; [|done|done|lia|lia].
      replace (S (length (rounds counts))
               - S (countIx + (S (length (rounds counts)) - countIx)))%nat
        with 0%nat by lia.
      done.
    + destruct Hfound as (Hle & Hlt & ->).
      cbn [IntermediateIndex.round IntermediateIndex.count].
      rewrite <- app_comm_cons. f_equal.
      erewrite IH; [|done|done|lia|lia].
      do 2 f_equal. lia.
Qed.

(** What the loop collects from the middle of a value on: the counts of
    the value that are left, and then what every later value yields. *)
Lemma collect_scan vals mr :
  (1 ≤ mr)%nat →
  ∀ fuel rest j valueKey counts countIx rnd cnt,
    drop (S j) vals = rest →
    vals !! j = Some (valueKey, counts) →
    (mr ≤ S countIx)%nat →
    (S (length (rounds counts)) - countIx + turns rest ≤ fuel)%nat →
    collect fuel (mkIterator vals j countIx (Some counts) rnd cnt
                             (Z.of_nat mr))
    = laterYields (S (length (rounds counts)) - S countIx) counts
                  (S countIx)
      ++ flat_map (yieldsOf mr) (map snd rest).
Proof.
  intros Hmin. induction fuel as [|fuel IH];
    intros rest j valueKey counts countIx rnd cnt Hrest Hj Hpast Hfuel.
  { pose proof (turns_pos rest). lia. }
  cbn [collect]. unfold step.
  cbn [currentCounts IntermediateIndex.countIx IntermediateIndex.values
       valueIx].
  destruct (decide (S (length (rounds counts)) ≤ S countIx)%nat)
    as [Hend|Hin].
  - replace (S (length (rounds counts)) - S countIx)%nat with 0%nat by lia.
    cbn [laterYields app].
    destruct (vals !! S j) as [[valueKey' counts']|] eqn:Hnext.
    + rewrite (drop_S _ _ _ Hnext) in Hrest. subst rest.
      rewrite turns_cons in Hfuel. cbn [snd] in Hfuel.
      rewrite (advance_collect vals mr fuel _ (drop (S (S j)) vals) (S j)
                 valueKey' counts' 1%nat);
        [|done|exact IH|done|done|done|done|by left|done|lia].
      by rewrite decide_True by done.
    + apply lookup_ge_None_1 in Hnext.
      rewrite drop_ge in Hrest by lia. by subst rest.
  - rewrite (advance_collect vals mr fuel _ rest j valueKey counts
               (S countIx));
      [|done|exact IH|done|done|done|done|by right|lia|lia].
    destruct (decide (S countIx = 1%nat)) as [Hone|Hone]; [|done].
    injection Hone as ->. unfold yieldsOf.
    rewrite decide_False by lia. do 2 f_equal. lia.
Qed.


Lemma netYields_app ys1 ys2 valueKey r :
  netYields (ys1 ++ ys2) valueKey r
  = netYields ys1 valueKey r + netYields ys2 valueKey r.
Proof.
  induction ys1 as [|[[p rnd] cnt] ys1 IH]; simpl; [done|].
  rewrite IH. case_decide; lia.
Qed.

Lemma sumCells_sumBelow steps counts i :
  sumCells steps counts (S i)
  = sumBelow (cell (rounds counts)) (i + steps)
    - sumBelow (cell (rounds counts)) i.
Proof.
  revert i. induction steps as [|steps IH]; intros i; simpl.
  - rewrite Nat.add_0_r. lia.
  - rewrite IH. unfold countAt. rewrite Nat.add_succ_r. simpl.
    rewrite Nat.sub_0_r. lia.
Qed.

(** The counts of a value from a round on add up to the running count
    less what came before the round. *)
Lemma laterYields_net steps counts i valueKey r :
  (length (rounds counts) ≤ i + steps)%nat →
  Forall (λ y, Z.of_nat i ≤ y.1.2 ∧ y.1.1 = prefix counts)
         (laterYields steps counts (S i)) ∧
  netYields (laterYields steps counts (S i)) valueKey r
  = if decide (hashPrefix (prefix counts) = valueKey ∧ (i ≤ S r)%nat)
    then sumBelow (cell (rounds counts)) (S r)
         - sumBelow (cell (rounds counts)) i
    else 0.
Proof.
  revert i. induction steps as [|steps IH]; intros i Hcover.
  - split; [constructor|]. cbn [laterYields netYields foldr].
    case_decide as Hcase; [|done].
    destruct Hcase as [_ Hi].
    rewrite (sumBelow_past (rounds counts) i (S r)) by lia. lia.
  - destruct (IH (S i)) as [Hall Hnet]; [lia|].
    cbn [laterYields].
    assert (Forall (λ y : Prefix * Z * Z,
                      Z.of_nat i ≤ y.1.2 ∧ y.1.1 = prefix counts)
                   (laterYields steps counts (S (S i)))) as Hall'.
    { eapply Forall_impl; [exact Hall|]. intros [[p rnd] cnt] [? ?].
      simpl in *. split; [lia|done]. }
    assert (sumBelow (cell (rounds counts)) (S i)
            = sumBelow (cell (rounds counts)) i + cell (rounds counts) i)
      as Hstep by done.
    unfold countAt. replace (S i - 1)%nat with i by lia.
    destruct (decide (cell (rounds counts) i = 0)) as [Hz|Hnz].
    + split; [done|]. cbn [app]. rewrite Hnet.
      repeat case_decide; try lia.
      all: try (assert (i = S r) as -> by (intuition lia); lia).
      all: exfalso; intuition lia.
    + split.
      * constructor; [|done]. simpl. split; [lia|done].
      * cbn [app netYields foldr].
        fold (netYields (laterYields steps counts (S (S i))) valueKey r).
        rewrite Hnet.
        repeat case_decide; try lia.
        all: try (assert (i = S r) as -> by (intuition lia); lia).
        all: exfalso; intuition lia.
Qed.

(** What a value yields adds up, from the round of the iterator on, to
    the running count of the value. *)
Lemma yieldsOf_net round counts valueKey r :
  Forall (λ y, Z.of_nat round ≤ y.1.2 ∧ y.1.1 = prefix counts)
         (yieldsOf (S round) counts) ∧
  netYields (yieldsOf (S round) counts) valueKey r
  = if decide (hashPrefix (prefix counts) = valueKey ∧ (round ≤ r)%nat)
    then sumBelow (cell (rounds counts)) (S r)
    else 0.
Proof.
  unfold yieldsOf. destruct (decide (1 < S round)%nat) as [Hagg|Hscan].
  - destruct (laterYields_net (length (rounds counts) - S round) counts
                (S round) valueKey r) as [Hall Hnet]; [lia|].
    pose proof (sumCells_sumBelow (S round) counts 0) as Hsum.
    cbn [plus sumBelow] in Hsum.
    change (sumBelow (cell (rounds counts)) round
            + cell (rounds counts) round)
      with (sumBelow (cell (rounds counts)) (S round)) in Hsum.
    assert (Forall (λ y : Prefix * Z * Z,
                      Z.of_nat round ≤ y.1.2 ∧ y.1.1 = prefix counts)
              (laterYields (length (rounds counts) - S round) counts
                           (S (S round)))) as Hall'.
    { eapply Forall_impl; [exact Hall|]. intros [[p rnd] cnt] [? ?].
      simpl in *. split; [lia|done]. }
    rewrite netYields_app, Hnet.
    destruct (decide (sumCells (S round) counts 1 = 0)) as [Hz|Hnz].
    + split; [done|]. cbn [netYields foldr].
      repeat case_decide; try lia; exfalso; intuition lia.
    + split.
      * constructor; [|done]. simpl. split; [lia|done].
      * cbn [netYields foldr].
        repeat case_decide; try lia; exfalso; intuition lia.
  - assert (round = 0%nat) as -> by lia.
    destruct (laterYields_net (length (rounds counts)) counts 0 valueKey r)
      as [Hall Hnet]; [lia|].
    split; [done|]. rewrite Hnet. cbn [sumBelow].
    repeat case_decide; try lia; exfalso; intuition lia.
Qed.

Lemma roundsOf_absent valueKey vals :
  valueKey ∉ map fst vals → roundsOf valueKey vals = [].
Proof.
  unfold roundsOf. induction vals as [|[k c] vals IH]; [done|].
  simpl. intros Hnot. rewrite not_elem_of_cons in Hnot.
  destruct Hnot as [Hne Hnot]. rewrite decide_False by done. by apply IH.
Qed.

(** What the values of a key yield adds up, for a value key, to the
    running count of that value. *)
Lemma yields_net round vals valueKey r :
  wellKept vals →
  Forall (λ y, Z.of_nat round ≤ y.1.2
               ∧ ∃ kv, kv ∈ vals ∧ y.1.1 = prefix kv.2)
         (flat_map (yieldsOf (S round)) (map snd vals)) ∧
  netYields (flat_map (yieldsOf (S round)) (map snd vals)) valueKey r
  = if decide (round ≤ r)%nat
    then sumBelow (cell (roundsOf valueKey vals)) (S r)
    else 0.
Proof.
  intros [Hnodup Hall]. induction vals as [|[k c] vals IH].
  { split; [constructor|]. cbn [flat_map map netYields foldr].
    rewrite sumBelow_zero by (intros i; by apply cell_beyond; simpl; lia).
    by case_decide. }
  apply NoDup_cons in Hnodup as [Hfresh Hnodup].
  apply Forall_cons_1 in Hall as [[Hhash _] Hall]. cbn [fst snd] in *.
  destruct (IH Hnodup Hall) as [Hfrom Hnet].
  destruct (yieldsOf_net round c valueKey r) as [Hfrom0 Hnet0].
  cbn [map flat_map snd]. split.
  - apply Forall_app. split.
    + eapply Forall_impl; [exact Hfrom0|]. intros y [? ?]. split; [done|].
      exists (k, c). split; [by left|done].
    + eapply Forall_impl; [exact Hfrom|]. intros y [? (kv & ? & ?)].
      split; [done|]. exists kv. split; [by right|done].
  - rewrite netYields_app, Hnet0, Hnet. unfold roundsOf at 2.
    cbn [lookupValue]. rewrite Hhash.
    destruct (decide (k = valueKey)) as [->|Hne].
    + rewrite (roundsOf_absent valueKey vals) by done.
      rewrite (sumBelow_zero (cell [])) by
        (intros i; by apply cell_beyond; simpl; lia).
      repeat case_decide; try lia; exfalso; intuition lia.
    + fold (roundsOf valueKey vals).
      repeat case_decide; try lia; exfalso; intuition congruence.
Qed.

Lemma lookupValue_store valueKey counts vals k :
  lookupValue k (storeValue valueKey counts vals)
  = if decide (k = valueKey) then Some counts else lookupValue k vals.
Proof.
  induction vals as [|[k0 c0] vals IH]; simpl.
  - destruct (decide (valueKey = k)), (decide (k = valueKey));
      congruence.
  - destruct (decide (k0 = valueKey)) as [->|Hne]; simpl.
    + destruct (decide (valueKey = k)), (decide (k = valueKey));
        congruence.
    + rewrite IH. destruct (decide (k0 = k)), (decide (k = valueKey));
        congruence.
Qed.

Lemma lookupValue_delete valueKey vals k :
  lookupValue k (deleteValue valueKey vals)
  = if decide (k = valueKey) then None else lookupValue k vals.
Proof.
  unfold deleteValue. induction vals as [|[k0 c0] vals IH]; simpl.
  - by case_decide.
  - rewrite filter_cons. simpl.
    destruct (decide (k0 ≠ valueKey)) as [Hne|Heq]; simpl.
    + rewrite IH. destruct (decide (k0 = k)), (decide (k = valueKey));
        congruence.
    + apply dec_stable in Heq. subst k0. rewrite IH.
      destruct (decide (valueKey = k)), (decide (k = valueKey));
        congruence.
Qed.

Lemma storeValue_Forall (Q : string * Counts → Prop) valueKey counts vals :
  Forall Q vals → Q (valueKey, counts) →
  Forall Q (storeValue valueKey counts vals).
Proof.
  intros Hall Hnew. induction Hall as [|[k0 c0] vals Hhead Hall IH]; simpl.
  - by constructor.
  - case_decide; subst; by constructor.
Qed.

Lemma deleteValue_Forall (Q : string * Counts → Prop) valueKey vals :
  Forall Q vals → Forall Q (deleteValue valueKey vals).
Proof.
  rewrite !Forall_forall. unfold deleteValue.
  intros Hall kv [_ Hin]%list_elem_of_filter. by apply Hall.
Qed.

Lemma storeValue_keys valueKey counts vals k :
  k ∈ map fst (storeValue valueKey counts vals)
  ↔ k = valueKey ∨ k ∈ map fst vals.
Proof.
  induction vals as [|[k0 c0] vals IH]; simpl.
  - rewrite list_elem_of_singleton, elem_of_nil. tauto.
  - case_decide; subst; simpl; rewrite !elem_of_cons; [tauto|].
    rewrite IH. tauto.
Qed.

Lemma storeValue_NoDup valueKey counts vals :
  NoDup (map fst vals) → NoDup (map fst (storeValue valueKey counts vals)).
Proof.
  induction vals as [|[k0 c0] vals IH]; simpl; intros Hnodup.
  - apply NoDup_singleton.
  - apply NoDup_cons in Hnodup as [Hfresh Hnodup].
    case_decide; subst; simpl; apply NoDup_cons; [done|].
    split; [|by apply IH].
    rewrite storeValue_keys. intros [?|?]; congruence.
Qed.

Lemma deleteValue_NoDup valueKey vals :
  NoDup (map fst vals) → NoDup (map fst (deleteValue valueKey vals)).
Proof.
  unfold deleteValue. induction vals as [|[k0 c0] vals IH]; simpl;
    intros Hnodup; [done|].
  apply NoDup_cons in Hnodup as [Hfresh Hnodup].
  rewrite filter_cons. simpl. case_decide; simpl; [|by apply IH].
  apply NoDup_cons. split; [|by apply IH].
  intros (kv & -> & [_ Hin]%list_elem_of_filter)%list_elem_of_fmap.
  apply Hfresh. apply list_elem_of_fmap. by exists kv.
Qed.

Lemma lookupValue_elem valueKey vals counts :
  lookupValue valueKey vals = Some counts → (valueKey, counts) ∈ vals.
Proof.
  induction vals as [|[k0 c0] vals IH]; simpl; [done|].
  case_decide; [intros [= ->]; subst; by left|].
  intros Hin. right. by apply IH.
Qed.

(** [insert] adds the count of the prefix to the slot of its round, in
    the array of its value key, and keeps the values of the key well. *)
Lemma intermediate_insert_spec key p round count index index' :
  roundAndCount p = Ok (round, count) →
  insert key p index = Ok index' →
  ∃ vals',
    index' = <[key := vals']> index ∧
    (wellKept (default [] (index !! key)) → wellKept vals') ∧
    (∀ Q : Prefix → Prop,
       Forall (λ kv, Q (prefix kv.2)) (default [] (index !! key)) →
       Q p → Forall (λ kv, Q (prefix kv.2)) vals') ∧
    (∀ valueKey r,
       cell (roundsOf valueKey vals') r
       = cell (roundsOf valueKey (default [] (index !! key))) r
         + (if decide (valueKey = hashPrefix p ∧ r = round)
            then count else 0)).
Proof.
  intros Hrc. unfold insert. rewrite Hrc. cbn [rbind].
  set (vals := default [] (index !! key)).
  set (old := default (mkCounts p []) (lookupValue (hashPrefix p) vals)).
  set (rounds' := bump (rounds old) round count).
  set (stored := storeValue (hashPrefix p) (mkCounts (prefix old) rounds')
                            vals).
  intros [= <-]. eexists. split; [done|].
  assert (rounds old = roundsOf (hashPrefix p) vals) as Hold.
  { unfold old, roundsOf. by destruct (lookupValue _ vals). }
  assert (∀ Q : Prefix → Prop,
            Forall (λ kv, Q (prefix kv.2)) vals → Q p → Q (prefix old))
    as Hprefix.
  { intros Q Hall Hp. unfold old.
    destruct (lookupValue _ vals) as [c|] eqn:Hc; [|done].
    apply lookupValue_elem in Hc.
    by apply (proj1 (Forall_forall _ _) Hall) in Hc. }
  assert (∀ valueKey r,
            cell (roundsOf valueKey stored) r
            = cell (roundsOf valueKey vals) r
              + (if decide (valueKey = hashPrefix p ∧ r = round)
                 then count else 0)) as Hstored.
  { intros valueKey r. unfold roundsOf, stored.
    rewrite lookupValue_store.
    destruct (decide (valueKey = hashPrefix p)) as [->|Hne].
    - cbn [rounds]. unfold rounds'. rewrite cell_bump, Hold.
      unfold roundsOf. repeat case_decide; try lia; exfalso; intuition. 
    - rewrite decide_False by (intros [? ?]; done). lia. }
  assert (wellKept vals → wellKept stored) as Hkept.
  { intros [Hnodup Hall]. split; [by apply storeValue_NoDup|].
    apply storeValue_Forall; [done|]. cbn [fst snd prefix rounds].
    split; [|by apply bump_nonempty].
    unfold old. destruct (lookupValue _ vals) as [c|] eqn:Hc; [|done].
    apply lookupValue_elem in Hc.
    by apply (proj1 (Forall_forall _ _) Hall) in Hc as [Hc _]. }
  destruct (decide (cell rounds' round = 0 ∧ allZero rounds' = true))
    as [[Hzero Hall]|Hkeep].
  - rewrite decide_True by done. rewrite Hall.
    split; [|split].
    + intros [Hnodup Hwell]. split; [by apply deleteValue_NoDup|].
      by apply deleteValue_Forall.
    + intros Q HQ _. by apply (deleteValue_Forall (λ kv, Q (prefix kv.2))).
    + intros valueKey r. specialize (Hstored valueKey r).
      unfold roundsOf in *. rewrite lookupValue_delete.
      unfold stored in Hstored. rewrite lookupValue_store in Hstored.
      destruct (decide (valueKey = hashPrefix p)) as [->|Hne].
      * cbn [rounds] in Hstored. rewrite <- Hstored.
        rewrite (allZero_cell rounds') by done. done.
      * done.
  - assert ((if decide (cell rounds' round = 0)
             then if allZero rounds' then deleteValue (hashPrefix p) vals
                  else stored
             else stored) = stored) as ->.
    { case_decide; [|done]. destruct (allZero rounds') eqn:Hz; [|done].
      exfalso. by apply Hkeep. }
    split; [done|]. split; [|done].
    intros Q HQ Hp.
    apply (storeValue_Forall (λ kv, Q (prefix kv.2))); [done|].
    cbn [snd prefix]. by apply Hprefix.
Qed.

End IntermediateFacts.

Section AntiJoinNet.
Import Flow Flow.IntermediateIndex.

Context {Distinct : Type}.
Variable newDistinct : Distinct.
Variable distinctKey : string → Z → Z → Distinct → list (Z * Z) * Distinct.

Lemma sumBelow_bumped (f f' : nat → Z) (A : Prop) `{!Decision A} m c n :
  (∀ i, f' i = f i + (if decide (A ∧ i = m) then c else 0)) →
  sumBelow f' n
  = sumBelow f n + (if decide (A ∧ (m < n)%nat) then c else 0).
Proof.
  intros Hf. induction n as [|n IH]; simpl.
  - rewrite decide_False by lia. lia.
  - rewrite IH, Hf.
    destruct (decide A); repeat case_decide; try lia; exfalso; intuition lia.
Qed.

Lemma netFor_app keys results1 results2 key valueKey r :
  netFor keys (results1 ++ results2) key valueKey r
  = netFor keys results1 key valueKey r
    + netFor keys results2 key valueKey r.
Proof.
  unfold netFor. induction results1 as [|q results1 IH]; simpl; [done|].
  rewrite IH. repeat case_match; lia.
Qed.


Lemma stamped_hash p round count :
  (2 ≤ length p)%nat →
  hashPrefix (stamped p round count) = hashPrefix p.
Proof.
  intros Hlen. unfold hashPrefix, stamped, setCount, setRound. f_equal.
  f_equal. rewrite !length_insert. apply list_eq. intros i.
  destruct (decide (i = (length p - 2)%nat)) as [->|Hround];
    [|destruct (decide (i = (length p - 1)%nat)) as [->|Hcount]].
  - rewrite list_lookup_insert_ne by lia.
    rewrite list_lookup_insert_eq by (rewrite ?length_insert; lia).
    rewrite list_lookup_insert_ne by lia.
    by rewrite list_lookup_insert_eq by lia.
  - rewrite list_lookup_insert_eq by (rewrite ?length_insert; lia).
    by rewrite list_lookup_insert_eq by (rewrite ?length_insert; lia).
  - by rewrite !list_lookup_insert_ne by lia.
Qed.

Lemma netFor_snoc keys results p round count key valueKey r :
  roundAndCount p = Ok (round, count) →
  netFor keys (results ++ [p]) key valueKey r
  = netFor keys results key valueKey r
    + (if decide (CreateKeyFunction keys p = key ∧ hashPrefix p = valueKey
                  ∧ (round ≤ r)%nat)
       then count else 0).
Proof.
  intros Hrc. rewrite netFor_app. f_equal. unfold netFor. simpl.
  rewrite Hrc. case_decide; lia.
Qed.












End AntiJoinNet.

Section DistinctFacts.
Import Flow Flow.DistinctIndex.


Lemma flat_map_Forall {A B : Type} (P : B → Prop) (f : A → list B) l :
  (∀ i, Forall P (f i)) → Forall P (flat_map f l).
Proof.
  intros Hf. induction l as [|i l IH]; simpl; [constructor|].
  apply Forall_app. by split.
Qed.







End DistinctFacts.

Section ChooseFacts.
Import Flow.

Context {World Distinct : Type}.
Variable newDistinct : Distinct.
Variable distinctKey : string → Z → Z → Distinct → list (Z * Z) * Distinct.













End ChooseFacts.

Section ChooseExclusive.
Import Flow.

Context {World Distinct : Type}.
Variable newDistinct : Distinct.
Variable distinctKey : string → Z → Z → Distinct → list (Z * Z) * Distinct.


End ChooseExclusive.

Section ChooseExamples.
Import Flow FlowSamples.

Lemma sumBelow_nonneg f n : (∀ i, 0 ≤ f i) → 0 ≤ sumBelow f n.
Proof.
  intros Hf. induction n as [|n IH]; [done|]. simpl.
  pose proof (Hf n). lia.
Qed.

(** With the earlier result for its key in the right index, the prefix
    does not pass; a prefix with another key does. *)
Example earlier_result_excludes :
  pushedBy (onLeft sampleAnti sameKey) = Some [] ∧
  pushedBy (onLeft sampleAnti otherKey) = Some [otherKey].
Proof. vm_compute. done. Qed.

(** When the earlier result arrives in the execution in which the branch
    has passed the prefix with its key, the branch takes that prefix
    back. *)
Example earlier_result_takes_back :
  pushedBy sampleRun = Some [sameKey; otherKey; takenBack].
Proof. vm_compute. done. Qed.



End ChooseExamples.

Section ExportKeys.
Import Transaction.

Lemma barfree_app s1 s2 : barfree s1 → barfree s2 → barfree (s1 +:+ s2).
Proof.
  induction s1 as [|c s1 IH]; [done|]. intros [? ?] ?.
  change (barfree (String c (s1 +:+ s2))). simpl. auto.
Qed.

Lemma barfree_pretty_N_go x s : barfree s → barfree (pretty_N_go x s).
Proof.
  revert s. induction (N.lt_wf_0 x) as [x _ IH]; intros s Hs.
  assert (x = 0 ∨ 0 < x)%N as [->|?] by lia.
  - by rewrite pretty_N_go_0.
  - rewrite pretty_N_go_step by done. apply IH.
    { by apply N.div_lt. }
    split; [|done]. unfold pretty_N_char. by repeat case_match.
Qed.

Lemma barfree_pretty_N (x : N) : barfree (pretty x).
Proof.
  unfold pretty, pretty_N. case_decide; [by simpl|].
  by apply barfree_pretty_N_go.
Qed.

Lemma barfree_pretty_Z (x : Z) : barfree (pretty x).
Proof.
  unfold pretty, pretty_Z. destruct x as [|p|p].
  - by simpl.
  - apply barfree_pretty_N.
  - apply (barfree_app "-"); [by simpl|]. apply barfree_pretty_N.
Qed.

Lemma barfree_split s1 s2 r1 r2 :
  barfree s1 → barfree s2 →
  s1 +:+ "|" +:+ r1 = s2 +:+ "|" +:+ r2 → s1 = s2 ∧ r1 = r2.
Proof.
  revert s2. induction s1 as [|c s1 IH]; intros [|c2 s2] H1 H2 H.
  - change (String "|" r1 = String "|" r2) in H. by injection H as ->.
  - change (String "|" r1 = String c2 (s2 +:+ "|" +:+ r2)) in H.
    injection H as <- _. by destruct H2.
  - change (String c (s1 +:+ "|" +:+ r1) = String "|" r2) in H.
    injection H as -> _. by destruct H1.
  - change (String c (s1 +:+ "|" +:+ r1) = String c2 (s2 +:+ "|" +:+ r2))
      in H.
    injection H as -> Heq. destruct H1 as [_ H1], H2 as [_ H2].
    destruct (IH _ H1 H2 Heq) as [-> ->]. done.
Qed.

(** Two export keys are equal only for the same block and triple. *)
Lemma beav_inj b e a v b' e' a' v' :
  beav b e a v = beav b' e' a' v' → b = b' ∧ e = e' ∧ a = a' ∧ v = v'.
Proof.
  unfold beav. intros H.
  apply barfree_split in H as [Hb H]; [|apply barfree_pretty_Z..].
  apply barfree_split in H as [He H]; [|apply barfree_pretty_Z..].
  apply barfree_split in H as [Ha Hv]; [|apply barfree_pretty_Z..].
  by apply (inj pretty) in Hb, He, Ha, Hv.
Qed.

End ExportKeys.

Section ExportFacts.
Import Transaction TransactionSamples.

Abbreviation hasEAV e a v :=
  (λ c : Change.t, Change.e c = e ∧ Change.a c = a ∧ Change.v c = v).

Lemma sameEAV_spec x y :
  sameEAV x y = true ↔
  Change.e x = Change.e y ∧ Change.a x = Change.a y ∧ Change.v x = Change.v y.
Proof.
  unfold sameEAV. rewrite !andb_true_iff, !bool_decide_eq_true. tauto.
Qed.

Lemma compareEAV_zero x y : compareEAV x y = 0 ↔ sameEAV x y = true.
Proof.
  rewrite sameEAV_spec. unfold compareEAV. repeat case_decide; lia.
Qed.

Lemma le_trans x y z : le x y → le y z → le x z.
Proof. unfold le, compareEAV. repeat case_decide; lia. Qed.

Lemma le_total x y : ¬ le y x → le x y.
Proof. unfold le, compareEAV. repeat case_decide; lia. Qed.

Lemma le_strict x y c :
  le x y → sameEAV y x = false → le y c → sameEAV c x = false.
Proof.
  intros Hxy Hne Hyc. apply not_true_iff_false. intros Hs.
  apply not_true_iff_false in Hne. apply Hne.
  apply sameEAV_spec. apply sameEAV_spec in Hs.
  unfold le, compareEAV in *. repeat case_decide; lia.
Qed.

Lemma insertSorted_perm x l : insertSorted compareEAV x l ≡ₚ x :: l.
Proof.
  induction l as [|y l IH]; simpl; [done|].
  case_decide; [|done]. rewrite IH. apply Permutation_swap.
Qed.

Lemma sort_perm l : sort compareEAV l ≡ₚ l.
Proof.
  unfold sort.
  assert (H : ∀ acc, fold_left (λ sorted x, insertSorted compareEAV x sorted)
                               l acc ≡ₚ acc ++ l).
  { induction l as [|x l IH]; intros acc; simpl; [by rewrite app_nil_r|].
    rewrite IH, insertSorted_perm. simpl. apply Permutation_middle. }
  by rewrite H.
Qed.

Lemma insertSorted_sorted x l :
  StronglySorted le l → StronglySorted le (insertSorted compareEAV x l).
Proof.
  induction 1 as [|y l Hl IH Hy]; simpl; [repeat constructor|].
  case_decide as Hyx.
  - constructor; [done|]. rewrite insertSorted_perm. by constructor.
  - apply le_total in Hyx. constructor; [by constructor|].
    constructor; [done|]. eapply Forall_impl; [exact Hy|].
    intros z Hz. by eapply le_trans.
Qed.

Lemma sort_sorted l : StronglySorted le (sort compareEAV l).
Proof.
  unfold sort.
  assert (H : ∀ acc, StronglySorted le acc →
              StronglySorted le
                (fold_left (λ sorted x, insertSorted compareEAV x sorted) l acc)).
  { induction l as [|x l IH]; intros acc Hacc; simpl; [done|].
    by apply IH, insertSorted_sorted. }
  apply H. constructor.
Qed.

Lemma total_cons c l e a v :
  total (c :: l) e a v =
  (if decide (hasEAV e a v c) then Change.count c else 0) + total l e a v.
Proof. unfold total. rewrite filter_cons. by case_decide. Qed.

Lemma total_perm l l' e a v : l ≡ₚ l' → total l e a v = total l' e a v.
Proof.
  induction 1 as [|x l l' _ IH|x y l|l1 l2 l3 _ IH1 _ IH2];
    rewrite ?total_cons; try done; lia.
Qed.

Lemma deltas_app l1 l2 e a v :
  deltas (l1 ++ l2) e a v = deltas l1 e a v ++ deltas l2 e a v.
Proof. unfold deltas. by rewrite filter_app, map_app. Qed.

Lemma deltas_none l e a v :
  (∀ c, c ∈ l → ¬ hasEAV e a v c) → deltas l e a v = [].
Proof.
  intros H. unfold deltas.
  induction l as [|c l IH]; [done|]. rewrite filter_cons.
  case_decide as Hc.
  - exfalso. eapply H; [by left|done].
  - apply IH. intros c' Hc'. apply H. by right.
Qed.

Lemma total_none l e a v :
  (∀ c, c ∈ l → ¬ hasEAV e a v c) → total l e a v = 0.
Proof.
  intros H. induction l as [|c l IH]; [done|]. rewrite total_cons.
  case_decide as Hc.
  - exfalso. eapply H; [by left|done].
  - rewrite IH; [done|]. intros c' Hc'. apply H. by right.
Qed.

(** What [collapseFrom] pushes has the triple of one of the changes. *)
Lemma collapseFrom_triples current rest c :
  c ∈ collapseFrom current rest →
  ∃ y, y ∈ current :: rest ∧ sameEAV c y = true.
Proof.
  revert current. induction rest as [|next rest IH]; intros current; simpl.
  - case_decide; [by intros ?%elem_of_nil|].
    intros ->%list_elem_of_singleton. exists current. split; [by left|].
    by apply sameEAV_spec.
  - destruct (sameEAV next current) eqn:Hsame.
    + intros (y & Hy & Hc)%IH. apply elem_of_cons in Hy as [->|Hy].
      * exists current. split; [by left|]. apply sameEAV_spec.
        apply sameEAV_spec in Hc. done.
      * exists y. split; [by do 2 right|done].
    + intros [Hc|Hc]%elem_of_app.
      * case_decide; [by apply elem_of_nil in Hc|].
        apply list_elem_of_singleton in Hc as ->. exists current.
        split; [by left|]. by apply sameEAV_spec.
      * apply IH in Hc as (y & Hy & Hc). exists y. split; [by right|done].
Qed.

(** On sorted changes the loop pushes, for every triple, one change that
    carries the sum of the counts, unless the sum is 0. *)
Lemma collapseFrom_deltas current rest e a v :
  StronglySorted le (current :: rest) →
  deltas (collapseFrom current rest) e a v
  = nonzero (total (current :: rest) e a v).
Proof.
  revert current. induction rest as [|next rest IH]; intros current Hs.
  - simpl. rewrite total_cons. change (total [] e a v) with 0.
    rewrite Z.add_0_r. unfold deltas, nonzero.
    destruct (decide (Change.count current = 0)) as [Hz|Hz];
      rewrite ?filter_cons, ?filter_nil; repeat case_decide;
      simpl; try done; lia.
  - cbn [collapseFrom]. apply StronglySorted_inv in Hs as [Hs Hall].
    apply Forall_cons in Hall as [Hcn Hall].
    destruct (sameEAV next current) eqn:Hsame.
    + rewrite IH.
      * f_equal. rewrite !total_cons. apply sameEAV_spec in Hsame.
        simpl. repeat case_decide; try lia; try tauto.
        all: exfalso; intuition congruence.
      * apply StronglySorted_inv in Hs as [Hs Hnext].
        constructor; [done|].
        eapply Forall_impl; [exact Hnext|]. intros z Hz.
        apply sameEAV_spec in Hsame.
        unfold le, compareEAV in *. simpl.
        destruct Hsame as (He & Ha & Hv). by rewrite He, Ha, Hv in Hz.
    + rewrite deltas_app, IH by done.
      assert (Hlater : ∀ c, c ∈ next :: rest → sameEAV c current = false).
      { intros c [->|Hc]%elem_of_cons; [done|].
        apply StronglySorted_inv in Hs as [_ Hnext].
        eapply le_strict; [exact Hcn|done|].
        by eapply Forall_forall in Hnext. }
      rewrite (total_cons current).
      destruct (decide (hasEAV e a v current)) as [Hc|Hc].
      * rewrite (total_none (next :: rest)).
        -- rewrite Z.add_0_r. unfold nonzero at 2. simpl. rewrite app_nil_r.
           unfold deltas, nonzero.
           destruct (decide (Change.count current = 0)); [done|].
           rewrite filter_cons. by rewrite decide_True.
        -- intros c Hin Hk. apply Hlater in Hin.
           apply not_true_iff_false in Hin. apply Hin, sameEAV_spec.
           destruct Hc as (? & ? & ?), Hk as (? & ? & ?). repeat split; congruence.
      * rewrite Z.add_0_l.
        replace (deltas _ e a v) with (@nil Z); [done|].
        symmetry. apply deltas_none. intros c Hin.
        destruct (decide (Change.count current = 0));
          [by apply elem_of_nil in Hin|].
        by apply list_elem_of_singleton in Hin as ->.
Qed.

Lemma collapseMultiplicity_deltas changes e a v :
  deltas (collapseMultiplicity changes []) e a v
  = nonzero (total changes e a v).
Proof.
  unfold collapseMultiplicity. simpl.
  rewrite <- (total_perm _ _ e a v (sort_perm changes)).
  pose proof (sort_sorted changes) as Hs.
  destruct (sort compareEAV changes) as [|current rest]; [done|].
  by apply collapseFrom_deltas.
Qed.

Lemma running_insert_eq idx b e a v x :
  running (<[beav b e a v := x]> idx) b e a v = x.
Proof. unfold running. by rewrite lookup_insert_eq. Qed.

Lemma running_insert_ne idx b e a v b' e' a' v' x :
  ¬ (b = b' ∧ e = e' ∧ a = a' ∧ v = v') →
  running (<[beav b e a v := x]> idx) b' e' a' v' = running idx b' e' a' v'.
Proof.
  intros Hne. unfold running. rewrite lookup_insert_ne; [done|].
  intros Heq%beav_inj. tauto.
Qed.

(** One step on a change of the triple. *)
Lemma exportChange_same tx b exports idx c e a v :
  hasEAV e a v c →
  running (exportChange tx b (exports, idx) c).2 b e a v
  = running idx b e a v + Change.count c ∧
  deltas (exportChange tx b (exports, idx) c).1 e a v
  = deltas exports e a v
    ++ transition (running idx b e a v)
                  (running idx b e a v + Change.count c).
Proof.
  intros (He & Ha & Hv). unfold exportChange, transition. rewrite He, Ha, Hv.
  repeat case_decide; cbn [fst snd];
    rewrite ?running_insert_eq, ?deltas_app, ?app_nil_r;
    try (split; [done|]); try lia; try done.
  all: unfold deltas at 2; rewrite filter_cons, decide_True by done; done.
Qed.

(** One step on a change of another triple or for another block. *)
Lemma exportChange_other tx b exports idx c b' e a v :
  ¬ (b = b' ∧ hasEAV e a v c) →
  running (exportChange tx b (exports, idx) c).2 b' e a v
  = running idx b' e a v ∧
  (¬ hasEAV e a v c →
   deltas (exportChange tx b (exports, idx) c).1 e a v = deltas exports e a v).
Proof.
  intros Hne. unfold exportChange.
  repeat case_decide; cbn [fst snd];
    (split; [apply running_insert_ne; tauto|]).
  all: intros Hk; rewrite ?deltas_app; try done.
  all: unfold deltas at 2; rewrite filter_cons, decide_False by done.
  all: by rewrite filter_nil, app_nil_r.
Qed.

Lemma exportLoop_other tx b raw acc b' e a v :
  (b = b' → ∀ c, c ∈ raw → ¬ hasEAV e a v c) →
  running (fold_left (exportChange tx b) raw acc).2 b' e a v
  = running acc.2 b' e a v ∧
  (b = b' →
   deltas (fold_left (exportChange tx b) raw acc).1 e a v
   = deltas acc.1 e a v).
Proof.
  revert acc. induction raw as [|c raw IH]; intros [exports idx] Hraw;
    cbn [fold_left]; [done|].
  destruct (exportChange_other tx b exports idx c b' e a v) as [Hrun1 Hdel1].
  { intros [Hb Hk]. eapply (Hraw Hb); [by left|done]. }
  destruct (exportChange tx b (exports, idx) c) as [exports1 idx1].
  destruct (IH (exports1, idx1)) as [Hrun Hdel].
  { intros Hb c' Hc'. apply (Hraw Hb). by right. }
  cbn [fst snd] in *.
  split; [congruence|]. intros Hb. rewrite Hdel by done.
  apply Hdel1. apply (Hraw Hb). by left.
Qed.

Lemma filter_singleton_cons (c : Change.t) raw x e a v :
  filter (hasEAV e a v) (c :: raw) = [x] →
  (hasEAV e a v c ∧ c = x ∧ ∀ c', c' ∈ raw → ¬ hasEAV e a v c') ∨
  (¬ hasEAV e a v c ∧ filter (hasEAV e a v) raw = [x]).
Proof.
  rewrite filter_cons. case_decide as Hc.
  - intros [= -> Hnil]. left. split; [done|]. split; [done|].
    intros c' Hc' Hk.
    assert (c' ∈ filter (hasEAV e a v) raw) as Hin
      by (by apply list_elem_of_filter).
    rewrite Hnil in Hin. by apply elem_of_nil in Hin.
  - intros Hf. right. done.
Qed.

Lemma exportLoop_one tx b raw acc x e a v :
  filter (hasEAV e a v) raw = [x] →
  running (fold_left (exportChange tx b) raw acc).2 b e a v
  = running acc.2 b e a v + Change.count x ∧
  deltas (fold_left (exportChange tx b) raw acc).1 e a v
  = deltas acc.1 e a v
    ++ transition (running acc.2 b e a v)
                  (running acc.2 b e a v + Change.count x).
Proof.
  revert acc. induction raw as [|c raw IH]; intros [exports idx]; [done|].
  intros [(Hc & -> & Hrest)|(Hc & Hf)]%filter_singleton_cons; cbn [fold_left].
  - destruct (exportChange_same tx b exports idx x e a v Hc) as [Hrun1 Hdel1].
    destruct (exportChange tx b (exports, idx) x) as [exports1 idx1].
    destruct (exportLoop_other tx b raw (exports1, idx1) b e a v)
      as [Hrun Hdel]; [by intros _|].
    cbn [fst snd] in *.
    split; [congruence|]. rewrite Hdel by done. done.
  - destruct (exportChange_other tx b exports idx c b e a v) as [Hrun1 Hdel1];
      [tauto|].
    destruct (exportChange tx b (exports, idx) c) as [exports1 idx1].
    destruct (IH (exports1, idx1) Hf) as [Hrun Hdel].
    cbn [fst snd] in *.
    rewrite Hrun, Hdel, Hrun1, Hdel1 by done. done.
Qed.

Lemma deltas_nonzero raw e a v t :
  deltas raw e a v = nonzero t →
  (t = 0 ∧ ∀ c, c ∈ raw → ¬ hasEAV e a v c) ∨
  (∃ x, filter (hasEAV e a v) raw = [x] ∧ Change.count x = t).
Proof.
  unfold deltas, nonzero. case_decide as Ht.
  - intros Hnil%fmap_nil_inv. left. split; [done|].
    intros c Hc Hk.
    assert (c ∈ filter (hasEAV e a v) raw) as Hin
      by (by apply list_elem_of_filter).
    rewrite Hnil in Hin. by apply elem_of_nil in Hin.
  - intros Hone. right.
    destruct (filter (hasEAV e a v) raw) as [|x [|y l]]; try done.
    exists x. split; [done|]. by injection Hone.
Qed.

(** The exports of one block for one triple. *)
Lemma exportBlock_spec tx b changes idx e a v :
  running (exportBlock tx b changes idx).2 b e a v
  = running idx b e a v + total changes e a v ∧
  deltas (exportBlock tx b changes idx).1 e a v
  = transition (running idx b e a v)
               (running idx b e a v + total changes e a v).
Proof.
  unfold exportBlock.
  destruct (deltas_nonzero _ e a v _ (collapseMultiplicity_deltas changes e a v))
    as [[Hz Hnone]|(x & Hx & Hcount)].
  - destruct (exportLoop_other tx b (collapseMultiplicity changes [])
                ([], idx) b e a v) as [Hrun Hdel]; [by intros _|].
    cbn [fst snd] in *. rewrite Hrun, Hdel, Hz, Z.add_0_r by done.
    split; [done|]. unfold transition. repeat case_decide; try done; lia.
  - destruct (exportLoop_one tx b (collapseMultiplicity changes [])
                ([], idx) x e a v Hx) as [Hrun Hdel].
    cbn [fst snd] in *. by rewrite Hrun, Hdel, Hcount.
Qed.

Lemma exportBlock_other tx b changes idx b' e a v :
  b ≠ b' →
  running (exportBlock tx b changes idx).2 b' e a v = running idx b' e a v.
Proof.
  intros Hb. unfold exportBlock.
  by destruct (exportLoop_other tx b (collapseMultiplicity changes [])
                 ([], idx) b' e a v) as [Hrun _].
Qed.

Lemma exportAll_other tx entries idx b e a v :
  b ∉ map fst entries →
  running (exportAll tx entries idx).2 b e a v = running idx b e a v.
Proof.
  revert idx. induction entries as [|[b0 ch0] rest IH]; intros idx Hb; [done|].
  simpl in *. apply not_elem_of_cons in Hb as [Hb0 Hb].
  pose proof (exportBlock_other tx b0 ch0 idx b e a v) as H0.
  destruct (exportBlock tx b0 ch0 idx) as [exports idx1].
  specialize (IH idx1 Hb).
  destruct (exportAll tx rest idx1) as [rest' idx2]. simpl in *.
  rewrite IH. apply H0. congruence.
Qed.

(** C2. In a transaction that exports changes, the exports of a block for
    a triple (e, a, v) are collapsed against the running count that the
    evaluation context keeps for (blockId, e, a, v): the running count
    is advanced by the sum of the exported counts, and the block exports
    a change with count +1 exactly when the running count goes from 0 to
    a positive number, a change with count -1 exactly when it goes from
    a positive number to 0, and nothing otherwise; in particular nothing
    is exported while the running count was negative, whatever it
    becomes. *)
Theorem exports_follow_running_count
    tx exportedChanges exportIndex blockId changes e a v :
  NoDup (map fst exportedChanges) →
  (blockId, changes) ∈ exportedChanges →
  let old := running exportIndex blockId e a v in
  let neue := old + total changes e a v in
  running (exportAll tx exportedChanges exportIndex).2 blockId e a v = neue ∧
  ∃ exports,
    (blockId, exports) ∈ (exportAll tx exportedChanges exportIndex).1 ∧
    deltas exports e a v =
      (if decide (old = 0 ∧ neue > 0) then [1]
       else if decide (old > 0 ∧ neue = 0) then [-1]
       else []) ∧
    (old < 0 → deltas exports e a v = []).
Proof.
  revert exportIndex.
  induction exportedChanges as [|[b0 ch0] rest IH]; intros idx Hnd Hin;
    [by apply elem_of_nil in Hin|].
  simpl in Hnd. apply NoDup_cons in Hnd as [Hb0 Hnd].
  cbn [exportAll].
  pose proof (exportBlock_spec tx b0 ch0 idx e a v) as Hspec.
  pose proof (exportBlock_other tx b0 ch0 idx blockId e a v) as Hother.
  destruct (exportBlock tx b0 ch0 idx) as [exports idx1].
  pose proof (exportAll_other tx rest idx1 blockId e a v) as Hrest.
  specialize (IH idx1 Hnd).
  destruct (exportAll tx rest idx1) as [rest' idx2]. simpl in *.
  apply elem_of_cons in Hin as [[= -> ->]|Hin].
  - destruct Hspec as [Hrun Hdel]. split; [by rewrite Hrest|].
    exists exports. split; [by left|]. split; [exact Hdel|].
    intros Hneg. rewrite Hdel. unfold transition.
    repeat case_decide; try done; lia.
  - assert (b0 ≠ blockId) as Hne.
    { intros ->. apply Hb0. apply list_elem_of_fmap. by exists (blockId, changes). }
    destruct (IH Hin) as [Hrun (exports' & Hin' & Hdel & Hneg)].
    rewrite Hother in Hrun, Hdel, Hneg by done.
    split; [done|]. exists exports'. split; [by right|]. done.
Qed.

Lemma exports_follow_running_count_witness :
  let old := running ∅ 12 1 2 3 in
  let neue := old + total sampleExports 1 2 3 in
  running (exportAll 7 [(12, sampleExports)] ∅).2 12 1 2 3 = neue ∧
  ∃ exports,
    (12, exports) ∈ (exportAll 7 [(12, sampleExports)] ∅).1 ∧
    deltas exports 1 2 3 =
      (if decide (old = 0 ∧ neue > 0) then [1]
       else if decide (old > 0 ∧ neue = 0) then [-1]
       else []) ∧
    (old < 0 → deltas exports 1 2 3 = []).
Proof.
  apply (exports_follow_running_count 7 [(12, sampleExports)] ∅ 12
           sampleExports 1 2 3).
  - simpl. apply NoDup_singleton.
  - by left.
Defined.

(** On the sample the block exports one change for (1, 2, 3), with count
    +1, and the running count becomes 2. *)
Example sample_export_counts :
  deltas (exportBlock 7 12 sampleExports ∅).1 1 2 3 = [1] ∧
  running (exportBlock 7 12 sampleExports ∅).2 12 1 2 3 = 2.
Proof. vm_compute. done. Qed.

End ExportFacts.

(** ** The loop to fixpoint *)

Section LoopFacts.
Import Transaction.

Context {World : Type}.
Variable distinct : bool → Change.t → World → list Change.t * World.
Variable indexInsert : Change.t → World → World.
Variable indexGet : World → ID → option ID → Z → list (ID * ID).
Variable indexGetDiffs : World → ID → ID → ID → RoundArray.
Variable blocks : list (Change.t → State World → result (State World)).
Variable transaction : Z.
Variable exportHandler : option (list (Z * list Change.t) → result unit).

Abbreviation output := (output World distinct).
Abbreviation prepareRoundWith :=
  (prepareRoundWith World distinct indexGet indexGetDiffs).
Abbreviation prepareRound :=
  (prepareRound World distinct indexGet indexGetDiffs).
Abbreviation loop :=
  (loop World distinct indexInsert indexGet indexGetDiffs blocks).
Abbreviation exec :=
  (exec World distinct indexInsert indexGet indexGetDiffs blocks
        transaction exportHandler).

(** [output] leaves the lists of commits alone. *)
Lemma output_commits saturated change st :
  frameCommits World (output saturated change st) = frameCommits World st ∧
  framePartialCommits World (output saturated change st)
    = framePartialCommits World st.
Proof.
  unfold Transaction.output.
  destruct (distinct saturated change (world World st)). done.
Qed.

Lemma outputs_commits commits st :
  frameCommits World
    (fold_left (λ s commit, output true commit s) commits st)
    = frameCommits World st ∧
  framePartialCommits World
    (fold_left (λ s commit, output true commit s) commits st)
    = framePartialCommits World st.
Proof.
  revert st. induction commits as [|c commits IH]; intros st; [done|].
  simpl. destruct (IH (output true c st)) as [-> ->].
  apply output_commits.
Qed.

(** With no commit in the frame [prepareRound] does not call itself. *)
Lemma prepareRoundWith_no_commits again again' changeIx st :
  frameCommits World st = [] →
  framePartialCommits World st = [] →
  prepareRoundWith again changeIx st = prepareRoundWith again' changeIx st.
Proof.
  intros Hc Hp. unfold Transaction.prepareRoundWith.
  rewrite Hc, Hp. done.
Qed.

(** [prepareRound] is the function that the code defines by recursion. *)
Lemma prepareRound_unfold changeIx st :
  prepareRound changeIx st
    = prepareRoundWith (prepareRound changeIx) changeIx st.
Proof.
  unfold Transaction.prepareRound at 1.
  unfold Transaction.prepareRoundWith at 1.
  unfold Transaction.prepareRoundWith at 3.
  destruct (changes World st !! changeIx); [done|].
  repeat case_match; try done.
  all: match goal with
       | |- prepareRoundWith _ _ (fold_left _ ?cs ?s) = _ =>
           destruct (outputs_commits cs s) as [Hc Hp];
           simpl in Hc, Hp
       end.
  all: unfold Transaction.prepareRound.
  all: rewrite (prepareRoundWith_no_commits
                  (prepareRoundWith (λ s, s) changeIx) (λ s, s)); [done| |].
  all: first [exact Hc | exact Hp].
Qed.

Lemma iterationLimit_pos : 0 ≤ iterationLimit.
Proof. unfold iterationLimit. lia. Qed.

(** The loop ends within as many turns as the limit leaves, and one more
    for the turn that finds the limit exceeded or no change left. *)
Lemma loop_stops fuel changeIx frames st :
  Z.of_nat changeIx ≤ iterationLimit →
  (Z.to_nat iterationLimit - changeIx < fuel)%nat →
  ∃ r, loop fuel (Z.of_nat changeIx) frames changeIx st = Some r ∧
       ∀ run, r = Ok run →
         Z.of_nat (processed World run) ≤ iterationLimit ∧ stopped run.
Proof.
  revert changeIx frames st.
  induction fuel as [|fuel IH]; intros changeIx frames st Hle Hfuel; [lia|].
  cbn [Transaction.loop].
  destruct (changes World st !! changeIx) as [change|] eqn:Hnext.
  - destruct (decide (Z.of_nat changeIx + 1 > iterationLimit)) as [Hgt|Hok].
    { eexists; split; [done|]. intros run [= <-]. unfold stopped; simpl.
      split; [done|]. split; [lia|]. by exists change. }
    destruct (_ && _).
    { eexists; split; [done|]. intros run [= <-]. unfold stopped; simpl.
      split; [done|]. split; [lia|]. by exists change. }
    destruct (execBlocks _ _ _) as [st1|f].
    + replace (Z.of_nat changeIx + 1) with (Z.of_nat (S changeIx)) by lia.
      apply IH; lia.
    + eexists; split; [done|]. intros run [=].
  - eexists; split; [done|]. intros run [= <-]. unfold stopped; simpl.
    done.
Qed.

(** More fuel does not change what the loop returns. *)
Lemma loop_fuel fuel fuel' total frames changeIx st r :
  loop fuel total frames changeIx st = Some r →
  (fuel ≤ fuel')%nat →
  loop fuel' total frames changeIx st = Some r.
Proof.
  revert fuel' total frames changeIx st.
  induction fuel as [|fuel IH]; intros fuel' total frames changeIx st;
    [done|].
  destruct fuel' as [|fuel']; [lia|]. intros Hrun Hle.
  cbn [Transaction.loop] in *.
  repeat case_match; try done.
  all: apply IH; [done|lia].
Qed.

Lemma exportRun_keeps run run' :
  exportRun World transaction exportHandler run = Ok run' →
  processed World run' = processed World run ∧
  diagnostic World run' = diagnostic World run ∧
  changes World (final World run') = changes World (final World run).
Proof.
  unfold exportRun. intros Hrun.
  repeat case_match; simplify_eq; try done.
  unfold rbind in Hrun. case_match; by simplify_eq.
Qed.

(** C7.  [Transaction.exec] returns, whatever the state of the transaction
    and whatever its blocks derive: the fuel that the limit of iterations
    gives is enough, and more fuel returns the same.  When it returns
    without an exception, the loop has processed at most 10,000 changes;
    and it has stopped either because no change was left, or on the
    change after the 10,000th with the diagnostic of the failed fixpoint,
    or before that with the diagnostic of the frames. *)
Theorem exec_stops_at_iteration_limit (fuel : nat) (st : State World) :
  (Z.to_nat iterationLimit < fuel)%nat →
  exec fuel st = exec (S (Z.to_nat iterationLimit)) st ∧
  ∃ r, exec fuel st = Some r ∧
       ∀ run, r = Ok run →
         Z.of_nat (processed World run) ≤ 10000 ∧ stopped run.
Proof.
  intros Hfuel.
  destruct (loop_stops (S (Z.to_nat iterationLimit)) 0 0
              (prepareRound 0 st)) as (r & Hrun & Hr).
  { apply iterationLimit_pos. }
  { lia. }
  assert (loop fuel 0 0 0 (prepareRound 0 st) = Some r) as Hrun'.
  { eapply loop_fuel; [exact Hrun|lia]. }
  change (Z.of_nat 0) with 0 in Hrun.
  unfold Transaction.exec. rewrite Hrun, Hrun'.
  split; [done|].
  destruct r as [run|f]; [|by eexists; split; [done|]].
  eexists; split; [done|]. intros run' Hrun''.
  destruct (exportRun_keeps _ _ Hrun'') as (Hp & Hd & Hc).
  destruct (Hr run eq_refl) as [Hle Hstop].
  unfold stopped in *. rewrite Hp, Hd, Hc. done.
Qed.

End LoopFacts.

Section LoopExamples.
Import Transaction TransactionSamples.

Lemma exec_stops_at_iteration_limit_witness :
  (Z.to_nat iterationLimit < S (Z.to_nat iterationLimit))%nat ∧
  (exec unit echo keep noMatches noDiffs [cycle] 1 None
        (S (Z.to_nat iterationLimit)) start
   = exec unit echo keep noMatches noDiffs [cycle] 1 None
          (S (Z.to_nat iterationLimit)) start ∧
   ∃ r, exec unit echo keep noMatches noDiffs [cycle] 1 None
             (S (Z.to_nat iterationLimit)) start = Some r ∧
        ∀ run, r = Ok run →
          Z.of_nat (processed unit run) ≤ 10000 ∧ stopped run).
Proof.
  split; [lia|].
  apply (exec_stops_at_iteration_limit echo keep noMatches noDiffs [cycle]
           1 None (S (Z.to_nat iterationLimit)) start).
  lia.
Defined.

End LoopExamples.

(** ** The iterators and indexes of the binary flows *)

Section ZeroingLoop.
Import Flow Flow.ZeroingIterator.

Lemma firstZero_advances steps counts minRound roundIx countSum final
    roundIx' countSum' :
  firstZero steps counts minRound roundIx countSum
    = (final, roundIx', countSum') →
  (roundIx ≤ roundIx')%nat.
Proof.
  revert roundIx countSum.
  induction steps as [|steps IH]; intros roundIx countSum Hrun;
    simpl in Hrun.
  - by simplify_eq.
  - case_decide; [by simplify_eq|]. apply IH in Hrun. lia.
Qed.

Lemma nextChange_advances steps counts before roundIx countSum final
    roundIx' countSum' :
  nextChange steps counts before roundIx countSum
    = (final, roundIx', countSum') →
  (roundIx ≤ roundIx')%nat.
Proof.
  revert roundIx countSum.
  induction steps as [|steps IH]; intros roundIx countSum Hrun;
    simpl in Hrun.
  - by simplify_eq.
  - repeat case_decide; try (by simplify_eq); apply IH in Hrun; lia.
Qed.

(** A call of [next] that returns a round has moved on in the array. *)
Lemma next_advances it r it' :
  next it = (Some r, it') →
  counts it' = counts it ∧
  (Z.to_nat (roundIx it + 1) < length (counts it))%nat ∧
  Z.of_nat (Z.to_nat (roundIx it + 1)) ≤ roundIx it' ∧
  (count it' = 1 ∨ count it' = -1).
Proof.
  unfold next. case_decide as Hend; [done|].
  destruct (if decide (_ ≤ minRound it)%nat then _ else _)
    as [[final roundIx'] countSum'] eqn:Hrun.
  intros [= -> <-]. cbn [counts roundIx count].
  split; [done|]. split; [lia|]. split.
  - case_decide.
    + apply firstZero_advances in Hrun. lia.
    + apply nextChange_advances in Hrun. lia.
  - destruct (decide (countSum' = 0)); auto.
Qed.

(** The loop over [next] ends within one turn more than the array has
    slots left: more turns return the same rounds. *)
Lemma drain_enough fuel fuel' it :
  (length (counts it) - Z.to_nat (roundIx it + 1) < fuel)%nat →
  (fuel ≤ fuel')%nat →
  drain fuel' it = drain fuel it.
Proof.
  revert fuel' it. induction fuel as [|fuel IH]; intros fuel' it Hfuel Hle;
    [lia|].
  destruct fuel' as [|fuel']; [lia|]. cbn [drain].
  destruct (next it) as [[r|] it1] eqn:Hnext; [|done].
  destruct (next_advances _ _ _ Hnext) as (Hcounts & Hin & Hon & _).
  f_equal. apply IH; [|lia]. rewrite Hcounts. lia.
Qed.

Lemma drain_counts fuel it :
  Forall (λ rc, rc.2 = 1 ∨ rc.2 = -1) (drain fuel it).
Proof.
  revert it. induction fuel as [|fuel IH]; intros it; [constructor|].
  cbn [drain]. destruct (next it) as [[r|] it1] eqn:Hnext; [|constructor].
  destruct (next_advances _ _ _ Hnext) as (_ & _ & _ & Hcount).
  constructor; [done|apply IH].
Qed.

(** X1.  The loop [while((r = it.next()) !== undefined)] over a
    [ZeroingIterator] that was reset on an array of counts, which is not
    empty and whose running counts are never negative, ends: one turn
    more than the array has slots returns what any number of further
    turns returns.  It returns rounds from [minRound] on, each with the
    count 1 or -1, and up to any round the counts add up to 1 if the
    running count of the array is 0 at that round and the round is not
    before [minRound], and to 0 otherwise. *)
Theorem zeroing_iterator_reports_zero_rounds counts minRound fuel :
  counts ≠ [] →
  (∀ n, 0 ≤ sumBelow (cell counts) n) →
  (length counts < fuel)%nat →
  drain fuel (reset counts minRound) = rounds (reset counts minRound) ∧
  Forall (λ rc, (minRound ≤ rc.1)%nat ∧ (rc.2 = 1 ∨ rc.2 = -1))
         (rounds (reset counts minRound)) ∧
  ∀ r, netRounds (rounds (reset counts minRound)) r
       = if decide ((minRound ≤ r)%nat ∧ sumBelow (cell counts) (S r) = 0)
         then 1 else 0.
Proof.
  intros Hne Hpos Hfuel.
  destruct (rounds_reset counts minRound Hne Hpos) as [Hfrom Hnet].
  split; [|split; [|done]].
  - unfold rounds. cbn [ZeroingIterator.counts ZeroingIterator.minRound reset].
    rewrite (drain_enough (S (length counts)) fuel); [|simpl; lia|lia].
    symmetry. apply drain_enough; simpl; lia.
  - pose proof (drain_counts (length counts + minRound + 2)
                  (reset counts minRound)) as Hcounts.
    unfold rounds in *.
    cbn [ZeroingIterator.counts ZeroingIterator.minRound reset] in *.
    rewrite Forall_forall in Hfrom. rewrite Forall_forall in Hcounts.
    apply Forall_forall. intros rc Hrc. split; [by apply Hfrom|].
    by apply Hcounts.
Qed.

Lemma zeroing_iterator_reports_zero_rounds_witness :
  ([1; 0; -1] : list Z) ≠ [] ∧
  rounds (reset [1; 0; -1] 0) = [(2%nat, 1)] ∧
  drain 4 (reset [1; 0; -1] 0) = rounds (reset [1; 0; -1] 0) ∧
  Forall (λ rc, (0 ≤ rc.1)%nat ∧ (rc.2 = 1 ∨ rc.2 = -1))
         (rounds (reset [1; 0; -1] 0)) ∧
  ∀ r, netRounds (rounds (reset [1; 0; -1] 0)) r
       = if decide ((0 ≤ r)%nat ∧ sumBelow (cell [1; 0; -1]) (S r) = 0)
         then 1 else 0.
Proof.
  split; [done|]. split; [reflexivity|].
  apply (zeroing_iterator_reports_zero_rounds [1; 0; -1] 0%nat 4).
  - done.
  - intros [|[|[|n]]]; [done..|].
    rewrite (sumBelow_past _ 3) by (simpl; lia). done.
  - simpl. lia.
Defined.

End ZeroingLoop.

Section KeyOnlyFacts.
Import Flow Indexes.

Lemma foldM_snoc {A S : Type} (f : S → A → result S) l x s :
  JoinNode.foldM f (l ++ [x]) s
  = rbind (JoinNode.foldM f l s) (λ s', f s' x).
Proof.
  revert s. induction l as [|y l IH]; intros s; simpl.
  - by destruct (f s x).
  - destruct (f s y); simpl; [apply IH|done].
Qed.

Lemma allZero_false counts :
  allZero counts = false → ∃ r, cell counts r ≠ 0.
Proof.
  unfold allZero. induction counts as [|c counts IH]; [done|].
  simpl. destruct (bool_decide (c = 0)) eqn:Hc; simpl.
  - intros [r Hr]%IH. by exists (S r).
  - intros _. exists 0%nat. by apply bool_decide_eq_false in Hc.
Qed.

(** [insert] never leaves an array in which every count is 0. *)
Lemma key_only_insert_stored key prefix index index' :
  KeyOnlyIntermediateIndex.insert key prefix index = Ok index' →
  (∀ k counts, index !! k = Some counts → allZero counts = false) →
  ∀ k counts, index' !! k = Some counts → allZero counts = false.
Proof.
  unfold KeyOnlyIntermediateIndex.insert.
  destruct (roundAndCount prefix) as [[round count]|]; [|done].
  cbn [rbind]. set (new := bump _ round count).
  intros Hins Hold k counts.
  assert ((index' = <[key := new]> index ∧ allZero new = false)
          ∨ index' = delete key index) as [[-> Hnew]| ->].
  { destruct (decide (cell new round = 0)) as [Hz|Hnz].
    - destruct (allZero new) eqn:Hall; simplify_eq; auto.
    - simplify_eq. left. split; [done|].
      destruct (allZero new) eqn:Hall; [|done].
      by apply (allZero_cell _ round) in Hall. }
  - destruct (decide (k = key)) as [->|Hne].
    + rewrite lookup_insert_eq. by intros [= <-].
    + rewrite lookup_insert_ne by done. apply Hold.
  - destruct (decide (k = key)) as [->|Hne].
    + by rewrite lookup_delete_eq.
    + rewrite lookup_delete_ne by done. apply Hold.
Qed.

Lemma keyOnlyInserts_spec keys seen index :
  keyOnlyInserts keys seen ∅ = Ok index →
  (∀ key r, cell (default [] (index !! key)) r = tally keys seen key r) ∧
  (∀ k counts, index !! k = Some counts → allZero counts = false).
Proof.
  revert index. induction seen as [|p seen IH] using rev_ind;
    intros index Hrun.
  - injection Hrun as <-. split; [|done]. intros key r.
    by rewrite lookup_empty.
  - unfold keyOnlyInserts in Hrun. rewrite foldM_snoc in Hrun.
    fold (keyOnlyInserts keys seen ∅) in Hrun.
    destruct (keyOnlyInserts keys seen ∅) as [index0|]; [|done].
    cbn [rbind] in Hrun. destruct (IH index0 eq_refl) as [Hcells Hstored].
    split; [|by eapply key_only_insert_stored].
    destruct (roundAndCount p) as [[round count]|] eqn:Hrc.
    2:{ unfold KeyOnlyIntermediateIndex.insert in Hrun.
        by rewrite Hrc in Hrun. }
    destruct (insert_cells tt (λ _ _ _ d, ([], d)) _ _ _ _ _ _ Hrc Hrun)
      as [Hcells' _].
    intros key r.
    by rewrite Hcells', Hcells, (tally_snoc _ _ _ _ _ _ _ Hrc).
Qed.


End KeyOnlyFacts.

Section KeyOnlyExamples.
Import Flow Indexes IndexSamples.


End KeyOnlyExamples.

Section IntermediateLoop.
Import Flow Flow.IntermediateIndex Indexes.

(** The loop over [next] ends within [turns]: more turns collect the
    same. *)
Lemma collect_enough vals round fuel :
  Forall (λ kv, rounds kv.2 ≠ []) vals →
  (turns vals ≤ fuel)%nat →
  collect fuel (reset vals (Z.of_nat round))
  = flat_map (yieldsOf (S round)) (map snd vals).
Proof.
  intros Hrounds Hfuel. unfold reset.
  replace (Z.of_nat round + 1) with (Z.of_nat (S round)) by lia.
  destruct vals as [|[valueKey counts] rest].
  { destruct fuel; [done|]. done. }
  rewrite turns_cons in Hfuel. cbn [snd] in Hfuel.
  destruct fuel as [|fuel]; [lia|].
  cbn [snd lookup list_lookup fmap option_fmap option_map].
  cbn [collect]. unfold step.
  cbn [currentCounts IntermediateIndex.countIx IntermediateIndex.values
       valueIx].
  apply Forall_cons_1 in Hrounds as [Hcounts _]. cbn [snd] in Hcounts.
  assert (1 ≤ length (rounds counts))%nat.
  { destruct (rounds counts); [done|simpl; lia]. }
  rewrite decide_False by lia.
  rewrite (advance_collect ((valueKey, counts) :: rest) (S round) _ _ rest
             0%nat valueKey counts 1%nat).
  - by rewrite decide_True by done.
  - lia.
  - intros. eapply collect_scan; [lia|done..].
  - done.
  - done.
  - done.
  - done.
  - by left.
  - done.
  - lia.
Qed.

Lemma laterYields_nonzero steps counts countIx :
  Forall (λ y : Prefix * Z * Z, y.2 ≠ 0) (laterYields steps counts countIx).
Proof.
  revert countIx. induction steps as [|steps IH]; intros countIx;
    [constructor|].
  cbn [laterYields]. apply Forall_app. split; [|apply IH].
  case_decide; by repeat constructor.
Qed.

Lemma yieldsOf_nonzero mr counts :
  Forall (λ y : Prefix * Z * Z, y.2 ≠ 0) (yieldsOf mr counts).
Proof.
  unfold yieldsOf. case_decide; [|apply laterYields_nonzero].
  apply Forall_app. split; [|apply laterYields_nonzero].
  case_decide; by repeat constructor.
Qed.

(** What a sequence of inserts leaves in the index. *)
Lemma inserts_spec keys seen index :
  inserts keys seen ∅ = Ok index →
  ∀ key,
    wellKept (default [] (index !! key)) ∧
    (index !! key = None
     → Forall (λ p, CreateKeyFunction keys p ≠ key) seen) ∧
    ∀ valueKey r,
      sumBelow (cell (roundsOf valueKey (default [] (index !! key)))) (S r)
      = netFor keys seen key valueKey r.
Proof.
  revert index. induction seen as [|p seen IH] using rev_ind;
    intros index Hrun key.
  - injection Hrun as <-. rewrite lookup_empty. cbn [from_option].
    split; [split; constructor|]. split; [constructor|].
    intros valueKey r. by rewrite sumBelow_zero.
  - unfold inserts in Hrun. rewrite foldM_snoc in Hrun.
    fold (inserts keys seen ∅) in Hrun.
    destruct (inserts keys seen ∅) as [index0|]; [|done].
    cbn [rbind] in Hrun. specialize (IH index0 eq_refl).
    destruct (roundAndCount p) as [[round count]|] eqn:Hrc.
    2:{ unfold insert in Hrun. by rewrite Hrc in Hrun. }
    destruct (intermediate_insert_spec _ _ _ _ _ _ Hrc Hrun)
      as (vals' & -> & Hkept & _ & Hcells).
    destruct (IH (CreateKeyFunction keys p)) as (Hwell & _ & Hsums).
    destruct (decide (key = CreateKeyFunction keys p)) as [->|Hne].
    + rewrite lookup_insert_eq. cbn [from_option id].
      split; [by apply Hkept|]. split; [done|].
      intros valueKey r. rewrite (netFor_snoc _ _ _ _ _ _ _ _ Hrc).
      rewrite (sumBelow_bumped
                 (cell (roundsOf valueKey
                          (default [] (index0
                                       !! CreateKeyFunction keys p))))
                 (cell (roundsOf valueKey vals'))
                 (valueKey = hashPrefix p) round count)
        by (intros i; apply Hcells).
      rewrite Hsums. decided.
    + rewrite lookup_insert_ne by done.
      destruct (IH key) as (Hwell' & Hnone & Hsums').
      split; [done|]. split.
      * intros Hkey. apply Forall_app. split; [by apply Hnone|].
        by repeat constructor.
      * intros valueKey r. rewrite (netFor_snoc _ _ _ _ _ _ _ _ Hrc).
        rewrite Hsums'. rewrite decide_False; [lia|].
        intros (? & _). by apply Hne.
Qed.

(** X3.  Take an [IntermediateIndex] that has taken the inserts of a
    list of prefixes.  If it holds nothing for a key, no prefix with that
    key was inserted and [iter(key, round)] returns [undefined].
    Otherwise the loop [while(p = diffs.next())] over [iter(key, round)]
    ends: [turns] turns, or more, collect the same entries.  The entries have rounds from [round] on and counts that are
    not 0, and up to any round [r] from [round] on the counts of the
    entries of a prefix add up to what the inserted copies of that
    prefix hold up to [r]; before [round] there is no entry. *)
Theorem intermediate_index_iter_sums_inserts keys seen index key round :
  inserts keys seen ∅ = Ok index →
  match index !! key with
  | None =>
      Forall (λ p, CreateKeyFunction keys p ≠ key) seen ∧
      iter key (Z.of_nat round) index = None
  | Some vals =>
      ∃ diffs,
        iter key (Z.of_nat round) index = Some diffs ∧
        (∀ fuel, (turns vals ≤ fuel)%nat →
                 collect fuel (reset vals (Z.of_nat round)) = diffs) ∧
        Forall (λ y, Z.of_nat round ≤ y.1.2 ∧ y.2 ≠ 0) diffs ∧
        ∀ valueKey r,
          netYields diffs valueKey r
          = if decide (round ≤ r)%nat
            then netFor keys seen key valueKey r else 0
  end.
Proof.
  intros Hrun. destruct (inserts_spec _ _ _ Hrun key)
    as (Hwell & Hnone & Hsums).
  unfold iter. destruct (index !! key) as [vals|] eqn:Hvals;
    cbn [from_option id] in *; [|by split; [apply Hnone|]].
  assert (Forall (λ kv, rounds kv.2 ≠ []) vals) as Hrounds.
  { destruct Hwell as [_ Hw]. eapply Forall_impl; [exact Hw|].
    by intros kv [_ ?]. }
  exists (flat_map (yieldsOf (S round)) (map snd vals)).
  split; [by rewrite collect_enough|].
  split; [intros fuel Hfuel; by apply collect_enough|].
  split.
  - apply Forall_forall. intros y Hy. split.
    + destruct (yields_net round vals "" 0 Hwell) as [Hfrom _].
      rewrite Forall_forall in Hfrom. by apply Hfrom.
    + revert y Hy. apply Forall_forall. apply flat_map_Forall.
      intros counts. apply yieldsOf_nonzero.
  - intros valueKey r.
    destruct (yields_net round vals valueKey r Hwell) as [_ ->].
    by rewrite Hsums.
Qed.

End IntermediateLoop.

Section IntermediateExamples.
Import Flow Flow.IntermediateIndex Indexes IndexSamples.

(** Asked from round 0 the index returns the two 6s in their round 1,
    asked from round 3 it returns them in round 3; the 5 that came and
    went is not returned. *)
Example sample_iter :
  iter "6" 0 sampleIndex = Some [([Some 6; Some 1; Some 2], 1, 2)] ∧
  iter "6" 3 sampleIndex = Some [([Some 6; Some 1; Some 2], 3, 2)] ∧
  iter "5" 0 sampleIndex = Some [] ∧
  iter "7" 0 sampleIndex = None.
Proof. vm_compute. done. Qed.

Lemma intermediate_index_iter_sums_inserts_witness :
  inserts oneKey comeAndGo ∅ = Ok sampleIndex ∧
  match sampleIndex !! "6"%string with
  | None =>
      Forall (λ p, CreateKeyFunction oneKey p ≠ "6"%string) comeAndGo ∧
      iter "6" (Z.of_nat 3) sampleIndex = None
  | Some vals =>
      ∃ diffs,
        iter "6" (Z.of_nat 3) sampleIndex = Some diffs ∧
        (∀ fuel, (turns vals ≤ fuel)%nat →
                 collect fuel (reset vals (Z.of_nat 3)) = diffs) ∧
        Forall (λ y, Z.of_nat 3 ≤ y.1.2 ∧ y.2 ≠ 0) diffs ∧
        ∀ valueKey r,
          netYields diffs valueKey r
          = if decide (3 ≤ r)%nat
            then netFor oneKey comeAndGo "6" valueKey r else 0
  end.
Proof.
  split; [vm_compute; reflexivity|].
  apply (intermediate_index_iter_sums_inserts oneKey comeAndGo sampleIndex
           "6" 3).
  vm_compute. reflexivity.
Defined.

End IntermediateExamples.

(** ** The antijoin and the join on their own *)

Section AntiJoinLeft.
Import Flow Indexes.

Context {Distinct : Type}.
Variable newDistinct : Distinct.
Variable distinctKey : string → Z → Z → Distinct → list (Z * Z) * Distinct.

(** The right index of an antijoin is the index of the inserts of what it
    was given on its right. *)
Lemma ran_keyOnlyInserts keys lefts rights results anti :
  ran newDistinct distinctKey keys lefts rights results anti →
  keyRegisters anti = keys ∧
  keyOnlyInserts keys rights ∅ = Ok (rightIndex anti).
Proof.
  induction 1 as [|lefts rights results anti p pushed anti' _ IH Hleft
                  |lefts rights results anti q pushed anti' _ IH Hright].
  - done.
  - destruct IH as [Hkeys Hindex]. unfold onLeft in Hleft.
    destruct (roundAndCount p) as [[round count]|]; [|done].
    cbn [rbind] in Hleft.
    destruct (IntermediateIndex.insert _ _ _); [|done].
    cbn [rbind] in Hleft.
    assert (keyRegisters anti' = keyRegisters anti
            ∧ rightIndex anti' = rightIndex anti) as [-> ->]; [|done].
    case_match; by simplify_eq.
  - destruct IH as [Hkeys Hindex]. unfold onRight in Hright.
    destruct (roundAndCount q) as [[round count]|]; [|done].
    cbn [rbind] in Hright.
    destruct (KeyOnlyIntermediateIndex.insert _ _ _) as [index'|] eqn:Hins;
      [|done].
    cbn [rbind] in Hright.
    destruct (distinctKey _ _ _ _) as [neue distinct'].
    assert (keyRegisters anti' = keyRegisters anti
            ∧ rightIndex anti' = index') as [-> ->].
    { case_match; by simplify_eq. }
    split; [done|]. unfold keyOnlyInserts in *.
    rewrite foldM_snoc, Hindex. cbn [rbind]. by rewrite <- Hkeys.
Qed.

(** X4.  [AntiJoin.onLeft] returns for every prefix that has a round and
    a count.  When the antijoin has been given prefixes on its right
    whose running counts for the key of the prefix are never negative, it
    pushes copies of the prefix, in rounds from the round of the prefix
    on, whose counts add up, up to any round from then on, to the count of
    the prefix if nothing is present on the right for the key up to that
    round, and to 0 if something is.  When the counts on the right for
    the key cancel in every round, it pushes the prefix itself and
    nothing else. *)
Theorem antijoin_left_passes_where_key_absent keys lefts rights results
    anti prefix round count :
  ran newDistinct distinctKey keys lefts rights results anti →
  roundAndCount prefix = Ok (round, count) →
  (∀ r, 0 ≤ present keys rights (CreateKeyFunction keys prefix) r) →
  ∃ pushed anti',
    onLeft anti prefix = Ok (pushed, anti') ∧
    Forall (λ q, ∃ r c, (round ≤ r)%nat
                        ∧ q = stamped prefix (Z.of_nat r) c) pushed ∧
    (∀ r, net pushed r
          = if decide ((round ≤ r)%nat
                       ∧ present keys rights
                                 (CreateKeyFunction keys prefix) r = 0)
            then count else 0) ∧
    ((∀ r, tally keys rights (CreateKeyFunction keys prefix) r = 0) →
     pushed = [prefix]).
Proof.
  intros Hran Hrc Hpos.
  destruct (onLeft_net newDistinct distinctKey keys lefts rights results
              anti prefix round count Hran Hrc Hpos)
    as (pushed & anti' & Hleft & Hcopies & Hnet).
  exists pushed, anti'. split; [done|]. split; [done|]. split; [done|].
  intros Hzero.
  destruct (ran_keyOnlyInserts _ _ _ _ _ Hran) as [Hkeys Hindex].
  apply keyOnlyInserts_spec in Hindex as [Hcells Hstored].
  assert (rightIndex anti !! CreateKeyFunction keys prefix = None)
    as Hnone.
  { destruct (rightIndex anti !! _) as [counts|] eqn:Hcounts; [|done].
    destruct (allZero_false counts (Hstored _ _ Hcounts)) as [r Hr].
    exfalso. apply Hr. specialize (Hcells (CreateKeyFunction keys prefix) r).
    rewrite Hcounts in Hcells. simpl in Hcells. by rewrite Hcells. }
  unfold onLeft in Hleft. rewrite Hrc in Hleft. cbn [rbind] in Hleft.
  destruct (IntermediateIndex.insert _ _ _); [|done].
  cbn [rbind] in Hleft. rewrite Hkeys in Hleft.
  unfold KeyOnlyIntermediateIndex.iter in Hleft. rewrite Hnone in Hleft.
  by injection Hleft as <- _.
Qed.

End AntiJoinLeft.

Section AntiJoinLeftExamples.
Import Flow FlowSamples.

Lemma sampleAnti_ran :
  ran [] DistinctIndex.distinctKey (unionOfKeys sampleKeys) [] [earlier]
      [] sampleAnti.
Proof.
  apply (ran_right [] DistinctIndex.distinctKey _ [] [] []
                   (newAnti [] (unionOfKeys sampleKeys)) earlier []);
    [constructor|].
  vm_compute. reflexivity.
Qed.

Lemma antijoin_left_passes_where_key_absent_witness :
  roundAndCount otherKey = Ok (0%nat, 1) ∧
  ∃ pushed anti',
    onLeft sampleAnti otherKey = Ok (pushed, anti') ∧
    Forall (λ q, ∃ r c, (0 ≤ r)%nat
                        ∧ q = stamped otherKey (Z.of_nat r) c) pushed ∧
    (∀ r, net pushed r
          = if decide ((0 ≤ r)%nat
                       ∧ present (unionOfKeys sampleKeys) [earlier]
                                 (CreateKeyFunction (unionOfKeys sampleKeys)
                                                    otherKey) r = 0)
            then 1 else 0) ∧
    ((∀ r, tally (unionOfKeys sampleKeys) [earlier]
                 (CreateKeyFunction (unionOfKeys sampleKeys) otherKey) r
           = 0) →
     pushed = [otherKey]).
Proof.
  split; [reflexivity|].
  apply (antijoin_left_passes_where_key_absent [] DistinctIndex.distinctKey
           (unionOfKeys sampleKeys) [] [earlier] [] sampleAnti otherKey
           0%nat 1).
  - apply sampleAnti_ran.
  - reflexivity.
  - intros r. apply sumBelow_nonneg. intros i. unfold tally. simpl.
    repeat case_match; lia.
Defined.

End AntiJoinLeftExamples.

(** ** The interner: lookups, references and the free list *)

Section InternerLaws.
Import Interner.

Lemma coll_lookup_reverse s v id :
  wf s → (coll_lookup s v = Some id ↔ IDs s !! id = Some v).
Proof.
  intros Hwf. split; [|apply (wf_ids _ Hwf)].
  destruct v as [k|z]; simpl.
  - apply (wf_strings _ Hwf).
  - intros (z' & Heq & Hid)%(wf_numbers _ Hwf).
    apply (inj pretty) in Heq. by subst.
Qed.

(** X5.  In every state that an interner reaches from [new Interner()]
    by interning values and by referencing or releasing live IDs, [get]
    and [reverse] agree: [get(v)] is [id] exactly when [reverse(id)] is
    [v].  An ID with a value is not negative, lies below [currentID], is
    not in the free list and has a reference count of at least 1. *)
Theorem interner_get_agrees_with_reverse s v id :
  reachable s →
  (get v s = Some id ↔ reverse s id = Some v) ∧
  (reverse s id = Some v →
   (0 ≤ id < currentID s) ∧ (id ∉ IDFreeList s) ∧
   ∃ n, IDRefCount s !! id = Some (JNum n) ∧ 0 < n).
Proof.
  intros Hwf%reachable_wf. split; [by apply coll_lookup_reverse|].
  unfold reverse. intros Hid.
  split; [by apply (wf_bound _ Hwf _ v)|]. split.
  - intros [_ Hnone]%(wf_free _ Hwf). congruence.
  - by apply (wf_refs _ Hwf _ v).
Qed.

Lemma interner_get_agrees_with_reverse_witness :
  let s := (intern (RStr "tag") new).2 in
  (get (RStr "tag") s = Some 0 ↔ reverse s 0 = Some (RStr "tag")) ∧
  (reverse s 0 = Some (RStr "tag") →
   (0 ≤ 0 < currentID s) ∧ (0 ∉ IDFreeList s) ∧
   ∃ n, IDRefCount s !! 0 = Some (JNum n) ∧ 0 < n).
Proof.
  intros s.
  apply (interner_get_agrees_with_reverse s (RStr "tag") 0).
  apply reach_intern, reach_new.
Defined.

Lemma coll_lookup_release_other s id v w :
  IDs s !! id = Some v → w ≠ v →
  ∀ rc,
    coll_lookup
      (match IDs s !! id with
       | Some (RNum z) =>
           {| currentID := currentID s; strings := strings s;
              numbers := delete (pretty z) (numbers s);
              IDs := delete id (IDs s); IDRefCount := rc;
              IDFreeList := id :: IDFreeList s |}
       | Some (RStr k) =>
           {| currentID := currentID s;
              strings := delete k (strings s);
              numbers := numbers s;
              IDs := delete id (IDs s); IDRefCount := rc;
              IDFreeList := id :: IDFreeList s |}
       | None =>
           {| currentID := currentID s;
              strings := delete "undefined"%string (strings s);
              numbers := numbers s;
              IDs := delete id (IDs s); IDRefCount := rc;
              IDFreeList := id :: IDFreeList s |}
       end) w
    = coll_lookup s w.
Proof.
  intros Hv Hne rc. rewrite Hv.
  destruct v as [k|z], w as [k'|z']; simpl; try done.
  - rewrite lookup_delete_ne; [done|]. congruence.
  - rewrite lookup_delete_ne; [done|].
    intros Heq%(inj pretty). congruence.
Qed.

(** What the release of the last reference leaves. *)
Lemma release_last_reference s id v :
  reachable s →
  reverse s id = Some v →
  IDRefCount s !! id = Some (JNum 1) →
  let s' := release (Some id) s in
  IDFreeList s' = id :: IDFreeList s ∧
  currentID s' = currentID s ∧
  coll_lookup s' v = None ∧
  (∀ w, w ≠ v → coll_lookup s' w = coll_lookup s w).
Proof.
  intros Hreach Hv Hn s'. unfold reverse in Hv.
  unfold s', release. rewrite Hn. cbn [decr falsy].
  rewrite bool_decide_eq_true_2 by lia.
  split; [rewrite Hv; by destruct v|].
  split; [rewrite Hv; by destruct v|].
  split; [rewrite Hv; destruct v; simpl; by rewrite lookup_delete_eq|].
  intros w Hw. by apply (coll_lookup_release_other s id v w).
Qed.

(** X6.  [release(id)] of a live ID takes one reference away.  When it
    was the last one, the ID loses its value, [get] no longer finds the
    value, and the ID is put on the free list; otherwise the ID keeps its
    value with one reference less and the free list stays.  In both
    cases every other ID and every other value is looked up as before,
    and the state is one that the interner can be used from. *)
Theorem release_drops_one_reference s id v n :
  reachable s →
  reverse s id = Some v →
  IDRefCount s !! id = Some (JNum n) →
  let s' := release (Some id) s in
  reachable s' ∧
  (∀ id', id' ≠ id → reverse s' id' = reverse s id') ∧
  (∀ w, w ≠ v → get w s' = get w s) ∧
  if decide (n = 1)
  then reverse s' id = None ∧ get v s' = None
       ∧ IDFreeList s' = id :: IDFreeList s
  else reverse s' id = Some v ∧ get v s' = Some id
       ∧ IDRefCount s' !! id = Some (JNum (n - 1))
       ∧ IDFreeList s' = IDFreeList s.
Proof.
  intros Hreach Hv Hn s'. pose proof (reachable_wf _ Hreach) as Hwf.
  unfold reverse in *.
  split; [by apply reach_release; [|eexists]|].
  destruct (wf_refs _ Hwf _ _ Hv) as (n' & Hn' & Hpos).
  assert (n' = n) as -> by congruence.
  assert (coll_lookup s v = Some id) as Hget by by apply (wf_ids _ Hwf).
  unfold s', release, get. rewrite Hn. cbn [decr falsy].
  destruct (decide (n = 1)) as [->|Hmore].
  - rewrite bool_decide_eq_true_2 by lia.
    split; [|split; [|split; [|split]]].
    + intros id' Hne. rewrite Hv.
      destruct v; simpl; by rewrite lookup_delete_ne.
    + intros w Hw. by apply (coll_lookup_release_other s id v w).
    + rewrite Hv. destruct v; simpl; by rewrite lookup_delete_eq.
    + rewrite Hv. destruct v; simpl; by rewrite lookup_delete_eq.
    + rewrite Hv. by destruct v.
  - rewrite bool_decide_eq_false_2 by lia. cbn [IDs IDRefCount IDFreeList].
    split; [done|]. split; [by intros; destruct w|].
    split; [done|]. split; [by destruct v|].
    split; [by rewrite lookup_insert_eq|done].
Qed.

Lemma release_drops_one_reference_witness :
  let s := (intern (RStr "tag") (intern (RStr "tag") new).2).2 in
  let s' := release (Some 0) s in
  reachable s' ∧
  (∀ id', id' ≠ 0 → reverse s' id' = reverse s id') ∧
  (∀ w, w ≠ RStr "tag" → get w s' = get w s) ∧
  if decide (2 = 1)
  then reverse s' 0 = None ∧ get (RStr "tag") s' = None
       ∧ IDFreeList s' = 0 :: IDFreeList s
  else reverse s' 0 = Some (RStr "tag") ∧ get (RStr "tag") s' = Some 0
       ∧ IDRefCount s' !! 0 = Some (JNum (2 - 1))
       ∧ IDFreeList s' = IDFreeList s.
Proof.
  intros s.
  apply (release_drops_one_reference s 0 (RStr "tag") 2).
  - do 2 apply reach_intern. apply reach_new.
  - reflexivity.
  - reflexivity.
Defined.

(** X7.  Interning a value and then releasing the ID that [intern]
    returned leaves every lookup as it was: [get] of every value and
    [reverse] of every ID return what they returned before, whether the
    value was interned already or not. *)
Theorem intern_then_release_restores_lookups s v :
  reachable s →
  let s' := release (Some (intern v s).1) (intern v s).2 in
  reachable s' ∧
  (∀ w, get w s' = get w s) ∧
  (∀ id, reverse s' id = reverse s id).
Proof.
  intros Hreach s'. pose proof (reachable_wf _ Hreach) as Hwf.
  destruct (intern_registers v s Hwf) as [_ Hrev].
  split.
  { apply reach_release; [by apply reach_intern|]. by exists v. }
  unfold s', intern, get, reverse in *.
  destruct (coll_lookup s v) as [found|] eqn:Hfound.
  - apply (coll_lookup_reverse _ _ _ Hwf) in Hfound as Hid.
    destruct (wf_refs _ Hwf _ _ Hid) as (n & Hn & Hpos).
    cbn [fst snd]. unfold release, reference. cbn [IDRefCount IDs].
    rewrite lookup_insert_eq, Hn. cbn [incr decr falsy].
    rewrite bool_decide_eq_false_2 by lia.
    split; [by intros []|done].
  - destruct (_getFreeID s) as [id s1] eqn:Hfree.
    destruct (getFreeID_spec _ _ _ Hwf Hfree)
      as (Hnone & _ & _ & Hstrings & Hnumbers & Hids & _).
    cbn [fst snd]. unfold release. cbn [IDRefCount IDs].
    rewrite !lookup_insert_eq. cbn [decr falsy].
    rewrite bool_decide_eq_true_2 by lia.
    split.
    + intros w.
      destruct v as [k|z], w as [k'|z']; simpl in *;
        rewrite ?Hstrings, ?Hnumbers; try done.
      * destruct (decide (k' = k)) as [->|Hne].
        -- by rewrite lookup_delete_eq.
        -- by rewrite lookup_delete_ne, lookup_insert_ne.
      * destruct (decide (pretty z' = pretty z)) as [Heq|Hne].
        -- rewrite Heq in *. by rewrite lookup_delete_eq.
        -- by rewrite lookup_delete_ne, lookup_insert_ne.
    + intros i. destruct v; simpl; rewrite Hids.
      all: destruct (decide (i = id)) as [->|Hne];
        [by rewrite lookup_delete_eq
        |by rewrite lookup_delete_ne, lookup_insert_ne].
Qed.

Lemma intern_then_release_restores_lookups_witness :
  let s := (intern (RNum 7) new).2 in
  let s' := release (Some (intern (RStr "tag") s).1)
                    (intern (RStr "tag") s).2 in
  reachable s' ∧
  (∀ w, get w s' = get w s) ∧
  (∀ id, reverse s' id = reverse s id).
Proof.
  intros s.
  apply (intern_then_release_restores_lookups s (RStr "tag")).
  apply reach_intern, reach_new.
Defined.

(** X8.  When the last reference to an ID is released, the next [intern]
    of a value that is not interned hands that ID out again, unless the
    ID is 0: [_getFreeID] takes a popped 0 for no ID and hands out
    [currentID] instead.  In both cases the ID is gone from the free
    list. *)
Theorem released_id_is_reused_unless_zero s id v w :
  reachable s →
  reverse s id = Some v →
  IDRefCount s !! id = Some (JNum 1) →
  get w s = None ∨ w = v →
  let s' := release (Some id) s in
  (intern w s').1 = (if decide (id = 0) then currentID s else id) ∧
  IDFreeList (intern w s').2 = IDFreeList s.
Proof.
  intros Hreach Hv Hn Hw s'.
  destruct (release_last_reference s id v Hreach Hv Hn)
    as (Hfree & Hcur & Hgone & Hother).
  fold s' in Hfree, Hcur, Hgone, Hother.
  assert (coll_lookup s' w = None) as Hnone.
  { destruct (decide (w = v)) as [->|Hne]; [done|].
    destruct Hw as [Hw|?]; [|done]. by rewrite Hother. }
  unfold intern. rewrite Hnone. unfold _getFreeID. rewrite Hfree, Hcur.
  destruct (decide (id = 0)) as [->|Hnz].
  - rewrite bool_decide_eq_true_2 by done. by destruct w.
  - rewrite bool_decide_eq_false_2 by done. by destruct w.
Qed.

Lemma released_id_is_reused_unless_zero_witness :
  let s := (intern (RStr "tag") (intern (RNum 7) new).2).2 in
  let s' := release (Some 1) s in
  (intern (RStr "other") s').1 = (if decide (1 = 0) then currentID s else 1) ∧
  IDFreeList (intern (RStr "other") s').2 = IDFreeList s.
Proof.
  intros s.
  apply (released_id_is_reused_unless_zero s 1 (RStr "tag") (RStr "other")).
  - do 2 apply reach_intern. apply reach_new.
  - reflexivity.
  - reflexivity.
  - by left.
Defined.

(** The ID 0 is not handed out again once it is released. *)
Example zero_is_not_reused :
  let s := release (Some 0) (intern (RNum 7) new).2 in
  IDFreeList s = [0] ∧
  (intern (RStr "other") s).1 = 1 ∧
  IDFreeList (intern (RStr "other") s).2 = [].
Proof. done. Qed.

End InternerLaws.

(** ** Iterators and arrays *)

Section IteratorFacts.
Import Iterator.

Context {T : Type}.

Lemma aset_within (arr : list (option T)) i x :
  (i ≤ base.length arr)%nat →
  aset arr i x = take i arr ++ x :: drop (S i) arr.
Proof.
  intros Hi. unfold aset. case_decide as Hlen.
  - by apply insert_take_drop.
  - assert (i = base.length arr) as -> by lia.
    rewrite Nat.sub_diag, firstn_all, drop_ge by lia. done.
Qed.

(** What a sequence of pushes leaves: the values from [length] on, and
    the slots of the array before and after them as they were. *)
Lemma pushAll_spec (values : list T) :
  ∀ it, readOnly it = false →
    (length it ≤ base.length (array it))%nat →
    ∃ it',
      pushAll values it = Ok it' ∧
      length it' = (length it + base.length values)%nat ∧
      ix it' = ix it ∧ readOnly it' = false ∧
      array it'
      = take (length it) (array it) ++ (Some <$> values)
        ++ drop (length it + base.length values) (array it).
Proof.
  induction values as [|v values IH]; intros it Hrw Hlen.
  - exists it. split; [done|]. split; [simpl; lia|]. split; [done|].
    split; [done|]. simpl. rewrite Nat.add_0_r. by rewrite take_drop.
  - unfold pushAll. cbn [JoinNode.foldM]. unfold push at 1. rewrite Hrw.
    rewrite aset_within by done.
    set (it1 := mk (take (length it) (array it)
                    ++ Some v :: drop (S (length it)) (array it))
                   (S (length it)) (ix it) false).
    destruct (IH it1 eq_refl) as (it' & Hrun & Hlen' & Hix & Hro & Harr).
    { cbn [length array it1]. rewrite length_app, length_take. simpl. lia. }
    exists it'. split; [exact Hrun|]. cbn [length ix array it1] in *.
    split; [simpl; lia|]. split; [done|]. split; [done|].
    rewrite Harr.
    assert (base.length (take (length it) (array it)) = length it) as Htake.
    { rewrite length_take. lia. }
    rewrite take_app_ge by lia. rewrite Htake.
    replace (S (length it) - length it)%nat with 1%nat by lia.
    rewrite drop_app_ge by lia. rewrite Htake.
    replace (S (length it) + base.length values - length it)%nat
      with (S (base.length values)) by lia.
    cbn [take drop fmap list_fmap]. rewrite drop_drop.
    rewrite <- !app_assoc. cbn [app].
    rewrite take_0. cbn [app base.length].
    by rewrite Nat.add_succ_r.
Qed.

(** The loop over [next] returns the slots from [ix] to [length] as long
    as they hold values. *)
Lemma drain_values (values : list T) :
  ∀ fuel it,
    (∀ j, (j < base.length values)%nat →
          mjoin (array it !! (ix it + j)%nat) = values !! j) →
    length it = (ix it + base.length values)%nat →
    (base.length values < fuel)%nat →
    ∃ it', drain fuel it = (values, it') ∧ (next it').1 = None
           ∧ array it' = array it.
Proof.
  induction values as [|v values IH]; intros fuel it Hget Hlen Hfuel.
  - destruct fuel as [|fuel]; [simpl in Hfuel; lia|]. cbn [drain].
    unfold next. rewrite decide_False by (simpl in Hlen; lia).
    exists it. split; [done|]. split; [|done].
    by rewrite decide_False by (simpl in Hlen; lia).
  - destruct fuel as [|fuel]; [simpl in Hfuel; lia|]. cbn [drain].
    unfold next at 1. rewrite decide_True by (simpl in Hlen; lia).
    specialize (Hget 0%nat) as Hhead. rewrite Nat.add_0_r in Hhead.
    rewrite Hhead by (simpl; lia). cbn [lookup list_lookup].
    set (it1 := mk (array it) (length it) (S (ix it)) (readOnly it)).
    destruct (IH fuel it1) as (it' & Hrun & Hend & Harr).
    + intros j Hj. cbn [array ix it1].
      replace (S (ix it) + j)%nat with (ix it + S j)%nat by lia.
      rewrite Hget by (simpl; lia). done.
    + cbn [length ix it1]. simpl in Hlen. lia.
    + simpl in Hfuel. lia.
    + rewrite Hrun. by exists it'.
Qed.

(** X9.  Whatever an iterator has held, after [clear()] and pushes of
    some values the loop [while((x = it.next()) !== undefined)] returns
    these values, in the order of the pushes, and ends: one turn more
    than there are values is enough, and [next()] goes on returning
    [undefined].  The backing array is not cut: the pushes overwrite its
    first slots and the slots behind them stay as they were. *)
Theorem iterator_clear_push_next (it : t T) (values : list T) fuel :
  readOnly it = false →
  (base.length values < fuel)%nat →
  ∃ pushed drained,
    pushAll values (clear it) = Ok pushed ∧
    drain fuel pushed = (values, drained) ∧
    (next drained).1 = None ∧
    array drained
    = (Some <$> values) ++ drop (base.length values) (array it).
Proof.
  intros Hrw Hfuel.
  destruct (pushAll_spec values (clear it) Hrw)
    as (pushed & Hrun & Hlen & Hix & Hro & Harr).
  { cbn [clear reset length]. lia. }
  cbn [clear reset length ix array plus] in *.
  rewrite take_0 in Harr. cbn [app] in Harr.
  destruct (drain_values values fuel pushed)
    as (drained & Hdrain & Hend & Hsame).
  - intros j Hj. rewrite Hix, Harr. cbn [plus].
    rewrite lookup_app_l by (rewrite length_fmap; lia).
    rewrite list_lookup_fmap. by destruct (values !! j).
  - lia.
  - done.
  - exists pushed, drained. by rewrite Hsame.
Qed.

(** X10.  [iter()] on an iterator that holds some values returns a
    read-only iterator that starts at the first value, wherever the
    iterator itself has got to: the loop over its [next()] returns all
    the values and ends.  A [push] on it throws and leaves nothing
    written. *)
Theorem iterator_iter_reads_from_start (it : t T) (values : list T) rest
    fuel value :
  array it = (Some <$> values) ++ rest →
  length it = base.length values →
  (base.length values < fuel)%nat →
  (∃ drained,
     drain fuel (iter it) = (values, drained) ∧ (next drained).1 = None) ∧
  push value (iter it)
  = Fail (Thrown "Cannot write to a readonly iterator").
Proof.
  intros Harr Hlen Hfuel. split; [|done].
  destruct (drain_values values fuel (iter it))
    as (drained & Hdrain & Hend & _).
  - intros j Hj. cbn [iter array ix plus]. rewrite Harr.
    rewrite lookup_app_l by (rewrite length_fmap; lia).
    rewrite list_lookup_fmap. by destruct (values !! j).
  - cbn [iter length ix]. lia.
  - done.
  - by exists drained.
Qed.

End IteratorFacts.

Section IteratorExamples.
Import Iterator.

Lemma iterator_clear_push_next_witness :
  let it := mk [Some 1; Some 2; Some 3] 3 2 false in
  ∃ pushed drained,
    pushAll [7; 8] (clear it) = Ok pushed ∧
    drain 3 pushed = ([7; 8], drained) ∧
    (next drained).1 = None ∧
    array drained = (Some <$> [7; 8]) ++ drop 2 (array it).
Proof.
  intros it.
  apply (iterator_clear_push_next it [7; 8] 3); [reflexivity|simpl; lia].
Defined.

Lemma iterator_iter_reads_from_start_witness :
  let it := mk [Some 7; Some 8; Some 3] 2 2 false in
  (∃ drained,
     drain 3 (iter it) = ([7; 8], drained) ∧ (next drained).1 = None) ∧
  push 9 (iter it) = Fail (Thrown "Cannot write to a readonly iterator").
Proof.
  intros it.
  apply (iterator_iter_reads_from_start it [7; 8] [Some 3] 3 9);
    [reflexivity|reflexivity|simpl; lia].
Defined.

End IteratorExamples.

Section MoveArray.
Import JoinNode.

(** X11.  [moveArray(arr, arr2)] returns [arr2] with the length of [arr]
    and with [arr[0]] in its first slot.  The loop does not advance its
    index, so no other value of [arr] is copied: a later slot holds what
    [arr2] held there, or a hole where [arr2] was shorter.  The result is
    a copy of [arr] when [arr] has at most one element. *)
Theorem moveArray_copies_first_slot_only (arr : list Register)
    (arr2 : list (option Register)) :
  length (moveArray arr arr2) = length arr ∧
  (∀ x rest, arr = x :: rest → moveArray arr arr2 !! 0%nat = Some (Some x)) ∧
  (∀ i, (0 < i < length arr)%nat →
        moveArray arr arr2 !! i = Some (mjoin (arr2 !! i))) ∧
  ((length arr ≤ 1)%nat → moveArray arr arr2 = Some <$> arr).
Proof.
  unfold moveArray.
  set (arr2' := match arr with
                | [] => arr2
                | x :: _ => match arr2 with
                            | [] => [Some x]
                            | _ :: rest => Some x :: rest
                            end
                end).
  assert (∀ i, (0 < i)%nat → arr2' !! i = arr2 !! i) as Hrest.
  { intros [|i] Hi; [lia|]. unfold arr2'.
    destruct arr as [|x rest]; [done|]. by destruct arr2. }
  assert (length arr2' = length arr2 ∨ (arr2 = [] ∧ length arr2' = 1%nat))
    as Hlen.
  { unfold arr2'. destruct arr as [|x rest]; [by left|].
    destruct arr2; [by right|by left]. }
  split; [|split; [|split]].
  - rewrite length_app, length_take, length_replicate. lia.
  - intros x rest ->. unfold arr2'. by destruct arr2.
  - intros i Hi.
    destruct (decide (i < length arr2')%nat) as [Hin|Hout].
    + rewrite lookup_app_l by (rewrite length_take; lia).
      rewrite lookup_take_lt by lia. rewrite Hrest by lia.
      destruct (arr2 !! i) as [x|] eqn:Hx; [done|].
      apply lookup_ge_None_1 in Hx.
      destruct Hlen as [?|[-> ?]]; simpl in *; lia.
    + rewrite lookup_app_r by (rewrite length_take; lia).
      rewrite length_take. rewrite lookup_replicate_2 by lia.
      rewrite (lookup_ge_None_2 arr2); [done|].
      destruct Hlen as [Hlen|[-> _]]; simpl; lia.
  - intros Hshort. destruct arr as [|x [|y rest]]; [| |simpl in *; lia].
    + by rewrite take_0.
    + unfold arr2'. by destruct arr2.
Qed.

End MoveArray.

Section MoveArrayExamples.
Import JoinNode.

(** Of two registers only the first is moved; the second slot is a
    hole. *)
Example moveArray_two :
  moveArray [mkRegister 4; mkRegister 5] [] = [Some (mkRegister 4); None] ∧
  moveArray [mkRegister 4; mkRegister 5] [Some (mkRegister 1);
                                          Some (mkRegister 2);
                                          Some (mkRegister 3)]
  = [Some (mkRegister 4); Some (mkRegister 2)].
Proof. done. Qed.

End MoveArrayExamples.

(** ** Scans and moves *)

Section ScanFacts.
Import Join.

Lemma pget_pset (p : Prefix) i x j :
  pget (pset p i x) j = if decide (j = i) then x else pget p j.
Proof.
  unfold pget, pset. case_decide as Hlen.
  - destruct (decide (j = i)) as [->|Hne].
    + by rewrite list_lookup_insert_eq.
    + by rewrite list_lookup_insert_ne.
  - destruct (decide (j < length p)%nat).
    { rewrite lookup_app_l by done. rewrite decide_False by lia. done. }
    rewrite lookup_app_r by lia.
    rewrite (lookup_ge_None_2 p j) by lia.
    destruct (decide (j - length p < i - length p)%nat).
    { rewrite lookup_app_l by (rewrite length_replicate; lia).
      rewrite lookup_replicate_2 by lia. rewrite decide_False by lia.
      done. }
    rewrite lookup_app_r by (rewrite length_replicate; lia).
    rewrite length_replicate.
    destruct (decide (j = i)) as [->|Hne].
    + by rewrite Nat.sub_diag.
    + destruct (j - length p - (i - length p))%nat eqn:Hd; [lia|done].
Qed.

(** What the fields of [applyInput] that have passed leave in the
    prefix. *)
Lemma scan_applyFields_pass s input fields :
  ∀ prefix prefix',
    scan_applyFields s input fields prefix = (pass, prefix') →
    (∀ f r, f ∈ fields → scan_field s f = Reg r →
            pget prefix' (offset r) = Some (change_field input f) ∧
            (pget prefix (offset r) = None
             ∨ pget prefix (offset r) = Some (change_field input f))) ∧
    (∀ o x, pget prefix o = Some x → pget prefix' o = Some x) ∧
    (∀ o, (∀ f r, f ∈ fields → scan_field s f = Reg r → offset r ≠ o) →
          pget prefix' o = pget prefix o).
Proof.
  induction fields as [|f fields IH]; intros prefix prefix' Hrun;
    simpl in Hrun.
  - injection Hrun as <-. split; [|done]. by intros f r ?%elem_of_nil.
  - destruct (scan_applyField s input f prefix) as [prefix1|] eqn:Hfield;
      [|done].
    destruct (IH _ _ Hrun) as (Hregs & Hkeep & Hother).
    unfold scan_applyField in Hfield.
    assert (∀ o x, pget prefix o = Some x → pget prefix1 o = Some x)
      as Hkeep1.
    { intros o x Hx. destruct (scan_field s f) as [r| |]; simplify_eq;
        [|done..].
      destruct (pget prefix (offset r)) as [y|] eqn:Hy.
      - case_bool_decide; [|done]. simplify_eq. rewrite pget_pset.
        case_decide; congruence.
      - simplify_eq. rewrite pget_pset. case_decide; congruence. }
    split; [|split].
    + intros f' r [->|Hin]%elem_of_cons Hreg.
      * rewrite Hreg in Hfield.
        destruct (pget prefix (offset r)) as [y|] eqn:Hy.
        -- case_bool_decide; [|done]. simplify_eq. split; [|by right].
           apply Hkeep. rewrite pget_pset. by rewrite decide_True.
        -- simplify_eq. split; [|by left].
           apply Hkeep. rewrite pget_pset. by rewrite decide_True.
      * destruct (Hregs f' r Hin Hreg) as [Hset Hwas]. split; [done|].
        destruct (pget prefix (offset r)) as [y|] eqn:Hy; [|by left].
        right. apply Hkeep1 in Hy. destruct Hwas; congruence.
    + intros o x Hx. by apply Hkeep, Hkeep1.
    + intros o Hfree. rewrite Hother.
      2:{ intros f' r Hin. apply Hfree. by right. }
      destruct (scan_field s f) as [r| |] eqn:Hreg; simplify_eq;
        [|done..].
      assert (offset r ≠ o) as Hne by (apply (Hfree f); [by left|done]).
      destruct (pget prefix (offset r)) as [y|] eqn:Hy.
      * case_bool_decide; [|done]. simplify_eq. rewrite pget_pset.
        by rewrite decide_False.
      * simplify_eq. rewrite pget_pset. by rewrite decide_False.
Qed.

Lemma matchesInput_field s input (prefix' : Prefix) f :
  notStaticMatch s input f = false →
  (∀ r, scan_field s f = Reg r →
        pget prefix' (offset r) = Some (change_field input f)) →
  matchesInput (resolveField (scan_field s f) prefix')
               (change_field input f) = true.
Proof.
  unfold notStaticMatch. intros Hstatic Hreg.
  destruct (scan_field s f) as [r|id|]; simpl.
  - rewrite (Hreg r eq_refl). simpl. by apply bool_decide_eq_true.
  - by apply negb_false_iff in Hstatic.
  - done.
Qed.

(** X12.  When a scan is affected by an input ([isAffected] does not
    return [none]) and [applyInput] passes, every register field of the
    scan holds the value that the input has in that field, a slot that
    was bound before held that value already, the other slots of the
    prefix are as they were, and [acceptInput] accepts the input on the
    new prefix, whatever the index holds. *)
Theorem scan_applied_input_is_accepted (index : Index) s input
    (prefix prefix' : Prefix) transaction round :
  scan_isAffected s input = pass →
  scan_applyInput s input prefix = (pass, prefix') →
  scan_acceptInput index s input prefix' transaction round = Ok true ∧
  (∀ f r, scan_field s f = Reg r →
          pget prefix' (offset r) = Some (change_field input f) ∧
          (pget prefix (offset r) = None
           ∨ pget prefix (offset r) = Some (change_field input f))) ∧
  (∀ o, o ∉ map offset (scan_registers s) → pget prefix' o = pget prefix o).
Proof.
  intros Haffected Hrun.
  destruct (scan_applyFields_pass _ _ _ _ _ Hrun) as (Hregs & _ & Hother).
  assert (∀ f, f ∈ [Fe; Fa; Fv; Fn]) as Hall.
  { intros []; rewrite !elem_of_cons; auto 10. }
  assert (∀ f, notStaticMatch s input f = false) as Hstatic.
  { unfold scan_isAffected in Haffected.
    destruct (notStaticMatch s input Fe) eqn:?,
             (notStaticMatch s input Fa) eqn:?,
             (notStaticMatch s input Fv) eqn:?,
             (notStaticMatch s input Fn) eqn:?; try done.
    by intros []. }
  split; [|split].
  - assert (∀ f, matchesInput (resolveField (scan_field s f) prefix')
                              (change_field input f) = true) as Hmatch.
    { intros f. apply matchesInput_field; [done|].
      intros r Hr. by apply (Hregs _ r (Hall _)). }
    pose proof (Hmatch Fe) as He. pose proof (Hmatch Fa) as Ha.
    pose proof (Hmatch Fv) as Hv. pose proof (Hmatch Fn) as Hn.
    cbn [scan_field change_field] in He, Ha, Hv, Hn.
    unfold scan_acceptInput. by rewrite He, Ha, Hv, Hn.
  - intros f r Hr. by apply Hregs.
  - intros o Ho. apply Hother. intros f r _ Hr <-. apply Ho.
    apply list_elem_of_fmap. exists r. split; [done|].
    unfold scan_registers. apply list_elem_of_In, in_flat_map.
    exists (scan_field s f). split.
    + destruct f; simpl; auto.
    + rewrite Hr. by left.
Qed.

End ScanFacts.

Section MoveFacts.
Import Join.

(** A move accepts a prefix in which its target holds the value of its
    source. *)
Lemma move_accept_after_set m (prefix : Prefix) x :
  (move_resolve m prefix).1 = Some x →
  move_accept m (pset prefix (offset (to m)) (Some x)) = true.
Proof.
  unfold move_accept, move_resolve. cbn [fst]. intros Hfrom.
  rewrite pget_pset, decide_True by done.
  destruct (from m) as [r|id].
  - rewrite pget_pset. case_decide; [by apply bool_decide_eq_true|].
    rewrite Hfrom. by apply bool_decide_eq_true.
  - injection Hfrom as ->. by apply bool_decide_eq_true.
Qed.

(** X13.  A move constraint accepts what it has written and what it has
    proposed.  When [applyInput] passes, it has written the value of its
    source to its target register, and the move accepts the new prefix.
    When [propose] does not ask to be skipped, the source has a value and
    the target is not bound, [resolveProposal] returns that one value,
    and the move accepts the prefix once the value is bound to the
    target.  [accept] rejects a prefix exactly when source and target
    both have values and these differ. *)
Theorem move_accepts_what_it_writes m (prefix : Prefix) :
  (∀ prefix',
     move_applyInput m prefix = (pass, prefix') →
     ∃ x, (move_resolve m prefix).1 = Some x ∧
          prefix' = pset prefix (offset (to m)) (Some x) ∧
          move_accept m prefix' = true) ∧
  (skip (move_propose m prefix) = false →
   ∃ x, move_resolveProposal m prefix = Flat [Some x] ∧
        pget prefix (offset (to m)) = None ∧
        move_accept m (pset prefix (offset (to m)) (Some x)) = true) ∧
  (move_accept m prefix = false
   ↔ ∃ x y, move_resolve m prefix = (Some x, Some y) ∧ x ≠ y).
Proof.
  split; [|split].
  - intros prefix'. unfold move_applyInput.
    destruct (shouldApplyInput m); [|done].
    destruct (move_resolve m prefix) as [value current] eqn:Hres.
    destruct value as [x|]; [|done]. case_bool_decide; [|done].
    intros [= <-]. exists x. split; [done|]. split; [done|].
    apply move_accept_after_set. by rewrite Hres.
  - unfold move_propose, move_resolveProposal.
    destruct (move_resolve m prefix) as [value current] eqn:Hres.
    cbn [skip fst]. intros Hskip%negb_false_iff%bool_decide_eq_true.
    destruct Hskip as [[x ->] ->]. exists x. split; [done|].
    split.
    + unfold move_resolve in Hres. by injection Hres as _ ->.
    + apply move_accept_after_set. by rewrite Hres.
  - unfold move_accept.
    destruct (move_resolve m prefix) as [[x|] [y|]]; split;
      try done; try (by intros (? & ? & [=] & _)).
    + intros Hne%bool_decide_eq_false. by exists x, y.
    + intros (x' & y' & [= <- <-] & Hne). by apply bool_decide_eq_false.
Qed.

End MoveFacts.

Section ConstraintExamples.
Import Join JoinSamples.

Lemma scan_applied_input_is_accepted_witness :
  let s := mkScan (Reg (mkRegister 0)) (Static 2) (Reg (mkRegister 1))
                  IGNORE_REG in
  let input := Change.mk Change.CChange 10 2 30 4 1 0 1 in
  let prefix : Prefix := [None; None; None; None] in
  let prefix' : Prefix := [Some 10; Some 30; None; None] in
  scan_acceptInput noIndex s input prefix' 1 0 = Ok true ∧
  (∀ f r, scan_field s f = Reg r →
          pget prefix' (offset r) = Some (change_field input f) ∧
          (pget prefix (offset r) = None
           ∨ pget prefix (offset r) = Some (change_field input f))) ∧
  (∀ o, o ∉ map offset (scan_registers s) → pget prefix' o = pget prefix o).
Proof.
  intros s input prefix prefix'.
  apply (scan_applied_input_is_accepted noIndex s input prefix prefix' 1 0);
    reflexivity.
Defined.

(** A move from a static value binds its target and then accepts; it
    rejects a prefix whose target holds another value. *)
Example move_static :
  let m := mkMove (FromStatic 5) (mkRegister 1) true in
  move_applyInput m [None; None; None; None]
  = (pass, [None; Some 5; None; None]) ∧
  move_applyInput m [None; Some 6; None; None]
  = (fail, [None; Some 6; None; None]) ∧
  move_accept m [None; Some 6; None; None] = false.
Proof. done. Qed.

End ConstraintExamples.

(** ** Merging, linear flows and blocks *)

Section MergeFacts.
Import Flow.


(** X14.  [BinaryJoinRight.merge(left, right)] fails exactly when one of
    the registers to merge is bound in [left] to another value than it
    has in [right].  When it does not fail, the merged prefix has in
    every register to merge the value of [right], and in every slot that
    was bound in [left], and in every slot that is not merged, the value
    of [left]. *)
Theorem merge_takes_right_values (registersToMerge : list Register)
    (left right : Prefix) :
  (merge registersToMerge left right = None
   ↔ Exists (λ reg, pget left (offset reg) ≠ None
                    ∧ pget left (offset reg) ≠ pget right (offset reg))
            registersToMerge) ∧
  ∀ result,
    merge registersToMerge left right = Some result →
    (∀ reg, reg ∈ registersToMerge →
            pget result (offset reg) = pget right (offset reg)) ∧
    (∀ o x, pget left o = Some x → pget result o = Some x) ∧
    (∀ o, o ∉ map offset registersToMerge → pget result o = pget left o).
Proof.
  revert left.
  induction registersToMerge as [|reg regs IH]; intros left.
  { split.
    - split; [done|]. by intros ?%Exists_nil.
    - intros result [= <-]. split; [by intros reg ?%elem_of_nil|done]. }
  cbn [merge]. destruct (decide (_ ∨ _)) as [Hok|Hbad].
  - set (left1 := pset left (offset reg) (pget right (offset reg))).
    assert (∀ o, pget left1 o
                 = if decide (o = offset reg) then pget right (offset reg)
                   else pget left o) as Hleft1.
    { intros o. apply pget_pset. }
    assert (∀ o x, pget left o = Some x → pget left1 o = Some x) as Hkeep.
    { intros o x Hx. rewrite Hleft1. case_decide as Ho; [|done].
      subst o. destruct Hok as [Hnone|Hsame]; congruence. }
    destruct (IH left1) as [Hfail Hmerged]. split.
    + rewrite Hfail, Exists_cons. split.
      * intros Hex. right. eapply Exists_impl; [exact Hex|].
        intros reg' [Hbound Hdiff]. rewrite Hleft1 in Hbound, Hdiff.
        case_decide as Ho; [by rewrite Ho in Hdiff|done].
      * intros [[Hbound Hdiff]|Hex].
        { destruct Hok; congruence. }
        eapply Exists_impl; [exact Hex|].
        intros reg' [Hbound Hdiff].
        destruct (pget left (offset reg')) as [x|] eqn:Hx; [|done].
        rewrite (Hkeep _ _ Hx). done.
    + intros result Hresult.
      destruct (Hmerged result Hresult) as (Hregs & Hbound & Hother).
      split; [|split].
      * intros reg' [->|Hin]%elem_of_cons; [|by apply Hregs].
        destruct (decide (offset reg ∈ map offset regs)) as [Hlater|Hnot].
        -- apply list_elem_of_fmap in Hlater as (reg' & -> & Hin).
           by apply Hregs.
        -- rewrite (Hother _ Hnot), Hleft1. by rewrite decide_True.
      * intros o x Hx. by apply Hbound, Hkeep.
      * intros o Ho. cbn [map] in Ho. rewrite not_elem_of_cons in Ho.
        destruct Ho as [Hne Ho]. rewrite (Hother _ Ho), Hleft1.
        by rewrite decide_False.
  - split; [|done]. split; [|done]. intros _. apply Exists_cons. left.
    split.
    + intros Hnone. apply Hbad. by left.
    + intros Hsame. apply Hbad. by right.
Qed.

End MergeFacts.

Section PipelineFacts.
Import Flow Pipeline.

Context {World : Type}.

(** A node whose results are a function of the prefix that it is run
    on: run on a list of prefixes, it leaves the results for each of them
    in turn. *)
Lemma runOn_flat_map (node : @Node World) f input transaction round :
  (∀ p w, ∃ w', node input p transaction round w = Ok (f p, w')) →
  ∀ iter w, ∃ w',
    runOn node input transaction round iter w = Ok (flat_map f iter, w').
Proof.
  intros Hnode iter w. unfold runOn.
  assert (∀ acc w, ∃ w',
            JoinNode.foldM
              (λ '(results, w) prefix,
                 rbind (node input prefix transaction round w)
                   (λ '(pushed, w'), Ok (results ++ pushed, w')))
              iter (acc, w) = Ok (acc ++ flat_map f iter, w')) as Hfrom.
  { induction iter as [|p iter IH]; intros acc w0.
    - exists w0. simpl. by rewrite app_nil_r.
    - cbn [JoinNode.foldM]. destruct (Hnode p w0) as [w1 ->]. cbn [rbind].
      destruct (IH (acc ++ f p) w1) as [w2 ->]. exists w2.
      simpl. by rewrite app_assoc. }
  destruct (Hfrom [] w) as [w' ->]. by exists w'.
Qed.

Lemma linearStages_compose (nodes : list (@Node World)) fs input
    transaction round :
  Forall2 (λ node f,
             ∀ p w, ∃ w', node input p transaction round w = Ok (f p, w'))
          nodes fs →
  ∀ iter w, ∃ out w',
    linearStages nodes input transaction round iter w = Ok (out, w') ∧
    match out with
    | Some results =>
        results = foldl (λ acc f, flat_map f acc) iter fs ∧
        ∀ k, (k < length fs)%nat →
             foldl (λ acc f, flat_map f acc) iter (take k fs) ≠ []
    | None =>
        ∃ k, (k < length fs)%nat ∧
             foldl (λ acc f, flat_map f acc) iter (take k fs) = []
    end.
Proof.
  induction 1 as [|node f nodes fs Hnode _ IH]; intros iter w.
  - exists (Some iter), w. split; [done|]. split; [done|].
    intros k Hk. simpl in Hk. lia.
  - cbn [linearStages]. destruct iter as [|p iter].
    + exists None, w. split; [done|]. exists 0%nat. split; [simpl; lia|done].
    + destruct (runOn_flat_map node f input transaction round Hnode
                  (p :: iter) w) as [w1 ->].
      cbn [rbind].
      destruct (IH (flat_map f (p :: iter)) w1) as (out & w2 & -> & Hout).
      exists out, w2. split; [done|]. destruct out as [results|].
      * destruct Hout as [-> Hreached]. split; [done|].
        intros [|k] Hk; [done|]. cbn [take foldl]. apply Hreached.
        simpl in Hk. lia.
      * destruct Hout as (k & Hk & Hempty). exists (S k).
        split; [simpl; lia|done].
Qed.

(** X15.  For nodes whose results are a function of the prefix that
    they are run on, [LinearFlow.exec] computes the composition: it
    returns [true] and pushes what the last node leaves when every node
    is run on what the node before it left, starting with the prefix,
    provided every node is left with a prefix to run on; and it returns
    [false] and pushes nothing as soon as a node is left with none. *)
Theorem linear_flow_composes_nodes (nodes : list (@Node World)) fs input
    prefix transaction round w :
  Forall2 (λ node f,
             ∀ p w, ∃ w', node input p transaction round w = Ok (f p, w'))
          nodes fs →
  ∃ ok results w',
    linearExec nodes input prefix transaction round w
      = Ok (ok, results, w') ∧
    if ok
    then results = foldl (λ acc f, flat_map f acc) [prefix] fs ∧
         ∀ k, (k < length fs)%nat →
              foldl (λ acc f, flat_map f acc) [prefix] (take k fs) ≠ []
    else results = [] ∧
         ∃ k, (k < length fs)%nat ∧
              foldl (λ acc f, flat_map f acc) [prefix] (take k fs) = [].
Proof.
  intros Hnodes. unfold linearExec.
  destruct (linearStages_compose nodes fs input transaction round Hnodes
              [prefix] w) as (out & w' & -> & Hout).
  cbn [rbind]. destruct out as [results|].
  - by exists true, results, w'.
  - by exists false, [], w'.
Qed.

(** Nodes that are not antijoins are not run once a node has left no
    prefix. *)
Lemma blockStages_empty (block : @Block World) rest input transaction
    round w :
  Forall (λ n, isAntiJoin n = false) rest →
  blockStages block rest input transaction round [] w = Ok ([], w).
Proof.
  induction 1 as [|n rest Hn _ IH]; [done|].
  cbn [blockStages]. by rewrite Hn.
Qed.

(** X16.  [Block.exec] runs the first node of the block once, on a
    prefix of [totalRegisters + 2] slots that are all [undefined].  When
    that node leaves no prefix and none of the later nodes is an antijoin,
    no later node is run: the block leaves the world as the first node
    has left it. *)
Theorem block_runs_nothing_after_empty_stage (block : @Block World) first
    rest input transaction round w w' :
  nodes block = first :: rest →
  Forall (λ n, isAntiJoin n = false) rest →
  node first input (initial block) transaction round w = Ok ([], w') →
  length (initial block) = (totalRegisters block + 2)%nat ∧
  (∀ i, pget (initial block) i = None) ∧
  blockExec block input transaction round w = Ok ([], w').
Proof.
  intros Hnodes Hrest Hfirst. split; [|split].
  - unfold initial. by rewrite length_replicate.
  - intros i. unfold pget, initial.
    destruct (decide (i < totalRegisters block + 2)%nat).
    + by rewrite lookup_replicate_2.
    + rewrite lookup_ge_None_2; [done|]. rewrite length_replicate. lia.
  - unfold blockExec. rewrite Hnodes. cbn [blockStages].
    unfold runOn. cbn [JoinNode.foldM]. rewrite Hfirst. cbn [rbind app].
    by apply blockStages_empty.
Qed.

End PipelineFacts.

Section PipelineExamples.
Import Flow Pipeline PipelineSamples.

Lemma counting_function f input transaction round :
  ∀ p w, ∃ w', counting f input p transaction round w = Ok (f p, w').
Proof. intros p w. by exists (S w). Qed.

Lemma linear_flow_composes_nodes_witness :
  ∃ ok results w',
    linearExec [counting twice; counting twice] BLOCK_ADD [None; None] 1 0
               0%nat
      = Ok (ok, results, w') ∧
    if ok
    then results
         = foldl (λ acc f, flat_map f acc) [[None; None]] [twice; twice] ∧
         ∀ k, (k < length [twice; twice])%nat →
              foldl (λ acc f, flat_map f acc) [[None; None]]
                    (take k [twice; twice]) ≠ []
    else results = [] ∧
         ∃ k, (k < length [twice; twice])%nat ∧
              foldl (λ acc f, flat_map f acc) [[None; None]]
                    (take k [twice; twice]) = [].
Proof.
  apply (linear_flow_composes_nodes [counting twice; counting twice]
           [twice; twice] BLOCK_ADD [None; None] 1 0 0%nat).
  repeat constructor; apply counting_function.
Defined.

(** A node that is left without a prefix ends the flow: the node behind
    it is not run, and the flow returns [false]. *)
Example linear_flow_stops :
  linearExec [counting twice; counting nothing; counting once;
              counting once] BLOCK_ADD [None; None] 1 0 0%nat
  = Ok (false, [], 3%nat) ∧
  linearExec [counting twice; counting nothing] BLOCK_ADD [None; None] 1 0
             0%nat
  = Ok (true, [], 3%nat).
Proof. done. Qed.

Lemma block_runs_nothing_after_empty_stage_witness :
  length (initial sampleBlock) = (totalRegisters sampleBlock + 2)%nat ∧
  (∀ i, pget (initial sampleBlock) i = None) ∧
  blockExec sampleBlock BLOCK_ADD 1 0 0%nat = Ok ([], 1%nat).
Proof.
  apply (block_runs_nothing_after_empty_stage sampleBlock
           (mkBlockNode (counting nothing) false)
           [mkBlockNode (counting once) false] BLOCK_ADD 1 0 0%nat 1%nat).
  - reflexivity.
  - by repeat constructor.
  - reflexivity.
Defined.

End PipelineExamples.

(** ** Counting across rounds *)

Section MultiplicityLaw.
Import Multiplicity Counting.

Lemma netPairs_app l1 l2 r :
  netPairs (l1 ++ l2) r = netPairs l1 r + netPairs l2 r.
Proof.
  induction l1 as [|[ρ c] l1 IH]; simpl; [done|].
  rewrite IH. case_decide; lia.
Qed.

Lemma signSum_app l1 l2 : signSum (l1 ++ l2) = signSum l1 + signSum l2.
Proof. induction l1 as [|d l1 IH]; simpl; [done|]. rewrite IH. lia. Qed.

Lemma upTo_later currentRound rounds :
  rounds = upTo currentRound rounds ++ later currentRound rounds.
Proof.
  induction rounds as [|d rounds IH]; simpl; [done|].
  case_decide; simpl; [done|]. by rewrite <- IH.
Qed.

Lemma filter_upTo currentRound rounds r :
  currentRound ≤ r →
  filter (λ d, Z.abs d - 1 ≤ r) (upTo currentRound rounds)
  = upTo currentRound rounds.
Proof.
  intros Hr. induction rounds as [|d rounds IH]; simpl; [done|].
  case_decide; [done|]. rewrite filter_cons, decide_True by lia.
  by rewrite IH.
Qed.

(** What the recursion derives adds up to the product of what the diff
    arrays add up to. *)
Lemma derived_net currentRound diffs :
  ∀ round count r,
    currentRound ≤ round →
    netPairs (derived currentRound diffs round count) r
    = if decide (round ≤ r)
      then count * product (map (λ rounds, signsUpTo rounds r) diffs)
      else 0.
Proof.
  induction diffs as [|rounds rest IH]; intros round count r Hround.
  - cbn [derived netPairs foldr map product fst snd].
    case_decide; lia.
  - cbn [derived map product foldr]. rewrite netPairs_app.
    fold (product (map (λ rounds, signsUpTo rounds r) rest)).
    set (rest_r := product (map (λ rounds, signsUpTo rounds r) rest)).
    assert (netPairs
              (flat_map
                 (λ d, derived currentRound rest (Z.max (Z.abs d - 1) round)
                               (count * sign d))
                 (later currentRound rounds)) r
            = if decide (round ≤ r)
              then count * rest_r
                   * signSum (filter (λ d, Z.abs d - 1 ≤ r)
                                     (later currentRound rounds))
              else 0) as ->.
    { induction (later currentRound rounds) as [|d l IHl].
      - cbn. case_decide; lia.
      - cbn [flat_map]. rewrite netPairs_app, IHl, IH by lia.
        rewrite filter_cons. fold rest_r.
        unfold signSum in *.
        destruct (decide (Z.abs d - 1 ≤ r)); cbn [foldr];
          repeat case_decide; try lia; ring. }
    destruct (decide (round ≤ r)) as [Hr|Hr].
    + assert (signsUpTo rounds r
              = signSum (upTo currentRound rounds)
                + signSum (filter (λ d, Z.abs d - 1 ≤ r)
                                  (later currentRound rounds))) as ->.
      { unfold signsUpTo.
        transitivity (signSum (filter (λ d, Z.abs d - 1 ≤ r)
                                 (upTo currentRound rounds
                                  ++ later currentRound rounds))).
        - by rewrite <- upTo_later.
        - by rewrite filter_app, signSum_app, filter_upTo by lia. }
      destruct (decide (signSum (upTo currentRound rounds) = 0)) as [Hz|Hnz].
      * cbn [netPairs foldr]. rewrite Hz. lia.
      * rewrite IH by lia. fold rest_r.
        rewrite decide_True by lia. lia.
    + destruct (decide (signSum (upTo currentRound rounds) = 0));
        [done|].
      rewrite IH by lia. rewrite decide_False by lia. lia.
Qed.

Lemma derived_from currentRound diffs :
  ∀ round count,
    Forall (λ rc, round ≤ rc.1) (derived currentRound diffs round count).
Proof.
  induction diffs as [|rounds rest IH]; intros round count.
  - by repeat constructor.
  - cbn [derived]. apply Forall_app. split.
    + case_decide; [constructor|].
      eapply Forall_impl; [apply IH|]. intros rc Hrc. simpl in *. lia.
    + apply flat_map_Forall. intros d.
      eapply Forall_impl; [apply IH|]. intros rc Hrc. simpl in *. lia.
Qed.

Lemma netPrefixes_pairs (p : Prefix) l r :
  (2 ≤ length p)%nat →
  netPrefixes (pairs p l) r = netPairs l r.
Proof.
  intros Hlen. induction l as [|[ρ c] l IH]; [done|].
  cbn [pairs map netPrefixes netPairs foldr fst snd].
  fold (pairs p l). fold (netPrefixes (pairs p l) r). fold (netPairs l r).
  rewrite round_withSlots, count_withSlots by done. by rewrite IH.
Qed.

(** X17.  [computeMultiplicities] pushes copies of the prefix that differ
    in their round and count, and hands the prefix back with both slots
    [undefined].  No copy has a round before [currentRound], and up to
    any round from [currentRound] on the counts of the copies add up to
    the input count times the product, over the diff arrays, of what the
    entries of the array add up to at that round (an entry counts 1 when
    it is positive and -1 otherwise, in round [|entry| - 1]). *)
Theorem compute_multiplicities_multiplies_counts inputCount results
    (p : Prefix) currentRound diffs :
  (2 ≤ length p)%nat →
  ∃ pushed,
    computeMultiplicities inputCount results p currentRound diffs
    = (withSlots p None None, results ++ pushed) ∧
    Forall (λ q, ∃ round count,
              currentRound ≤ round
              ∧ q = withSlots p (Some round) (Some count)) pushed ∧
    ∀ r, netPrefixes pushed r
         = if decide (currentRound ≤ r)
           then inputCount
                * product (map (λ rounds, signsUpTo rounds r) diffs)
           else 0.
Proof.
  intros Hlen.
  exists (pairs p (derived currentRound diffs currentRound inputCount)).
  split; [by apply computeMultiplicities_spec|]. split.
  - unfold pairs. apply Forall_map.
    eapply Forall_impl; [apply derived_from|].
    intros [round count] Hrc. by exists round, count.
  - intros r. rewrite netPrefixes_pairs by done.
    by rewrite derived_net.
Qed.

End MultiplicityLaw.

Section MultiplicityExamples.
Import Multiplicity Counting.

(** One triple is added in round 0 and removed in round 2, the other is
    added in round 1: the result is there from round 1 on and gone from
    round 2 on. *)
Example sample_multiplicities :
  (computeMultiplicities 1 [] [None; None; None] 0 [[1; -3]; [2]]).2
  = [[None; Some 1; Some 1]; [None; Some 2; Some (-1)]].
Proof. done. Qed.

Lemma compute_multiplicities_multiplies_counts_witness :
  ∃ pushed,
    computeMultiplicities 1 [] [None; None; None] 0 [[1; -3]; [2]]
    = (withSlots [None; None; None] None None, [] ++ pushed) ∧
    Forall (λ q, ∃ round count,
              0 ≤ round
              ∧ q = withSlots [None; None; None] (Some round) (Some count))
           pushed ∧
    ∀ r, netPrefixes pushed r
         = if decide (0 ≤ r)
           then 1 * product (map (λ rounds, signsUpTo rounds r)
                                 [[1; -3]; [2]])
           else 0.
Proof.
  apply (compute_multiplicities_multiplies_counts 1 [] [None; None; None] 0
           [[1; -3]; [2]]).
  simpl. lia.
Defined.

End MultiplicityExamples.

(** ** Collapsing changes *)

Section CollapseFacts.
Import Transaction.

(** What [collapseFrom] pushes has a count that is not 0, and the
    triple, the node, the transaction, the round and the class of one of
    the changes. *)
Lemma collapseFrom_kept current rest :
  Forall (λ c, Change.count c ≠ 0 ∧
               ∃ y, y ∈ current :: rest ∧
                    Change.e c = Change.e y ∧ Change.a c = Change.a y ∧
                    Change.v c = Change.v y ∧ Change.n c = Change.n y ∧
                    Change.transaction c = Change.transaction y ∧
                    Change.round c = Change.round y ∧
                    Change.cls c = Change.cls y)
         (collapseFrom current rest).
Proof.
  revert current. induction rest as [|next rest IH]; intros current.
  - simpl. case_decide; [constructor|].
    repeat constructor; [done|]. exists current. split; [by left|done].
  - cbn [collapseFrom]. destruct (sameEAV next current).
    + eapply Forall_impl; [apply IH|].
      intros c [Hnz (y & Hy & Hfields)]. split; [done|].
      apply elem_of_cons in Hy as [->|Hy].
      * exists current. split; [by left|exact Hfields].
      * exists y. split; [by do 2 right|done].
    + apply Forall_app. split.
      * case_decide; [constructor|]. repeat constructor; [done|].
        exists current. split; [by left|done].
      * eapply Forall_impl; [apply IH|].
        intros c [Hnz (y & Hy & Hfields)]. split; [done|].
        exists y. split; [by right|done].
Qed.

(** X18.  [collapseMultiplicity(changes, results)] appends to [results]
    one change for every triple of entity, attribute and value whose
    counts in [changes] do not add up to 0, with the sum as its count,
    and nothing for the other triples.  What it appends has the node, the
    transaction and the round of one of the changes with that triple. *)
Theorem collapse_multiplicity_sums_triples changes results :
  ∃ collapsed,
    collapseMultiplicity changes results = results ++ collapsed ∧
    (∀ e a v, deltas collapsed e a v = nonzero (total changes e a v)) ∧
    Forall (λ c, Change.count c ≠ 0 ∧
                 ∃ y, y ∈ changes ∧
                      Change.e c = Change.e y ∧ Change.a c = Change.a y ∧
                      Change.v c = Change.v y ∧ Change.n c = Change.n y ∧
                      Change.transaction c = Change.transaction y ∧
                      Change.round c = Change.round y ∧
                      Change.cls c = Change.cls y)
           collapsed.
Proof.
  exists (collapseMultiplicity changes []). split; [done|]. split.
  - intros e a v. apply collapseMultiplicity_deltas.
  - unfold collapseMultiplicity. cbn [app].
    pose proof (sort_perm changes) as Hperm.
    destruct (sort compareEAV changes) as [|current rest]; [constructor|].
    eapply Forall_impl; [apply collapseFrom_kept|].
    intros c [Hnz (y & Hy & Hfields)]. split; [done|].
    exists y. split; [|done]. by rewrite <- Hperm.
Qed.

End CollapseFacts.

Section CollapseExamples.
Import Transaction.

(** Two additions and one removal of a triple collapse into one
    addition; an addition and a removal of another triple collapse into
    nothing. *)
Example sample_collapse :
  collapseMultiplicity
    [Change.mk Change.CChange 1 2 3 7 1 0 1;
     Change.mk Change.CChange 1 2 4 7 1 0 1;
     Change.mk Change.CChange 1 2 3 8 1 1 1;
     Change.mk Change.CChange 1 2 4 9 1 2 (-1);
     Change.mk Change.CChange 1 2 3 9 1 2 (-1)] []
  = [Change.mk Change.CChange 1 2 3 7 1 0 1].
Proof. done. Qed.

End CollapseExamples.

(** ** Binary joins *)

Section HashFacts.
Import Flow Flow.IntermediateIndex Transaction.

Lemma pretty_N_go_nonempty (x : N) s :
  s ≠ "" ∨ (0 < x)%N → pretty_N_go x s ≠ "".
Proof.
  revert s. induction (N.lt_wf_0 x) as [x _ IH]; intros s Hs.
  assert (x = 0 ∨ 0 < x)%N as [->|?] by lia.
  - rewrite pretty_N_go_0. destruct Hs as [?|?]; [done|lia].
  - rewrite pretty_N_go_step by done. apply IH.
    { by apply N.div_lt. }
    by left.
Qed.

Lemma pretty_Z_nonempty (x : Z) : pretty x ≠ "".
Proof.
  assert (∀ p : positive, pretty p ≠ "") as Hpos.
  { intros p. unfold pretty, pretty_positive, pretty, pretty_N.
    case_decide; [done|]. apply pretty_N_go_nonempty. right. lia. }
  unfold pretty, pretty_Z. destruct x as [|p|p]; [done|apply Hpos|done].
Qed.

Lemma barfree_bar s r : ¬ barfree (s +:+ "|" +:+ r).
Proof.
  induction s as [|c s IH]; simpl.
  - by intros [? _].
  - intros [_ ?]. by apply IH.
Qed.

(** [join] tells lists of texts without the separator apart. *)
Lemma joinWith_inj l l' :
  Forall barfree l → Forall barfree l' → l ≠ [] → l' ≠ [] →
  joinWith "|" l = joinWith "|" l' → l = l'.
Proof.
  revert l'. induction l as [|x l IH]; intros l' Hl Hl' Hne Hne' Heq;
    [done|].
  destruct l' as [|y l']; [done|].
  apply Forall_cons_1 in Hl as [Hx Hl].
  apply Forall_cons_1 in Hl' as [Hy Hl'].
  destruct l as [|x2 l], l' as [|y2 l'].
  - simpl in Heq. by subst.
  - exfalso. cbn [joinWith] in Heq. subst x. by apply barfree_bar in Hx.
  - exfalso. cbn [joinWith] in Heq. subst y. by apply barfree_bar in Hy.
  - change (x +:+ "|" +:+ joinWith "|" (x2 :: l)
            = y +:+ "|" +:+ joinWith "|" (y2 :: l')) in Heq.
    apply barfree_split in Heq as [-> Heq]; [|done..].
    f_equal. by apply IH.
Qed.

(** Two prefixes of the same hash differ in their rounds and counts
    only. *)
Lemma hashPrefix_inj (p q : Prefix) :
  (1 ≤ length p)%nat → (1 ≤ length q)%nat →
  hashPrefix p = hashPrefix q →
  setCount (setRound p None) None = setCount (setRound q None) None.
Proof.
  unfold hashPrefix. intros Hp Hq Heq.
  assert (∀ l : Prefix,
            Forall barfree
              (map (λ x, match x with
                         | Some id => pretty id
                         | None => ""
                         end) l)) as Hfree.
  { intros l. apply Forall_map. apply Forall_forall. intros [id|] _.
    - apply barfree_pretty_Z.
    - done. }
  apply joinWith_inj in Heq; [|by apply Hfree..| |].
  - revert Heq.
    generalize (setCount (setRound p None) None)
               (setCount (setRound q None) None).
    intros l. induction l as [|x l IH]; intros [|y l'] Heq; try done.
    injection Heq as Hxy Heq. f_equal; [|by apply IH].
    destruct x as [x|], y as [y|]; try done.
    + by apply (inj pretty) in Hxy as ->.
    + by apply pretty_Z_nonempty in Hxy.
    + symmetry in Hxy. by apply pretty_Z_nonempty in Hxy.
  - intros Hnil. apply (f_equal length) in Hnil.
    unfold setCount, setRound in Hnil.
    rewrite length_map, !length_insert in Hnil. simpl in Hnil. lia.
  - intros Hnil. apply (f_equal length) in Hnil.
    unfold setCount, setRound in Hnil.
    rewrite length_map, !length_insert in Hnil. simpl in Hnil. lia.
Qed.

End HashFacts.

Section MergeBodies.
Import Flow Flow.IntermediateIndex.

Local Abbreviation body p := (setCount (setRound p None) None).

Lemma body_insert (p : Prefix) o x :
  (o + 2 < length p)%nat → body (<[o := x]> p) = <[o := x]> (body p).
Proof.
  intros Ho. unfold setCount, setRound. rewrite !length_insert.
  rewrite (list_insert_insert_ne _ (length p - 2) o) by lia.
  by rewrite (list_insert_insert_ne _ (length p - 1) o) by lia.
Qed.

Lemma body_pget (p q : Prefix) o :
  body p = body q → (o + 2 < length p)%nat → pget p o = pget q o.
Proof.
  intros Heq Ho.
  assert (length q = length p) as Hlen.
  { apply (f_equal length) in Heq. unfold setCount, setRound in Heq.
    by rewrite !length_insert in Heq. }
  apply (f_equal (λ l : Prefix, l !! o)) in Heq.
  unfold setCount, setRound in Heq. rewrite !length_insert in Heq.
  rewrite !list_lookup_insert_ne in Heq by lia.
  unfold pget. by rewrite Heq.
Qed.

Lemma body_length_eq (p q : Prefix) : body p = body q → length q = length p.
Proof.
  intros Heq. apply (f_equal length) in Heq. unfold setCount, setRound in Heq.
  by rewrite !length_insert in Heq.
Qed.

Lemma keysAreRegisters_insert regs (p : Prefix) o x :
  keysAreRegisters regs p → keysAreRegisters regs (<[o := x]> p).
Proof.
  unfold keysAreRegisters. intros Hregs.
  eapply Forall_impl; [exact Hregs|]. intros reg.
  by rewrite length_insert.
Qed.

(** [merge] changes no length when the registers to merge are registers
    of the prefix. *)
Lemma merge_length regs (p q m : Prefix) :
  keysAreRegisters regs p → merge regs p q = Some m → length m = length p.
Proof.
  revert p. induction regs as [|reg regs IH]; intros p Hregs Hm.
  - by injection Hm as <-.
  - apply Forall_cons_1 in Hregs as [Hreg Hregs]. cbn [merge] in Hm.
    case_decide; [|done]. unfold pset in Hm.
    rewrite decide_True in Hm by lia.
    apply IH in Hm; [|by apply keysAreRegisters_insert].
    by rewrite length_insert in Hm.
Qed.

(** Up to their rounds and counts, what [merge] makes of two prefixes
    depends on the prefixes up to their rounds and counts only. *)
Lemma merge_body regs (p p' q q' : Prefix) :
  body p = body p' → body q = body q' →
  keysAreRegisters regs p → keysAreRegisters regs q →
  hashPrefix <$> merge regs p q = hashPrefix <$> merge regs p' q'.
Proof.
  revert p p'. induction regs as [|reg regs IH];
    intros p p' Hp Hq Hregs Hregsq.
  - cbn [merge fmap option_fmap option_map]. unfold hashPrefix.
    by rewrite Hp.
  - apply Forall_cons_1 in Hregs as [Hreg Hregs].
    apply Forall_cons_1 in Hregsq as [Hregq Hregsq].
    pose proof (body_length_eq _ _ Hp) as Hlen.
    cbn [merge].
    rewrite <- (body_pget p p' (offset reg) Hp Hreg).
    rewrite <- (body_pget q q' (offset reg) Hq Hregq).
    case_decide; [|done]. unfold pset.
    rewrite !decide_True by lia.
    apply IH; [|done|by apply keysAreRegisters_insert|done].
    rewrite !body_insert by lia. by rewrite Hp.
Qed.

End MergeBodies.

Section KeySums.

Lemma sum_keys_zero (P : string → bool) (K : list string) :
  foldr (λ k acc, if P k then 0 + acc else acc) 0 K = 0.
Proof. induction K as [|k K IH]; simpl; [done|]. destruct (P k); lia. Qed.

Lemma sum_keys_one (P : string → bool) (g : string → Z) k0 w K :
  NoDup K →
  foldr (λ k acc,
           if P k
           then (if decide (k0 = k) then w + g k else g k) + acc
           else acc) 0 K
  = (if decide (k0 ∈ K) then if P k0 then w else 0 else 0)
    + foldr (λ k acc, if P k then g k + acc else acc) 0 K.
Proof.
  induction K as [|k K IH]; intros Hnodup.
  - cbn [foldr]. case_decide as Hin; [|done]. by apply elem_of_nil in Hin.
  - apply NoDup_cons in Hnodup as [Hfresh Hnodup]. cbn [foldr].
    rewrite (IH Hnodup). destruct (decide (k0 = k)) as [->|Hne].
    + rewrite (decide_False (P := k ∈ K)) by done.
      rewrite (decide_True (P := k ∈ k :: K)) by by left.
      destruct (P k); lia.
    + destruct (decide (k0 ∈ K)) as [Hin|Hout].
      * rewrite (decide_True (P := k0 ∈ k :: K)) by by right.
        destruct (P k), (P k0); lia.
      * rewrite (decide_False (P := k0 ∈ k :: K)).
        { destruct (P k); lia. }
        rewrite elem_of_cons. intros [?|?]; done.
Qed.

(** A sum over the items whose key is selected is the sum, over the
    selected keys, of the sums of the items of the key. *)
Lemma sum_by_key {X : Type} (kx : X → string) (wx : X → Z)
    (P : string → bool) (K : list string) (A : list X) :
  NoDup K → Forall (λ x, kx x ∈ K) A →
  foldr (λ x acc, if P (kx x) then wx x + acc else acc) 0 A
  = foldr (λ k acc,
             if P k
             then foldr (λ x acc', if decide (kx x = k) then wx x + acc'
                                   else acc') 0 A + acc
             else acc) 0 K.
Proof.
  intros Hnodup. induction A as [|x A IH]; intros HA.
  - cbn [foldr]. by rewrite sum_keys_zero.
  - apply Forall_cons_1 in HA as [Hx HA]. cbn [foldr].
    rewrite (sum_keys_one P
               (λ k, foldr (λ x acc', if decide (kx x = k) then wx x + acc'
                                      else acc') 0 A)
               (kx x) (wx x) K Hnodup).
    rewrite decide_True by done. rewrite (IH HA).
    destruct (P (kx x)); lia.
Qed.

Lemma sum_keys_ext (P : string → bool) (f g : string → Z) K :
  (∀ k, f k = g k) →
  foldr (λ k acc, if P k then f k + acc else acc) 0 K
  = foldr (λ k acc, if P k then g k + acc else acc) 0 K.
Proof.
  intros Hfg. induction K as [|k K IH]; simpl; [done|].
  by rewrite IH, Hfg.
Qed.

End KeySums.

Section StoredPrefixes.
Import Flow Flow.IntermediateIndex Indexes.

(** The inserts that pass are of prefixes with a round and a count, and
    the prefixes that the index keeps are prefixes that were inserted. *)
Lemma inserts_stored keys seen index :
  inserts keys seen ∅ = Ok index →
  Forall (λ q : Prefix, (2 ≤ length q)%nat) seen ∧
  ∀ key, Forall (λ kv, prefix kv.2 ∈ seen) (default [] (index !! key)).
Proof.
  revert index. induction seen as [|p seen IH] using rev_ind;
    intros index Hrun.
  - injection Hrun as <-. split; [constructor|]. intros key.
    rewrite lookup_empty. constructor.
  - unfold inserts in Hrun. rewrite foldM_snoc in Hrun.
    fold (inserts keys seen ∅) in Hrun.
    destruct (inserts keys seen ∅) as [index0|]; [|done].
    cbn [rbind] in Hrun. destruct (IH index0 eq_refl) as [Hlens Hstored].
    destruct (roundAndCount p) as [[round count]|] eqn:Hrc.
    2:{ unfold insert in Hrun. by rewrite Hrc in Hrun. }
    split.
    + apply Forall_app. split; [done|]. repeat constructor.
      unfold roundAndCount in Hrc. case_decide; [done|lia].
    + destruct (intermediate_insert_spec _ _ _ _ _ _ Hrc Hrun)
        as (vals' & -> & _ & Hprefixes & _).
      intros key.
      destruct (decide (key = CreateKeyFunction keys p)) as [->|Hne].
      * rewrite lookup_insert_eq. cbn [from_option id].
        apply (Hprefixes (λ q, q ∈ seen ++ [p])).
        -- eapply Forall_impl; [apply Hstored|]. intros kv Hkv.
           apply elem_of_app. by left.
        -- apply elem_of_app. right. by left.
      * rewrite lookup_insert_ne by done.
        eapply Forall_impl; [apply Hstored|]. intros kv Hkv.
        apply elem_of_app. by left.
Qed.

Lemma netYields_shape (diffs : list (Prefix * Z * Z)) vk r :
  netYields diffs vk r
  = foldr (λ y acc,
             if decide (hashPrefix y.1.1 = vk)
             then (if decide (y.1.2 ≤ Z.of_nat r) then y.2 else 0) + acc
             else acc) 0 diffs.
Proof.
  induction diffs as [|[[p dR] dC] diffs IH]; [done|].
  cbn [netYields foldr fst snd]. fold (netYields diffs vk r).
  rewrite IH. repeat case_decide; try lia; exfalso; intuition lia.
Qed.

Lemma netFor_shape keys seen key vk r :
  netFor keys seen key vk r
  = foldr (λ q acc,
             if decide (hashPrefix q = vk)
             then match roundAndCount q with
                  | Ok (rq, cq) =>
                      if decide (CreateKeyFunction keys q = key
                                 ∧ (rq ≤ r)%nat)
                      then cq else 0
                  | Fail _ => 0
                  end + acc
             else acc) 0 seen.
Proof.
  induction seen as [|q seen IH]; [done|].
  cbn [netFor foldr]. fold (netFor keys seen key vk r). rewrite IH.
  destruct (roundAndCount q) as [[rq cq]|].
  - repeat case_decide; try lia; exfalso; intuition lia.
  - case_decide; lia.
Qed.

End StoredPrefixes.

Section JoinCounting.
Import Flow Flow.IntermediateIndex Indexes Joining.

Variables (keys : list Register) (seen : list Prefix).
Variables (mergeWith : Prefix → option Prefix) (key valueKey : string).

Hypothesis Hrespects :
  ∀ p p', p ∈ seen → p' ∈ seen → hashPrefix p = hashPrefix p' →
          hashPrefix <$> mergeWith p = hashPrefix <$> mergeWith p'.
Hypothesis Hlong :
  ∀ p m, p ∈ seen → mergeWith p = Some m → (2 ≤ length m)%nat.

(** The value keys of the prefixes that merge into the value key. *)
Local Abbreviation selected := (mergesInto mergeWith seen valueKey).

Lemma selected_spec p :
  p ∈ seen →
  selected (hashPrefix p) = true
  ↔ hashPrefix <$> mergeWith p = Some valueKey.
Proof.
  intros Hp. unfold mergesInto.
  rewrite bool_decide_eq_true, Exists_exists. split.
  - intros (q & Hq & Hhash & Hok). by rewrite (Hrespects p q).
  - intros Hok. by exists p.
Qed.

Lemma netValue_app results1 results2 vk r :
  netValue (results1 ++ results2) vk r
  = netValue results1 vk r + netValue results2 vk r.
Proof.
  unfold netValue. induction results1 as [|q results1 IH]; simpl; [done|].
  rewrite IH. repeat case_match; lia.
Qed.

(** What the loop over the entries of the other index pushes. *)
Lemma pushed_net round pR count r (diffs : list (Prefix * Z * Z)) :
  Forall (λ y, y.1.1 ∈ seen ∧ Z.of_nat round ≤ y.1.2) diffs →
  netValue
    (flat_map (λ '(p, dR, dC),
                 match mergeWith p with
                 | Some m =>
                     [setCount (setRound m
                                  (Some (Z.max (Z.of_nat pR) dR)))
                               (Some (count * dC))]
                 | None => []
                 end) diffs)
    valueKey (Z.of_nat r)
  = if decide (round ≤ r ∧ pR ≤ r)%nat
    then count
         * foldr (λ y acc,
                    if selected (hashPrefix y.1.1)
                    then (if decide (y.1.2 ≤ Z.of_nat r) then y.2 else 0)
                         + acc
                    else acc) 0 diffs
    else 0.
Proof.
  induction diffs as [|[[p dR] dC] diffs IH]; intros Hall.
  - cbn [flat_map netValue foldr]. case_decide; lia.
  - apply Forall_cons_1 in Hall as [[Hp Hround] Hall]. cbn [fst snd] in *.
    cbn [flat_map]. rewrite netValue_app, (IH Hall). cbn [foldr fst snd].
    pose proof (selected_spec p Hp) as Hsel.
    destruct (mergeWith p) as [m|] eqn:Hm.
    + pose proof (Hlong p m Hp Hm) as Hlen.
      cbn [netValue foldr].
      change (setCount (setRound m (Some (Z.max (Z.of_nat pR) dR)))
                       (Some (count * dC)))
        with (Multiplicity.withSlots m (Some (Z.max (Z.of_nat pR) dR))
                                     (Some (count * dC))).
      rewrite round_withSlots, count_withSlots by done.
      change (Multiplicity.withSlots m (Some (Z.max (Z.of_nat pR) dR))
                                     (Some (count * dC)))
        with (stamped m (Z.max (Z.of_nat pR) dR) (count * dC)).
      rewrite (stamped_hash m _ _ Hlen).
      cbn [fmap option_fmap option_map] in Hsel.
      destruct (mergesInto _ _ _ _) eqn:Hb.
      * assert (hashPrefix m = valueKey) as Hhash.
        { apply proj1 in Hsel. specialize (Hsel eq_refl). congruence. }
        repeat case_decide; try lia; exfalso; intuition lia.
      * assert (hashPrefix m ≠ valueKey) as Hhash.
        { intros Heq. apply proj2 in Hsel. rewrite Heq in Hsel.
          by specialize (Hsel eq_refl). }
        repeat case_decide; try lia; exfalso; intuition lia.
    + cbn [netValue foldr].
      destruct (mergesInto _ _ _ _) eqn:Hb; [|case_decide; lia].
      apply proj1 in Hsel. by specialize (Hsel eq_refl).
Qed.

Lemma mergedNet_shape r (l : list Prefix) :
  Forall (λ q, q ∈ seen) l →
  mergedNet keys mergeWith l key valueKey r
  = foldr (λ q acc,
             if selected (hashPrefix q)
             then match roundAndCount q with
                  | Ok (rq, cq) =>
                      if decide (CreateKeyFunction keys q = key
                                 ∧ (rq ≤ r)%nat)
                      then cq else 0
                  | Fail _ => 0
                  end + acc
             else acc) 0 l.
Proof.
  induction l as [|q l IH]; intros Hl; [done|].
  apply Forall_cons_1 in Hl as [Hq Hl].
  cbn [mergedNet foldr]. fold (mergedNet keys mergeWith l key valueKey r).
  rewrite (IH Hl). pose proof (selected_spec q Hq) as Hsel.
  destruct (mergesInto _ _ _ _) eqn:Hb.
  - apply proj1 in Hsel. specialize (Hsel eq_refl).
    destruct (roundAndCount q) as [[rq cq]|]; [|lia].
    repeat case_decide; try lia; exfalso; intuition lia.
  - assert (hashPrefix <$> mergeWith q ≠ Some valueKey) as Hno.
    { intros Hok. apply proj2 in Hsel. by specialize (Hsel Hok). }
    destruct (roundAndCount q) as [[rq cq]|]; [|lia].
    rewrite decide_False; [done|]. by intros (_ & ? & _).
Qed.

Lemma mergedNet_no_key r (l : list Prefix) :
  Forall (λ q, CreateKeyFunction keys q ≠ key) l →
  mergedNet keys mergeWith l key valueKey r = 0.
Proof.
  induction l as [|q l IH]; intros Hl; [done|].
  apply Forall_cons_1 in Hl as [Hq Hl].
  cbn [mergedNet foldr]. fold (mergedNet keys mergeWith l key valueKey r).
  rewrite (IH Hl). destruct (roundAndCount q) as [[rq cq]|]; [|done].
  rewrite decide_False; [done|]. by intros (? & _).
Qed.

(** What a join pushes for a prefix of one side, from what the index of
    the other side returns for its key. *)
Lemma join_net index round pR count pushed r :
  inserts keys seen ∅ = Ok index →
  pushed = match iter key (Z.of_nat round) index with
           | None => []
           | Some diffs =>
               flat_map (λ '(p, dR, dC),
                 match mergeWith p with
                 | Some m =>
                     [setCount (setRound m
                                  (Some (Z.max (Z.of_nat pR) dR)))
                               (Some (count * dC))]
                 | None => []
                 end) diffs
           end →
  netValue pushed valueKey (Z.of_nat r)
  = if decide (round ≤ r ∧ pR ≤ r)%nat
    then count * mergedNet keys mergeWith seen key valueKey r
    else 0.
Proof.
  intros Hrun ->.
  destruct (inserts_spec _ _ _ Hrun key) as (Hwell & Hnone & Hsums).
  destruct (inserts_stored _ _ _ Hrun) as [Hlens Hstored].
  specialize (Hstored key). unfold iter.
  destruct (index !! key) as [vals|] eqn:Hvals; cbn [from_option id] in *.
  2:{ rewrite mergedNet_no_key by by apply Hnone.
      cbn [netValue foldr]. case_decide; lia. }
  assert (Forall (λ kv, rounds kv.2 ≠ []) vals) as Hrounds.
  { destruct Hwell as [_ Hw]. eapply Forall_impl; [exact Hw|].
    by intros kv [_ ?]. }
  rewrite collect_enough by done.
  destruct (yields_net round vals "" 0 Hwell) as [Hfrom _].
  rewrite (pushed_net round pR count r).
  2:{ eapply Forall_impl; [exact Hfrom|].
      intros y [Hy (kv & Hkv & ->)]. split; [|done].
      by apply (proj1 (Forall_forall _ _) Hstored) in Hkv. }
  case_decide as Hr; [|done]. f_equal.
  rewrite mergedNet_shape by by apply Forall_forall.
  etrans.
  { apply (sum_by_key (λ y : Prefix * Z * Z, hashPrefix y.1.1)
             (λ y, if decide (y.1.2 ≤ Z.of_nat r) then y.2 else 0)
             selected
             (remove_dups (map hashPrefix seen))).
    - apply NoDup_remove_dups.
    - eapply Forall_impl; [exact Hfrom|].
      intros y [Hy (kv & Hkv & ->)].
      apply (proj1 (Forall_forall _ _) Hstored) in Hkv.
      apply elem_of_remove_dups, list_elem_of_fmap.
      by exists (prefix kv.2). }
  symmetry. etrans.
  { apply (sum_by_key hashPrefix
             (λ q, match roundAndCount q with
                   | Ok (rq, cq) =>
                       if decide (CreateKeyFunction keys q = key
                                  ∧ (rq ≤ r)%nat)
                       then cq else 0
                   | Fail _ => 0
                   end)
             selected
             (remove_dups (map hashPrefix seen))).
    - apply NoDup_remove_dups.
    - apply Forall_forall. intros q Hq.
      apply elem_of_remove_dups, list_elem_of_fmap. by exists q. }
  apply (sum_keys_ext selected). intros k.
  rewrite <- netYields_shape, <- netFor_shape.
  destruct (yields_net round vals k r Hwell) as [_ ->].
  rewrite decide_True by lia. symmetry. apply Hsums.
Qed.

End JoinCounting.

Section BinaryJoinCounts.
Import Flow Flow.IntermediateIndex Indexes Joining.

Context {World : Type}.

Lemma merge_hash regs (p p' q q' : Prefix) :
  hashPrefix p = hashPrefix p' → hashPrefix q = hashPrefix q' →
  keysAreRegisters regs p → keysAreRegisters regs p' →
  keysAreRegisters regs q → keysAreRegisters regs q' →
  hashPrefix <$> merge regs p q = hashPrefix <$> merge regs p' q'.
Proof.
  intros Hp Hq Hregs Hregs' Hregsq Hregsq'.
  destruct regs as [|reg regs].
  { cbn [merge fmap option_fmap option_map]. by rewrite Hp. }
  pose proof (Forall_inv Hregs). pose proof (Forall_inv Hregs').
  pose proof (Forall_inv Hregsq). pose proof (Forall_inv Hregsq').
  cbn beta in *.
  apply merge_body; [| |done..]; apply hashPrefix_inj; (done || lia).
Qed.

Lemma roundAndCount_long (p : Prefix) rc :
  roundAndCount p = Ok rc → (2 ≤ length p)%nat.
Proof. unfold roundAndCount. case_decide; [done|lia]. Qed.

(** X19.  [BinaryJoinRight.onLeft] stores the prefix in the left index
    and pushes its merges with what the right index returns for its
    key.  When the registers to merge are registers of the prefixes, the
    counts of the results of a value add up, up to any round [r] from
    the round of the execution and the round of the prefix on, to the
    count of the prefix times what the prefixes given on the right
    that have its key and merge with it into that value hold up to [r];
    before that there is no result. *)
Theorem join_left_counts_matches (join : @BinaryJoinRight World)
    (rights results : list Prefix) (prefix : Prefix) prefixRound count
    (round : nat) :
  inserts (j_keyRegisters join) rights ∅ = Ok (j_rightIndex join) →
  roundAndCount prefix = Ok (prefixRound, count) →
  Forall (keysAreRegisters (j_registersToMerge join)) (prefix :: rights) →
  ∃ pushed leftIndex',
    insert (CreateKeyFunction (j_keyRegisters join) prefix) prefix
           (j_leftIndex join) = Ok leftIndex' ∧
    joinOnLeft (Z.of_nat round) (results, join) prefix
    = Ok (results ++ pushed,
          mkJoin (j_left join) (j_right join) (j_keyRegisters join)
                 (j_registersToMerge join) leftIndex'
                 (j_rightIndex join)) ∧
    ∀ valueKey r,
      netValue pushed valueKey (Z.of_nat r)
      = if decide (round ≤ r ∧ prefixRound ≤ r)%nat
        then count
             * mergedNet (j_keyRegisters join)
                         (merge (j_registersToMerge join) prefix) rights
                         (CreateKeyFunction (j_keyRegisters join) prefix)
                         valueKey r
        else 0.
Proof.
  intros Hrun Hrc Hregs. apply Forall_cons_1 in Hregs as [Hprefix Hrights].
  rewrite Forall_forall in Hrights.
  pose proof (roundAndCount_long _ _ Hrc) as Hlen.
  destruct (intermediate_insert_Ok
              (CreateKeyFunction (j_keyRegisters join) prefix) prefix
              prefixRound count (j_leftIndex join) Hrc)
    as [leftIndex' Hins].
  unfold joinOnLeft. rewrite Hrc. cbn [rbind]. rewrite Hins. cbn [rbind].
  exists (match iter (CreateKeyFunction (j_keyRegisters join) prefix)
                     (Z.of_nat round) (j_rightIndex join) with
          | None => []
          | Some diffs =>
              flat_map (λ '(rightPrefix, diffRound, diffCount),
                          joined (j_registersToMerge join) prefix
                                 rightPrefix prefixRound count
                                 diffRound diffCount) diffs
          end), leftIndex'.
  split; [done|]. split.
  { destruct (iter _ _ _); [done|by rewrite app_nil_r]. }
  intros valueKey r.
  apply (join_net (j_keyRegisters join) rights
           (merge (j_registersToMerge join) prefix)
           (CreateKeyFunction (j_keyRegisters join) prefix) valueKey)
    with (index := j_rightIndex join); [| |done|done].
  - intros p p' Hp Hp' Hhash. apply merge_hash; auto.
  - intros p m _ Hm. apply merge_length in Hm; [lia|done].
Qed.

(** X20.  [BinaryJoinRight.onRight] stores the prefix in the right index
    and pushes the merges of what the left index returns for its key
    with it.  When the registers to merge are registers of the prefixes,
    the counts of the results of a value add up, up to any round [r]
    from the round of the execution and the round of the prefix on, to
    the count of the prefix times what the prefixes given on the left
    that have its key and merge with it into that value hold up to [r];
    before that there is no result. *)
Theorem join_right_counts_matches (join : @BinaryJoinRight World)
    (lefts results : list Prefix) (prefix : Prefix) prefixRound count
    (round : nat) :
  inserts (j_keyRegisters join) lefts ∅ = Ok (j_leftIndex join) →
  roundAndCount prefix = Ok (prefixRound, count) →
  Forall (keysAreRegisters (j_registersToMerge join)) (prefix :: lefts) →
  ∃ pushed rightIndex',
    insert (CreateKeyFunction (j_keyRegisters join) prefix) prefix
           (j_rightIndex join) = Ok rightIndex' ∧
    joinOnRight (Z.of_nat round) (results, join) prefix
    = Ok (results ++ pushed,
          mkJoin (j_left join) (j_right join) (j_keyRegisters join)
                 (j_registersToMerge join) (j_leftIndex join)
                 rightIndex') ∧
    ∀ valueKey r,
      netValue pushed valueKey (Z.of_nat r)
      = if decide (round ≤ r ∧ prefixRound ≤ r)%nat
        then count
             * mergedNet (j_keyRegisters join)
                         (λ leftPrefix,
                            merge (j_registersToMerge join) leftPrefix
                                  prefix)
                         lefts
                         (CreateKeyFunction (j_keyRegisters join) prefix)
                         valueKey r
        else 0.
Proof.
  intros Hrun Hrc Hregs. apply Forall_cons_1 in Hregs as [Hprefix Hlefts].
  rewrite Forall_forall in Hlefts.
  destruct (inserts_stored _ _ _ Hrun) as [Hlens _].
  rewrite Forall_forall in Hlens.
  destruct (intermediate_insert_Ok
              (CreateKeyFunction (j_keyRegisters join) prefix) prefix
              prefixRound count (j_rightIndex join) Hrc)
    as [rightIndex' Hins].
  unfold joinOnRight. rewrite Hrc. cbn [rbind]. rewrite Hins. cbn [rbind].
  exists (match iter (CreateKeyFunction (j_keyRegisters join) prefix)
                     (Z.of_nat round) (j_leftIndex join) with
          | None => []
          | Some diffs =>
              flat_map (λ '(leftPrefix, diffRound, diffCount),
                          joined (j_registersToMerge join) leftPrefix
                                 prefix prefixRound count
                                 diffRound diffCount) diffs
          end), rightIndex'.
  split; [done|]. split.
  { destruct (iter _ _ _); [done|by rewrite app_nil_r]. }
  intros valueKey r.
  apply (join_net (j_keyRegisters join) lefts
           (λ leftPrefix,
              merge (j_registersToMerge join) leftPrefix prefix)
           (CreateKeyFunction (j_keyRegisters join) prefix) valueKey)
    with (index := j_leftIndex join); [| |done|done].
  - intros p p' Hp Hp' Hhash. apply merge_hash; auto.
  - intros p m Hp Hm. apply merge_length in Hm; [|by apply Hlefts].
    apply Hlens in Hp. lia.
Qed.

End BinaryJoinCounts.

Section BinaryJoinExamples.
Import Flow Flow.IntermediateIndex Indexes Joining BinaryJoinSamples.

(** A left prefix of count 2 that leaves register 1 open joins both
    prefixes of the right, each in its round; a right prefix joins the
    left prefix that has its value in register 1 and the one that leaves
    it open, from round 1 on. *)
Example sample_joins :
  match joinOnLeft 0 ([], heardRights) sampleLeft with
  | Ok (results, _) =>
      results = [[Some 5; Some 7; Some 0; Some 2];
                 [Some 5; Some 8; Some 1; Some 2]]
  | Fail _ => False
  end ∧
  match joinOnRight 0 ([], heardLefts) sampleRight with
  | Ok (results, _) =>
      results = [[Some 5; Some 7; Some 0; Some 2];
                 [Some 5; Some 7; Some 1; Some 6]]
  | Fail _ => False
  end.
Proof. vm_compute. done. Qed.

Lemma join_left_counts_matches_witness :
  inserts (j_keyRegisters heardRights) sampleRights ∅
  = Ok (j_rightIndex heardRights) ∧
  roundAndCount sampleLeft = Ok (0%nat, 2) ∧
  Forall (keysAreRegisters (j_registersToMerge heardRights))
         (sampleLeft :: sampleRights) ∧
  ∃ pushed leftIndex',
    insert (CreateKeyFunction (j_keyRegisters heardRights) sampleLeft)
           sampleLeft (j_leftIndex heardRights) = Ok leftIndex' ∧
    joinOnLeft (Z.of_nat 0) ([], heardRights) sampleLeft
    = Ok ([] ++ pushed,
          mkJoin (j_left heardRights) (j_right heardRights)
                 (j_keyRegisters heardRights)
                 (j_registersToMerge heardRights) leftIndex'
                 (j_rightIndex heardRights)) ∧
    ∀ valueKey r,
      netValue pushed valueKey (Z.of_nat r)
      = if decide (0 ≤ r ∧ 0 ≤ r)%nat
        then 2 * mergedNet (j_keyRegisters heardRights)
                   (merge (j_registersToMerge heardRights) sampleLeft)
                   sampleRights
                   (CreateKeyFunction (j_keyRegisters heardRights)
                                      sampleLeft)
                   valueKey r
        else 0.
Proof.
  assert (Forall (keysAreRegisters (j_registersToMerge heardRights))
                 (sampleLeft :: sampleRights)) as Hregs.
  { repeat constructor; simpl; lia. }
  split; [vm_compute; reflexivity|]. split; [reflexivity|].
  split; [exact Hregs|].
  apply (join_left_counts_matches heardRights sampleRights [] sampleLeft
           0%nat 2 0%nat); [vm_compute; reflexivity|reflexivity|exact Hregs].
Defined.

Lemma join_right_counts_matches_witness :
  inserts (j_keyRegisters heardLefts) sampleLefts ∅
  = Ok (j_leftIndex heardLefts) ∧
  roundAndCount sampleRight = Ok (0%nat, 2) ∧
  Forall (keysAreRegisters (j_registersToMerge heardLefts))
         (sampleRight :: sampleLefts) ∧
  ∃ pushed rightIndex',
    insert (CreateKeyFunction (j_keyRegisters heardLefts) sampleRight)
           sampleRight (j_rightIndex heardLefts) = Ok rightIndex' ∧
    joinOnRight (Z.of_nat 0) ([], heardLefts) sampleRight
    = Ok ([] ++ pushed,
          mkJoin (j_left heardLefts) (j_right heardLefts)
                 (j_keyRegisters heardLefts)
                 (j_registersToMerge heardLefts) (j_leftIndex heardLefts)
                 rightIndex') ∧
    ∀ valueKey r,
      netValue pushed valueKey (Z.of_nat r)
      = if decide (0 ≤ r ∧ 0 ≤ r)%nat
        then 2 * mergedNet (j_keyRegisters heardLefts)
                   (λ leftPrefix,
                      merge (j_registersToMerge heardLefts) leftPrefix
                            sampleRight)
                   sampleLefts
                   (CreateKeyFunction (j_keyRegisters heardLefts)
                                      sampleRight)
                   valueKey r
        else 0.
Proof.
  assert (Forall (keysAreRegisters (j_registersToMerge heardLefts))
                 (sampleRight :: sampleLefts)) as Hregs.
  { repeat constructor; simpl; lia. }
  split; [vm_compute; reflexivity|]. split; [reflexivity|].
  split; [exact Hregs|].
  apply (join_right_counts_matches heardLefts sampleLefts [] sampleRight
           0%nat 2 0%nat); [vm_compute; reflexivity|reflexivity|exact Hregs].
Defined.

End BinaryJoinExamples.

Section JoinHistoryFacts.
Import Flow Flow.IntermediateIndex Indexes Joining.

Context {World : Type}.

Lemma inserts_snoc keys seen p index index' :
  inserts keys seen ∅ = Ok index →
  insert (CreateKeyFunction keys p) p index = Ok index' →
  inserts keys (seen ++ [p]) ∅ = Ok index'.
Proof.
  intros Hrun Hins. unfold inserts in *. rewrite foldM_snoc, Hrun. done.
Qed.

(** A join keeps its registers, and its indexes hold what it was
    given. *)
Lemma joinedUp_indexes keys regs lefts rights results
    (join : @BinaryJoinRight World) :
  joinedUp keys regs lefts rights results join →
  j_keyRegisters join = keys ∧ j_registersToMerge join = regs ∧
  inserts keys lefts ∅ = Ok (j_leftIndex join) ∧
  inserts keys rights ∅ = Ok (j_rightIndex join).
Proof.
  induction 1 as [left right
                 |lefts rights results join round p pR count results' join'
                    Hran (Hkeys & Hregs & Hlefts & Hrights) Hrc Hround Hrun
                 |lefts rights results join round p pR count results' join'
                    Hran (Hkeys & Hregs & Hlefts & Hrights) Hrc Hround Hrun].
  - done.
  - unfold joinOnLeft in Hrun. rewrite Hrc in Hrun. cbn [rbind] in Hrun.
    destruct (insert _ p (j_leftIndex join)) as [leftIndex'|] eqn:Hins;
      [|done].
    cbn [rbind] in Hrun. rewrite Hkeys in Hins.
    assert (join' = mkJoin (j_left join) (j_right join)
                           (j_keyRegisters join) (j_registersToMerge join)
                           leftIndex' (j_rightIndex join)) as ->.
    { destruct (iter _ _ _); by injection Hrun as _ <-. }
    cbn [j_keyRegisters j_registersToMerge j_leftIndex j_rightIndex].
    split; [done|]. split; [done|]. split; [|done].
    by eapply inserts_snoc.
  - unfold joinOnRight in Hrun. rewrite Hrc in Hrun. cbn [rbind] in Hrun.
    destruct (insert _ p (j_rightIndex join)) as [rightIndex'|] eqn:Hins;
      [|done].
    cbn [rbind] in Hrun. rewrite Hkeys in Hins.
    assert (join' = mkJoin (j_left join) (j_right join)
                           (j_keyRegisters join) (j_registersToMerge join)
                           (j_leftIndex join) rightIndex') as ->.
    { destruct (iter _ _ _); by injection Hrun as _ <-. }
    cbn [j_keyRegisters j_registersToMerge j_leftIndex j_rightIndex].
    split; [done|]. split; [done|]. split; [done|].
    by eapply inserts_snoc.
Qed.

Lemma mergedNet_snoc keys mergeWith seen q rq cq key valueKey r :
  roundAndCount q = Ok (rq, cq) →
  mergedNet keys mergeWith (seen ++ [q]) key valueKey r
  = mergedNet keys mergeWith seen key valueKey r
    + (if decide (CreateKeyFunction keys q = key
                  ∧ hashPrefix <$> mergeWith q = Some valueKey
                  ∧ (rq ≤ r)%nat)
       then cq else 0).
Proof.
  intros Hrc. unfold mergedNet. induction seen as [|p seen IH].
  - cbn [app foldr]. rewrite Hrc. case_decide; lia.
  - cbn [app foldr]. rewrite IH. repeat case_match; lia.
Qed.

Lemma pairsNet_left keys regs lefts rights p rp cp valueKey r :
  roundAndCount p = Ok (rp, cp) →
  pairsNet keys regs (lefts ++ [p]) rights valueKey r
  = pairsNet keys regs lefts rights valueKey r
    + (if decide (rp ≤ r)%nat
       then cp * mergedNet keys (merge regs p) rights
                           (CreateKeyFunction keys p) valueKey r
       else 0).
Proof.
  intros Hrc. unfold pairsNet. induction lefts as [|p0 lefts IH].
  - cbn [app foldr]. rewrite Hrc. lia.
  - cbn [app foldr]. rewrite IH. repeat case_match; lia.
Qed.

Lemma pairsNet_right keys regs lefts rights q rq cq valueKey r :
  roundAndCount q = Ok (rq, cq) →
  pairsNet keys regs lefts (rights ++ [q]) valueKey r
  = pairsNet keys regs lefts rights valueKey r
    + (if decide (rq ≤ r)%nat
       then cq * mergedNet keys (λ leftPrefix, merge regs leftPrefix q)
                           lefts (CreateKeyFunction keys q) valueKey r
       else 0).
Proof.
  intros Hrc. induction lefts as [|p lefts IH].
  - cbn [pairsNet mergedNet foldr]. case_decide; lia.
  - cbn [pairsNet mergedNet foldr].
    fold (pairsNet keys regs lefts (rights ++ [q]) valueKey r).
    fold (pairsNet keys regs lefts rights valueKey r).
    fold (mergedNet keys (λ leftPrefix, merge regs leftPrefix q) lefts
                    (CreateKeyFunction keys q) valueKey r).
    rewrite IH.
    destruct (roundAndCount p) as [[rp cp]|]; [|done].
    rewrite (mergedNet_snoc _ _ _ _ _ _ _ _ _ Hrc).
    repeat case_decide; try lia; try ring;
      exfalso;
      repeat match goal with H : _ ∧ _ |- _ => destruct H end;
      match goal with
      | H : ¬ _ |- _ =>
          apply H; repeat split; solve [done | lia | congruence]
      end.
Qed.

End JoinHistoryFacts.

Section JoinBilinear.
Import Flow Flow.IntermediateIndex Indexes Joining.

Context {World : Type}.

(** X21.  Whatever the order in which a [BinaryJoinRight] was given its
    left and its right prefixes, what it has pushed adds up, for every
    result value and up to every round, to the products of the counts of
    the pairs of a left and a right prefix of the same key that merge
    into that value and both lie within the round. *)
Theorem join_results_are_matching_pairs keys regs lefts rights results
    (join : @BinaryJoinRight World) :
  joinedUp keys regs lefts rights results join →
  Forall (keysAreRegisters regs) (lefts ++ rights) →
  ∀ valueKey r,
    netValue results valueKey (Z.of_nat r)
    = pairsNet keys regs lefts rights valueKey r.
Proof.
  induction 1 as [left right
                 |lefts rights results join round p pR count results' join'
                    Hran IH Hrc Hround Hrun
                 |lefts rights results join round p pR count results' join'
                    Hran IH Hrc Hround Hrun];
    intros Hall valueKey r.
  - done.
  - destruct (joinedUp_indexes _ _ _ _ _ _ Hran)
      as (Hkeys & Hregs & Hlefts & Hrights).
    apply Forall_app in Hall as [Hall Hrs].
    apply Forall_app in Hall as [Hls Hp]. rewrite Forall_singleton in Hp.
    pose proof (roundAndCount_long _ _ Hrc) as Hlen.
    unfold joinOnLeft in Hrun. rewrite Hrc in Hrun. cbn [rbind] in Hrun.
    destruct (insert _ p (j_leftIndex join)) as [leftIndex'|]; [|done].
    cbn [rbind] in Hrun. rewrite Hkeys, Hregs in Hrun.
    assert (results'
            = results
              ++ match iter (CreateKeyFunction keys p) (Z.of_nat round)
                            (j_rightIndex join) with
                 | None => []
                 | Some diffs =>
                     flat_map (λ '(rightPrefix, diffRound, diffCount),
                                 joined regs p rightPrefix pR count
                                        diffRound diffCount) diffs
                 end) as ->.
    { destruct (iter _ _ _); injection Hrun as <- _;
        [done|by rewrite app_nil_r]. }
    rewrite netValue_app, (pairsNet_left _ _ _ _ _ _ _ _ _ Hrc).
    rewrite IH by (apply Forall_app; by split). f_equal.
    transitivity
      (if decide (round ≤ r ∧ pR ≤ r)%nat
       then count * mergedNet keys (merge regs p) rights
                              (CreateKeyFunction keys p) valueKey r
       else 0); [|decided].
    rewrite Forall_forall in Hrs.
    apply (join_net keys rights (merge regs p) (CreateKeyFunction keys p)
             valueKey)
      with (index := j_rightIndex join); [| |done|done].
    + intros q q' Hq Hq' Hhash. apply merge_hash; auto.
    + intros q m _ Hm. apply merge_length in Hm; [lia|done].
  - destruct (joinedUp_indexes _ _ _ _ _ _ Hran)
      as (Hkeys & Hregs & Hlefts & Hrights).
    apply Forall_app in Hall as [Hls Hall].
    apply Forall_app in Hall as [Hrs Hp]. rewrite Forall_singleton in Hp.
    destruct (inserts_stored _ _ _ Hlefts) as [Hlens _].
    rewrite Forall_forall in Hlens.
    unfold joinOnRight in Hrun. rewrite Hrc in Hrun. cbn [rbind] in Hrun.
    destruct (insert _ p (j_rightIndex join)) as [rightIndex'|]; [|done].
    cbn [rbind] in Hrun. rewrite Hkeys, Hregs in Hrun.
    assert (results'
            = results
              ++ match iter (CreateKeyFunction keys p) (Z.of_nat round)
                            (j_leftIndex join) with
                 | None => []
                 | Some diffs =>
                     flat_map (λ '(leftPrefix, diffRound, diffCount),
                                 joined regs leftPrefix p pR count
                                        diffRound diffCount) diffs
                 end) as ->.
    { destruct (iter _ _ _); injection Hrun as <- _;
        [done|by rewrite app_nil_r]. }
    rewrite netValue_app, (pairsNet_right _ _ _ _ _ _ _ _ _ Hrc).
    rewrite IH by (apply Forall_app; by split). f_equal.
    transitivity
      (if decide (round ≤ r ∧ pR ≤ r)%nat
       then count * mergedNet keys (λ leftPrefix, merge regs leftPrefix p)
                              lefts (CreateKeyFunction keys p) valueKey r
       else 0); [|decided].
    rewrite Forall_forall in Hls.
    apply (join_net keys lefts (λ leftPrefix, merge regs leftPrefix p)
             (CreateKeyFunction keys p) valueKey)
      with (index := j_leftIndex join); [| |done|done].
    + intros q q' Hq Hq' Hhash. apply merge_hash; auto.
    + intros q m Hq Hm. apply merge_length in Hm; [|by apply Hls].
      apply Hlens in Hq. lia.
Qed.

End JoinBilinear.

Section JoinBilinearExamples.
Import Flow Flow.IntermediateIndex Indexes Joining BinaryJoinSamples
       JoinHistory.

(** Given the two right prefixes and then the left prefix, the join has
    pushed the two results of the left prefix. *)
Example sample_history :
  afterLeft.1 = [[Some 5; Some 7; Some 0; Some 2];
                 [Some 5; Some 8; Some 1; Some 2]].
Proof. vm_compute. done. Qed.

Lemma sample_joinedUp :
  joinedUp sampleKeys sampleMerge [sampleLeft] sampleRights
           afterLeft.1 afterLeft.2.
Proof.
  apply (joinedUp_left sampleKeys sampleMerge [] sampleRights
           afterRights.1 afterRights.2 0 sampleLeft 0 2);
    [|reflexivity|lia|vm_compute; reflexivity].
  apply (joinedUp_right sampleKeys sampleMerge []
           [[Some 5; Some 7; Some 0; Some 1]]
           afterRight.1 afterRight.2 0
           [Some 5; Some 8; Some 1; Some 1] 1 1);
    [|reflexivity|lia|vm_compute; reflexivity].
  apply (joinedUp_right sampleKeys sampleMerge [] [] [] fresh 0
           [Some 5; Some 7; Some 0; Some 1] 0 1);
    [|reflexivity|lia|vm_compute; reflexivity].
  apply joinedUp_new.
Defined.

Lemma join_results_are_matching_pairs_witness :
  joinedUp sampleKeys sampleMerge [sampleLeft] sampleRights
           afterLeft.1 afterLeft.2 ∧
  Forall (keysAreRegisters sampleMerge) ([sampleLeft] ++ sampleRights) ∧
  ∀ valueKey r,
    netValue afterLeft.1 valueKey (Z.of_nat r)
    = pairsNet sampleKeys sampleMerge [sampleLeft] sampleRights valueKey r.
Proof.
  assert (Forall (keysAreRegisters sampleMerge)
                 ([sampleLeft] ++ sampleRights)) as Hregs.
  { repeat constructor; simpl; lia. }
  split; [exact sample_joinedUp|]. split; [exact Hregs|].
  apply (join_results_are_matching_pairs sampleKeys sampleMerge
           [sampleLeft] sampleRights afterLeft.1 afterLeft.2
           sample_joinedUp Hregs).
Defined.

End JoinBilinearExamples.

(** ** Collapsing commits *)

Section SortFacts.
Import Transaction.

Variable compare : Change.t → Change.t → Z.
Hypothesis compare_trans :
  ∀ x y z, compare x y ≤ 0 → compare y z ≤ 0 → compare x z ≤ 0.
Hypothesis compare_total : ∀ x y, ¬ compare y x ≤ 0 → compare x y ≤ 0.

Lemma insertSorted_perm_any x l : insertSorted compare x l ≡ₚ x :: l.
Proof.
  induction l as [|y l IH]; simpl; [done|].
  case_decide; [|done]. rewrite IH. apply Permutation_swap.
Qed.

Lemma sort_perm_any l : sort compare l ≡ₚ l.
Proof.
  unfold sort.
  assert (∀ acc, fold_left (λ sorted x, insertSorted compare x sorted) l acc
                 ≡ₚ acc ++ l) as H.
  { induction l as [|x l IH]; intros acc; simpl; [by rewrite app_nil_r|].
    rewrite IH, insertSorted_perm_any. simpl. apply Permutation_middle. }
  by rewrite H.
Qed.

Lemma insertSorted_sorted_any x l :
  StronglySorted (λ x y, compare x y ≤ 0) l →
  StronglySorted (λ x y, compare x y ≤ 0) (insertSorted compare x l).
Proof.
  induction 1 as [|y l Hl IH Hy]; simpl; [repeat constructor|].
  case_decide as Hyx.
  - constructor; [done|]. rewrite insertSorted_perm_any. by constructor.
  - apply compare_total in Hyx. constructor; [by constructor|].
    constructor; [done|]. eapply Forall_impl; [exact Hy|].
    intros z Hz. by eapply compare_trans.
Qed.

Lemma sort_sorted_any l :
  StronglySorted (λ x y, compare x y ≤ 0) (sort compare l).
Proof.
  unfold sort.
  assert (∀ acc, StronglySorted (λ x y, compare x y ≤ 0) acc →
            StronglySorted (λ x y, compare x y ≤ 0)
              (fold_left (λ sorted x, insertSorted compare x sorted) l acc))
    as H.
  { induction l as [|x l IH]; intros acc Hacc; simpl; [done|].
    by apply IH, insertSorted_sorted_any. }
  apply H. constructor.
Qed.

End SortFacts.

Section CommitFacts.
Import Transaction Commits.

Local Abbreviation hasNEAV n e a v :=
  (λ c : Change.t, Change.n c = n ∧ Change.e c = e ∧ Change.a c = a
                   ∧ Change.v c = v).
Local Abbreviation sameGroup c y :=
  (Change.n c = Change.n y ∧ Change.e c = Change.e y
   ∧ Change.a c = Change.a y ∧ Change.v c = Change.v y).
Local Abbreviation signed c :=
  (match Change.cls c with
   | Change.CChange => 0 < Change.count c
   | Change.CRemoveChange => Change.count c < 0
   end).

Lemma sameNEAV_spec x y : sameNEAV x y = true ↔ sameGroup x y.
Proof.
  unfold sameNEAV, sameEAV.
  rewrite !andb_true_iff, !bool_decide_eq_true. intuition congruence.
Qed.

Lemma leN_trans x y z :
  compareNEAV x y ≤ 0 → compareNEAV y z ≤ 0 → compareNEAV x z ≤ 0.
Proof. unfold compareNEAV, compareEAV. repeat case_decide; lia. Qed.

Lemma leN_total x y : ¬ compareNEAV y x ≤ 0 → compareNEAV x y ≤ 0.
Proof. unfold compareNEAV, compareEAV. repeat case_decide; lia. Qed.

Lemma leN_strict x y c :
  leN x y → ¬ sameGroup x y → leN y c → ¬ sameGroup c x.
Proof.
  unfold leN, compareNEAV, compareEAV. intros Hxy Hne Hyc Hs.
  apply Hne. repeat case_decide; repeat split; lia.
Qed.

Lemma totalN_cons c l n e a v :
  totalN (c :: l) n e a v
  = (if decide (hasNEAV n e a v c) then Change.count c else 0)
    + totalN l n e a v.
Proof. unfold totalN. rewrite filter_cons. by case_decide. Qed.

Lemma totalN_perm l l' n e a v :
  l ≡ₚ l' → totalN l n e a v = totalN l' n e a v.
Proof.
  induction 1 as [|x l l' _ IH|x y l|l1 l2 l3 _ IH1 _ IH2];
    rewrite ?totalN_cons; try done; lia.
Qed.

Lemma totalN_none l n e a v :
  Forall (λ c, ¬ hasNEAV n e a v c) l → totalN l n e a v = 0.
Proof.
  induction 1 as [|c l Hc _ IH]; [done|]. rewrite totalN_cons.
  rewrite decide_False by done. by rewrite IH.
Qed.

Lemma filter_none {A : Type} (P : A → Prop) `{!∀ x, Decision (P x)} l :
  Forall (λ x, ¬ P x) l → filter P l = [].
Proof.
  induction 1 as [|x l Hx _ IH]; [done|].
  rewrite filter_cons. by rewrite decide_False.
Qed.

(** What is pushed for a group of changes once their counts are added
    up. *)
Lemma pushCommit_kept current :
  Forall (λ c, Change.round c = 0 ∧ Change.count c = Change.count current
               ∧ signed c ∧ Change.cls c = Change.cls current
               ∧ sameGroup c current
               ∧ Change.transaction c = Change.transaction current)
         (pushCommit current) ∧
  (length (pushCommit current) ≤ 1)%nat.
Proof.
  unfold pushCommit. destruct (Change.cls current) eqn:Hcls;
    case_decide; (split; [|simpl; lia]);
    repeat first [apply Forall_nil_2 | apply Forall_cons_2 | split];
    simpl; solve [done | lia].
Qed.

(** On sorted commits the loop pushes, for a node and a triple, at most
    one change; it carries the sum of the counts. *)
Lemma collapseCommitsFrom_spec current rest :
  StronglySorted leN (current :: rest) →
  Forall (λ c, Change.round c = 0
               ∧ Change.count c
                 = totalN (current :: rest) (Change.n c) (Change.e c)
                          (Change.a c) (Change.v c)
               ∧ signed c
               ∧ ∃ y, y ∈ current :: rest ∧ Change.cls c = Change.cls y
                      ∧ sameGroup c y
                      ∧ Change.transaction c = Change.transaction y)
         (collapseCommitsFrom current rest) ∧
  ∀ n e a v,
    (length (filter (hasNEAV n e a v) (collapseCommitsFrom current rest))
     ≤ 1)%nat.
Proof.
  revert current. induction rest as [|next rest IH]; intros current Hs.
  - cbn [collapseCommitsFrom].
    destruct (pushCommit_kept current) as [Hkept Hlen]. split.
    + eapply Forall_impl; [exact Hkept|].
      intros c (Hround & Hcount & Hsign & Hcls & Hgroup & Htx).
      split; [done|]. split.
      * rewrite totalN_cons. rewrite decide_True by (intuition congruence).
        change (totalN [] _ _ _ _) with 0. lia.
      * split; [done|]. exists current. split; [by left|done].
    + intros n e a v. etrans; [apply length_filter|done].
  - cbn [collapseCommitsFrom].
    apply StronglySorted_inv in Hs as [Hs Hall].
    apply Forall_cons in Hall as [Hcn Hall].
    destruct (sameNEAV current next) eqn:Hsame.
    + apply sameNEAV_spec in Hsame.
      destruct (IH (addCount current next)) as [Hkept Hone].
      { apply StronglySorted_inv in Hs as [Hs Hnext].
        constructor; [done|].
        eapply Forall_impl; [exact Hall|]. intros z Hz.
        unfold leN, compareNEAV, compareEAV in *. by simpl. }
      split; [|done].
      eapply Forall_impl; [exact Hkept|].
      intros c (Hround & Hcount & Hsign & y & Hy & Hcls & Hgroup & Htx).
      split; [done|]. split.
      * rewrite Hcount, !totalN_cons. simpl.
        repeat case_decide; try lia; exfalso; intuition congruence.
      * split; [done|].
        apply elem_of_cons in Hy as [->|Hy].
        -- exists current. split; [by left|done].
        -- exists y. split; [by do 2 right|done].
    + assert (¬ sameGroup current next) as Hne.
      { intros Hg. apply sameNEAV_spec in Hg. congruence. }
      assert (Forall (λ y, ¬ sameGroup y current) (next :: rest))
        as Hlater.
      { apply Forall_forall. intros y [->|Hy]%elem_of_cons.
        - intros Hg. apply Hne. intuition congruence.
        - apply StronglySorted_inv in Hs as [_ Hnext].
          eapply leN_strict; [exact Hcn|done|].
          by eapply Forall_forall in Hnext. }
      destruct (IH next Hs) as [Hkept Hone].
      destruct (pushCommit_kept current) as [Hkept0 Hlen0].
      split.
      * apply Forall_app. split.
        -- eapply Forall_impl; [exact Hkept0|].
           intros c (Hround & Hcount & Hsign & Hcls & Hgroup & Htx).
           split; [done|]. split.
           ++ rewrite totalN_cons. rewrite decide_True by (intuition congruence).
              rewrite totalN_none; [lia|].
              eapply Forall_impl; [exact Hlater|]. intros y Hy Hg.
              apply Hy. intuition congruence.
           ++ split; [done|]. exists current. split; [by left|done].
        -- eapply Forall_impl; [exact Hkept|].
           intros c (Hround & Hcount & Hsign & y & Hy & Hcls & Hgroup
                     & Htx).
           split; [done|]. split.
           ++ rewrite totalN_cons. rewrite decide_False; [lia|].
              intros Hg.
              apply (proj1 (Forall_forall _ _) Hlater) in Hy.
              apply Hy. intuition congruence.
           ++ split; [done|]. exists y. split; [by right|done].
      * intros n e a v. rewrite filter_app, length_app.
        destruct (decide (hasNEAV n e a v current)) as [Hcur|Hcur].
        -- rewrite (filter_none _ (collapseCommitsFrom next rest)).
           { simpl. etrans; [|exact Hlen0].
             rewrite Nat.add_0_r. apply length_filter. }
           eapply Forall_impl; [exact Hkept|].
           intros c (_ & _ & _ & y & Hy & _ & Hgroup & _) Hc.
           apply (proj1 (Forall_forall _ _) Hlater) in Hy.
           apply Hy. intuition congruence.
        -- rewrite (filter_none _ (pushCommit current)).
           { simpl. apply Hone. }
           eapply Forall_impl; [exact Hkept0|].
           intros c (_ & _ & _ & _ & Hgroup & _) Hc.
           apply Hcur. intuition congruence.
Qed.

(** X22.  [collapseCommits(changes, results)] appends to [results], for
    every node and triple, at most one change.  A change that it appends
    has round 0 and, as its count, the sum of the counts of the changes
    of its node and triple; it is an addition with a positive count or a
    removal with a negative count, and has the class and the transaction
    of one of the changes of its node and triple. *)
Theorem collapse_commits_sums_groups changes results :
  ∃ collapsed,
    collapseCommits changes results = results ++ collapsed ∧
    Forall (λ c, Change.round c = 0
                 ∧ Change.count c
                   = totalN changes (Change.n c) (Change.e c)
                            (Change.a c) (Change.v c)
                 ∧ signed c
                 ∧ ∃ y, y ∈ changes ∧ Change.cls c = Change.cls y
                        ∧ sameGroup c y
                        ∧ Change.transaction c = Change.transaction y)
           collapsed ∧
    ∀ n e a v, (length (filter (hasNEAV n e a v) collapsed) ≤ 1)%nat.
Proof.
  exists (collapseCommits changes []). split; [done|].
  unfold collapseCommits. cbn [app].
  pose proof (sort_perm_any compareNEAV changes) as Hperm.
  pose proof (sort_sorted_any compareNEAV leN_trans leN_total changes)
    as Hsorted.
  destruct (sort compareNEAV changes) as [|current rest].
  { split; [constructor|]. intros. simpl. lia. }
  destruct (collapseCommitsFrom_spec current rest Hsorted)
    as [Hkept Hone].
  split; [|done].
  eapply Forall_impl; [exact Hkept|].
  intros c (Hround & Hcount & Hsign & y & Hy & Hrest).
  split; [done|]. split.
  - rewrite Hcount. by apply totalN_perm.
  - split; [done|]. exists y. split; [|done]. by rewrite <- Hperm.
Qed.

End CommitFacts.

Section CommitExamples.
Import Transaction.

(** An addition that is committed twice and removed once stays an
    addition of count 1 in round 0; a removal that an addition outweighs
    is dropped, since its sum is not negative. *)
Example sample_commits :
  collapseCommits
    [Change.mk Change.CChange 1 2 3 7 1 4 1;
     Change.mk Change.CRemoveChange 1 2 4 7 1 4 (-1);
     Change.mk Change.CChange 1 2 3 7 1 5 1;
     Change.mk Change.CChange 1 2 4 7 1 5 2;
     Change.mk Change.CRemoveChange 1 2 3 7 1 6 (-1)] []
  = [Change.mk Change.CChange 1 2 3 7 1 0 1].
Proof. done. Qed.

End CommitExamples.

Section PartialCommits.
Import Transaction Commits Counting Multiplicity.

Context {World : Type}.
Variable indexGet : World → ID → option ID → Z → list (ID * ID).
Variable indexGetDiffs : World → ID → ID → ID → RoundArray.

Lemma netChanges_app l1 l2 a v r :
  netChanges (l1 ++ l2) a v r = netChanges l1 a v r + netChanges l2 a v r.
Proof.
  unfold netChanges. induction l1 as [|c l1 IH]; simpl; [done|].
  rewrite IH. case_decide; lia.
Qed.

Lemma netChanges_cons c l a v r :
  netChanges (c :: l) a v r
  = (if decide (Change.a c = a ∧ Change.v c = v ∧ Change.round c ≤ r)
     then Change.count c else 0)
    + netChanges l a v r.
Proof. unfold netChanges. simpl. case_decide; lia. Qed.

(** The removals of one match add up to the count of the commit times
    what the rounds of the match add up to. *)
Lemma removals_net (commit : PartialCommit) a' v' rounds a v r :
  netChanges
    (map (λ round,
            Change.mk Change.CRemoveChange (p_e commit) a' v'
                      (p_n commit) (p_transaction commit)
                      (Z.max (p_round commit) (Z.abs round - 1))
                      (p_count commit * sign round))
         rounds) a v r
  = if decide (a' = a ∧ v' = v ∧ p_round commit ≤ r)
    then p_count commit * signsUpTo rounds r else 0.
Proof.
  unfold signsUpTo. induction rounds as [|d rounds IH].
  - simpl. case_decide; lia.
  - cbn [map]. rewrite netChanges_cons, IH. rewrite filter_cons.
    cbn [Change.a Change.v Change.round Change.count].
    destruct (decide (Z.abs d - 1 ≤ r)); cbn [signSum foldr];
      fold (signSum (filter (λ d, Z.abs d - 1 ≤ r) rounds));
      repeat case_decide; try lia; exfalso; intuition lia.
Qed.

(** X23.  [toRemoveChanges] of a [RemoveVsChange] or a [RemoveAVsChange]
    pushes removals only, with the entity, the node and the transaction
    of the commit and in rounds from its round on.  For every match that
    the index returns, the counts of its removals add up, up to a round
    from the round of the commit on, to the count of the commit times
    what the rounds that the index holds for the matched triple add up
    to at that round; before the round of the commit there is none. *)
Theorem partial_commit_removes_what_is_there (w : World)
    (commit : PartialCommit) a v r :
  Forall (λ c, Change.cls c = Change.CRemoveChange
               ∧ Change.e c = p_e commit ∧ Change.n c = p_n commit
               ∧ Change.transaction c = p_transaction commit
               ∧ p_round commit ≤ Change.round c)
         (toRemoveChanges World indexGet indexGetDiffs w commit) ∧
  netChanges (toRemoveChanges World indexGet indexGetDiffs w commit) a v r
  = Z.of_nat
      (length
         (filter (λ av : ID * ID,
                    (if allAttributes commit then av.1 else p_a commit) = a
                    ∧ av.2 = v)
                 (indexGet w (p_e commit)
                           (if allAttributes commit then None
                            else Some (p_a commit))
                           (p_transaction commit))))
    * (if decide (p_round commit ≤ r)
       then p_count commit
            * signsUpTo (indexGetDiffs w (p_e commit) a v) r
       else 0).
Proof.
  unfold toRemoveChanges.
  generalize (indexGet w (p_e commit)
                       (if allAttributes commit then None
                        else Some (p_a commit))
                       (p_transaction commit)).
  intros matches. split.
  - apply flat_map_Forall. intros av. apply Forall_map.
    apply Forall_forall. intros round _. simpl. repeat split; lia.
  - induction matches as [|av matches IH]; [simpl; lia|].
    cbn [flat_map]. rewrite netChanges_app, IH, removals_net.
    rewrite filter_cons.
    destruct (decide ((if allAttributes commit then av.1 else p_a commit)
                      = a ∧ av.2 = v)) as [[-> ->]|Hne].
    + cbn [length]. repeat case_decide; try lia; exfalso; intuition lia.
    + rewrite decide_False by tauto. lia.
Qed.

End PartialCommits.

(** ** Outputs and exports of a transaction *)

Section FilingFacts.
Import Transaction Filing.

Context {World : Type}.
Variable distinct : bool → Change.t → World → list Change.t * World.

Lemma pushRound_filed rounds c r :
  filed (pushRound rounds c) r
  = filed rounds r
    ++ (if decide (Change.round c = Z.of_nat r) then [c] else []).
Proof.
  unfold pushRound, filed. case_decide as Hneg.
  { rewrite decide_False by lia. by rewrite app_nil_r. }
  destruct (rounds !! Z.to_nat (Change.round c)) as [[cur|]|] eqn:Hix.
  - destruct (decide (Change.round c = Z.of_nat r)) as [Hr|Hr].
    + replace (Z.to_nat (Change.round c)) with r in * by lia.
      rewrite list_lookup_insert_eq by by eapply lookup_lt_Some.
      by rewrite Hix.
    + rewrite list_lookup_insert_ne by lia. by rewrite app_nil_r.
  - destruct (decide (Change.round c = Z.of_nat r)) as [Hr|Hr].
    + replace (Z.to_nat (Change.round c)) with r in * by lia.
      rewrite list_lookup_insert_eq by by eapply lookup_lt_Some.
      by rewrite Hix.
    + rewrite list_lookup_insert_ne by lia. by rewrite app_nil_r.
  - apply lookup_ge_None_1 in Hix.
    destruct (decide (r < length rounds)%nat) as [Hlt|Hge].
    { rewrite lookup_app_l by done. rewrite decide_False by lia.
      by rewrite app_nil_r. }
    rewrite lookup_app_r by lia.
    rewrite (lookup_ge_None_2 rounds r) by lia.
    destruct (decide (Change.round c = Z.of_nat r)) as [Hr|Hr].
    + rewrite lookup_app_r by (rewrite length_replicate; lia).
      rewrite length_replicate.
      replace (r - length rounds
               - (Z.to_nat (Change.round c) - length rounds))%nat
        with 0%nat by lia.
      done.
    + destruct (decide (r < Z.to_nat (Change.round c))%nat).
      * rewrite lookup_app_l by (rewrite length_replicate; lia).
        rewrite lookup_replicate_2 by lia. done.
      * rewrite lookup_app_r by (rewrite length_replicate; lia).
        rewrite length_replicate. rewrite lookup_ge_None_2; [done|].
        simpl. lia.
Qed.

Lemma pushRounds_filed outputs rounds r :
  filed (fold_left pushRound outputs rounds) r
  = filed rounds r ++ filter (λ c, Change.round c = Z.of_nat r) outputs.
Proof.
  revert rounds. induction outputs as [|c outputs IH]; intros rounds.
  - simpl. by rewrite app_nil_r.
  - cbn [fold_left]. rewrite IH, pushRound_filed, filter_cons.
    rewrite <- app_assoc. by case_decide.
Qed.

(** X24.  [Transaction.output] files what [distinct] returns for the
    change by round: under every round it appends the outputs of that
    round, in their order, to what was filed there, and an output with a
    negative round is filed under no round.  It changes nothing else of
    the transaction. *)
Theorem output_files_by_round saturated change (st : State World) r :
  filed (roundChanges World (output World distinct saturated change st)) r
  = filed (roundChanges World st) r
    ++ filter (λ c, Change.round c = Z.of_nat r)
              (distinct saturated change (world World st)).1 ∧
  world World (output World distinct saturated change st)
  = (distinct saturated change (world World st)).2 ∧
  changes World (output World distinct saturated change st)
  = changes World st ∧
  round World (output World distinct saturated change st)
  = round World st ∧
  frameCommits World (output World distinct saturated change st)
  = frameCommits World st ∧
  exportedChanges World (output World distinct saturated change st)
  = exportedChanges World st.
Proof.
  unfold output.
  destruct (distinct saturated change (world World st))
    as [outputs world'].
  cbn [roundChanges world changes round frameCommits exportedChanges
       fst snd].
  split; [apply pushRounds_filed|done].
Qed.



End FilingFacts.

Section FilingExamples.
Import Transaction Filing TransactionSamples.

(** Exports of the blocks 12, 5 and 12 again are listed by block. *)
Example sample_exported :
  exportedChanges unit
    (export unit 12 (Change.mk Change.CChange 1 2 3 8 7 1 1)
       (export unit 5 (Change.mk Change.CChange 4 5 6 9 7 0 1)
          (export unit 12 (Change.mk Change.CChange 1 2 3 9 7 0 1) start)))
  = [(5, [Change.mk Change.CChange 4 5 6 9 7 0 1]);
     (12, [Change.mk Change.CChange 1 2 3 9 7 0 1;
           Change.mk Change.CChange 1 2 3 8 7 1 1])].
Proof. done. Qed.


End FilingExamples.
